(** * Gitee pull-request MCP server: a shallow embedding of [src/server-final.js]

    The development follows the second (current) copy of the server in
    [src/src/server-final.js] (lines 989-2188): the branch-name formatter, the
    label filter, the OAuth token cache, the create/review/test/merge workflow
    of the [pr] tool, the [token] and [logs] tools, the JSON-RPC dispatcher
    [handleRequest], the validation of the environment when the module is
    loaded, and [start] with its handler of stdin chunks.

    Conventions of the embedding
    - a JavaScript string is the list of its UTF-16 code units ([jsstring]),
      so that [length] is [String.prototype.length] and a regular expression
      without the [u] flag sees one code unit at a time;
    - a JSON value is [json]; numbers are integers ([Z]); [undefined] is the
      [None] of [option json];
    - module-level mutable state ([operationLogs], [cachedAccessToken],
      [tokenExpiresAt]) together with the outside world (clock, network,
      stderr) is the record [world], threaded explicitly;
    - every [await] is a blocking call; interleavings of several requests are
      studied separately, for the token cache, in [Module TokenRace]. *)

From Stdlib Require Import ZArith NArith List Bool Lia String Ascii DecimalString.
Import ListNotations.
Open Scope string_scope.
Open Scope list_scope.

(* ================================================================== *)
(** * JavaScript strings *)
(* ================================================================== *)

Module JsString.

Definition jsstring := list N.

(** A literal of the source, given by its ASCII text. *)
Definition js (s : string) : jsstring :=
  List.map N_of_ascii (list_ascii_of_string s).

Fixpoint eqb (a b : jsstring) : bool :=
  match a, b with
  | [], [] => true
  | x :: a', y :: b' => N.eqb x y && eqb a' b'
  | _, _ => false
  end.

Definition is_empty (s : jsstring) : bool :=
  match s with [] => true | _ => false end.

(** [WhiteSpace] and [LineTerminator] of ECMAScript: what
    [String.prototype.trim] strips and what [\s] matches. *)
Definition is_white_space (c : N) : bool :=
  ((9 <=? c) && (c <=? 13) || (c =? 32) || (c =? 160) || (c =? 0x1680)
   || ((0x2000 <=? c) && (c <=? 0x200A))
   || (c =? 0x2028) || (c =? 0x2029) || (c =? 0x202F) || (c =? 0x205F)
   || (c =? 0x3000) || (c =? 0xFEFF))%N.

Fixpoint drop_while (p : N -> bool) (s : jsstring) : jsstring :=
  match s with
  | [] => []
  | c :: s' => if p c then drop_while p s' else s
  end.

Definition trimStart (s : jsstring) : jsstring := drop_while is_white_space s.
Definition trimEnd (s : jsstring) : jsstring := rev (trimStart (rev s)).

(** [s.trim()] *)
Definition trim (s : jsstring) : jsstring := trimEnd (trimStart s).

(** [s.startsWith(p)] *)
Fixpoint startsWith (s p : jsstring) : bool :=
  match p, s with
  | [], _ => true
  | x :: p', y :: s' => N.eqb x y && startsWith s' p'
  | _ :: _, [] => false
  end.

(** [s.includes(sub)] *)
Fixpoint includes (s sub : jsstring) : bool :=
  startsWith s sub ||
  match s with
  | [] => false
  | _ :: s' => includes s' sub
  end.

(** [s.substring(n)] for [0 <= n] *)
Definition substring_from (n : nat) (s : jsstring) : jsstring := skipn n s.

(** [s.split(sep)] for a one-code-unit separator: the pieces between the
    occurrences of [sep]; the empty string splits into one empty piece. *)
Fixpoint split (sep : N) (s : jsstring) : list jsstring :=
  match s with
  | [] => [[]]
  | c :: s' =>
      if N.eqb c sep then [] :: split sep s'
      else match split sep s' with
           | [] => [[c]]
           | piece :: rest => (c :: piece) :: rest
           end
  end.

Lemma eqb_eq (a b : jsstring) : eqb a b = true <-> a = b.
Proof.
  revert b; induction a as [|x a IH]; intros [|y b]; simpl;
    try (split; [discriminate | discriminate]); try tauto.
  rewrite andb_true_iff, N.eqb_eq, IH.
  split; [intros [-> ->]; reflexivity | intros H; inversion H; auto].
Qed.

Lemma eqb_refl (a : jsstring) : eqb a a = true.
Proof. apply eqb_eq; reflexivity. Qed.

Lemma eqb_neq (a b : jsstring) : eqb a b = false <-> a <> b.
Proof.
  rewrite <- eqb_eq. destruct (eqb a b); split; congruence.
Qed.

Lemma drop_while_head (p : N -> bool) (s : jsstring) :
  match drop_while p s with
  | [] => True
  | c :: _ => p c = false
  end.
Proof.
  induction s as [|c s IH]; simpl; [exact I|].
  destruct (p c) eqn:E; [exact IH | exact E].
Qed.

Lemma drop_while_fixed (p : N -> bool) (c : N) (s : jsstring) :
  p c = false -> drop_while p (c :: s) = c :: s.
Proof. intros H; simpl; rewrite H; reflexivity. Qed.

Lemma drop_while_idem (p : N -> bool) (s : jsstring) :
  drop_while p (drop_while p s) = drop_while p s.
Proof.
  pose proof (drop_while_head p s) as H.
  destruct (drop_while p s) as [|c t]; [reflexivity|].
  apply drop_while_fixed; exact H.
Qed.

(** Dropping from the front keeps the last element. *)
Lemma drop_while_snoc (p : N -> bool) (s : jsstring) (c : N) :
  p c = false -> exists t, drop_while p (s ++ [c]) = t ++ [c].
Proof.
  intros Hc. induction s as [|x s [t IH]]; simpl.
  - rewrite Hc. exists []; reflexivity.
  - destruct (p x).
    + exists t; exact IH.
    + exists (x :: s); reflexivity.
Qed.

(** A string that neither starts nor ends with white space is its own trim. *)
Lemma trim_fixed (c d : N) (s : jsstring) :
  is_white_space c = false -> is_white_space d = false ->
  trim (c :: s ++ [d]) = c :: s ++ [d].
Proof.
  intros Hc Hd. unfold trim, trimEnd, trimStart.
  rewrite (drop_while_fixed _ _ _ Hc).
  rewrite app_comm_cons, rev_unit.
  rewrite (drop_while_fixed _ _ _ Hd).
  change (rev (d :: rev (c :: s))) with (rev (rev (c :: s)) ++ [d]).
  rewrite rev_involutive. reflexivity.
Qed.

Lemma trim_single (c : N) :
  is_white_space c = false -> trim [c] = [c].
Proof.
  intros Hc. unfold trim, trimEnd, trimStart. simpl. rewrite Hc. simpl.
  rewrite Hc. reflexivity.
Qed.

(** The shape of a trimmed string. *)
Lemma trim_shape (s : jsstring) :
  trim s = [] \/
  (exists c, trim s = [c] /\ is_white_space c = false) \/
  (exists c t d, trim s = c :: t ++ [d] /\
                 is_white_space c = false /\ is_white_space d = false).
Proof.
  unfold trim, trimEnd.
  pose proof (drop_while_head is_white_space (rev (trimStart s))) as Hlast.
  pose proof (drop_while_head is_white_space s) as Hfirst.
  fold (trimStart s) in Hfirst.
  destruct (trimStart s) as [|c u] eqn:Eu.
  - left; reflexivity.
  - (* the first element survives the trimming of the end *)
    destruct (rev u) as [|d ru] eqn:Er.
    + assert (u = []) by (rewrite <- (rev_involutive u), Er; reflexivity).
      subst u. right; left. exists c. simpl. unfold trimStart. simpl.
      rewrite Hfirst. simpl. auto.
    + assert (Hu : u = rev ru ++ [d])
        by (rewrite <- (rev_involutive u), Er; reflexivity).
      subst u. clear Er.
      assert (Hr : rev (c :: rev ru ++ [d]) = d :: ru ++ [c]).
      { change (c :: rev ru ++ [d]) with ((c :: rev ru) ++ [d]).
        rewrite rev_app_distr. simpl. rewrite rev_involutive. reflexivity. }
      rewrite Hr in *.
      change (d :: ru ++ [c]) with ((d :: ru) ++ [c]) in *.
      destruct (drop_while_snoc is_white_space (d :: ru) c Hfirst) as [t Ht].
      unfold trimStart in *. rewrite Ht in *. rewrite rev_app_distr. simpl.
      destruct t as [|e t]; simpl.
      * right; left. exists c; auto.
      * right; right.
        assert (Hne : rev t ++ [e] <> []) by (destruct (rev t); discriminate).
        exists c, (rev t), e. repeat split; auto.
Qed.

Lemma trim_idem (s : jsstring) : trim (trim s) = trim s.
Proof.
  destruct (trim_shape s) as [H | [[c [H Hc]] | [c [t [d [H [Hc Hd]]]]]]];
    rewrite H.
  - reflexivity.
  - apply trim_single; exact Hc.
  - apply trim_fixed; assumption.
Qed.

End JsString.

Import JsString.

(* ================================================================== *)
(** * Regular expressions

    The three regular expressions of the server are anchored at both ends,
    have no [m] or [u] flag and use neither groups, look-around nor
    back-references, so [re.test(s)] is membership of the whole string in
    the language of the expression.  Membership is decided with Brzozowski
    derivatives, one code unit at a time. *)
(* ================================================================== *)

Module Regex.

Inductive regex : Type :=
| Void
| Eps
| Class (p : N -> bool)
| Seq (r1 r2 : regex)
| Alt (r1 r2 : regex)
| Star (r : regex).

(** [r+] *)
Definition Plus (r : regex) : regex := Seq r (Star r).

Fixpoint nullable (r : regex) : bool :=
  match r with
  | Void => false
  | Eps => true
  | Class _ => false
  | Seq r1 r2 => nullable r1 && nullable r2
  | Alt r1 r2 => nullable r1 || nullable r2
  | Star _ => true
  end.

Fixpoint deriv (c : N) (r : regex) : regex :=
  match r with
  | Void => Void
  | Eps => Void
  | Class p => if p c then Eps else Void
  | Seq r1 r2 =>
      if nullable r1 then Alt (Seq (deriv c r1) r2) (deriv c r2)
      else Seq (deriv c r1) r2
  | Alt r1 r2 => Alt (deriv c r1) (deriv c r2)
  | Star r1 => Seq (deriv c r1) (Star r1)
  end.

Fixpoint matches (r : regex) (s : jsstring) : bool :=
  match s with
  | [] => nullable r
  | c :: s' => matches (deriv c r) s'
  end.

(** [/^r$/.test(s)] *)
Definition test (r : regex) (s : jsstring) : bool := matches r s.

(** The language of an expression. *)
Inductive lang : regex -> jsstring -> Prop :=
| lang_eps : lang Eps []
| lang_class p c : p c = true -> lang (Class p) [c]
| lang_seq r1 r2 s1 s2 :
    lang r1 s1 -> lang r2 s2 -> lang (Seq r1 r2) (s1 ++ s2)
| lang_alt_l r1 r2 s : lang r1 s -> lang (Alt r1 r2) s
| lang_alt_r r1 r2 s : lang r2 s -> lang (Alt r1 r2) s
| lang_star_nil r : lang (Star r) []
| lang_star_app r s1 s2 :
    lang r s1 -> lang (Star r) s2 -> lang (Star r) (s1 ++ s2).

#[local] Hint Constructors lang : core.

Ltac inv H := inversion H; subst; clear H.

Lemma nullable_lang (r : regex) : nullable r = true <-> lang r [].
Proof.
  induction r as [| |p|r1 IH1 r2 IH2|r1 IH1 r2 IH2|r IH]; simpl; split;
    intros H; try discriminate; try (inversion H; fail); auto.
  - apply andb_true_iff in H as [H1 H2].
    change (@nil N) with (@nil N ++ []). constructor; tauto.
  - inversion H as [| |? ? s1 s2 H1 H2| | | |]; subst.
    match goal with E : _ ++ _ = [] |- _ =>
      apply app_eq_nil in E as [-> ->] end.
    apply andb_true_iff; tauto.
  - apply orb_true_iff in H as [H|H]; [apply lang_alt_l | apply lang_alt_r];
      tauto.
  - inv H; apply orb_true_iff; tauto.
Qed.

(** A non-empty word of a starred language starts with a non-empty word of
    the language. *)
Lemma star_cons_inv (r : regex) (c : N) (s : jsstring) :
  lang (Star r) (c :: s) ->
  exists s1 s2, s = s1 ++ s2 /\ lang r (c :: s1) /\ lang (Star r) s2.
Proof.
  intros H. remember (Star r) as r' eqn:Er. remember (c :: s) as w eqn:Ew.
  revert s Ew.
  induction H as [| | | | | |r0 s1 s2 H1 _ H2 IH2]; intros t Ew;
    try discriminate.
  inversion Er; subst r0.
  destruct s1 as [|x s1]; simpl in Ew.
  - apply IH2; auto.
  - inversion Ew; subst. eauto.
Qed.

Lemma seq_cons_inv (r1 r2 : regex) (c : N) (s : jsstring) :
  lang (Seq r1 r2) (c :: s) ->
  (exists s1 s2, s = s1 ++ s2 /\ lang r1 (c :: s1) /\ lang r2 s2) \/
  (lang r1 [] /\ lang r2 (c :: s)).
Proof.
  intros H. inversion H as [| |? ? s1 s2 Ha Hb| | | |]; subst.
  destruct s1 as [|x s1]; simpl in *.
  - right. subst. auto.
  - left. match goal with E : _ :: _ = _ :: _ |- _ => inversion E; subst end.
    eauto.
Qed.

Lemma seq_cons_intro (r1 r2 : regex) (c : N) (s1 s2 : jsstring) :
  lang r1 (c :: s1) -> lang r2 s2 -> lang (Seq r1 r2) (c :: s1 ++ s2).
Proof.
  intros. change (c :: s1 ++ s2) with ((c :: s1) ++ s2). auto.
Qed.

Lemma deriv_lang (c : N) (r : regex) (s : jsstring) :
  lang (deriv c r) s <-> lang r (c :: s).
Proof.
  revert s; induction r as [| |p|r1 IH1 r2 IH2|r1 IH1 r2 IH2|r IH];
    intros s; simpl.
  - split; intros H; inversion H.
  - split; intros H; inversion H.
  - destruct (p c) eqn:E; split; intros H; inv H; auto. congruence.
  - destruct (nullable r1) eqn:En.
    + split; intros H.
      * inv H.
        -- match goal with H' : lang (Seq _ _) _ |- _ => inv H' end.
           apply seq_cons_intro; [apply IH1|]; assumption.
        -- change (c :: s) with ([] ++ c :: s).
           constructor; [apply nullable_lang | apply IH2]; assumption.
      * apply seq_cons_inv in H as [[s1 [s2 [-> [Ha Hb]]]] | [Ha Hb]].
        -- apply lang_alt_l. constructor; [apply IH1|]; assumption.
        -- apply lang_alt_r, IH2; assumption.
    + split; intros H.
      * inv H. apply seq_cons_intro; [apply IH1|]; assumption.
      * apply seq_cons_inv in H as [[s1 [s2 [-> [Ha Hb]]]] | [Ha Hb]].
        -- constructor; [apply IH1|]; assumption.
        -- apply nullable_lang in Ha. congruence.
  - split; intros H; inv H;
      solve [apply lang_alt_l, IH1; assumption
            |apply lang_alt_r, IH2; assumption].
  - split; intros H.
    + inv H. apply (lang_star_app r (c :: _)); [apply IH|]; assumption.
    + apply star_cons_inv in H as [s1 [s2 [-> [Ha Hb]]]].
      constructor; [apply IH|]; assumption.
Qed.

Theorem matches_lang (r : regex) (s : jsstring) :
  matches r s = true <-> lang r s.
Proof.
  revert r; induction s as [|c s IH]; intros r; simpl.
  - apply nullable_lang.
  - rewrite IH. apply deriv_lang.
Qed.

(** Words of [[p]*] and [[p]+]. *)
Lemma lang_star_class (p : N -> bool) (s : jsstring) :
  lang (Star (Class p)) s <-> forallb p s = true.
Proof.
  split.
  - intros H. remember (Star (Class p)) as r eqn:Er.
    induction H as [| | | | | |r0 s1 s2 H1 _ H2 IH2]; try discriminate;
      [reflexivity|].
    inversion Er; subst r0. inversion H1; subst. simpl.
    apply andb_true_iff; auto.
  - induction s as [|c s IH]; simpl; intros H; [constructor|].
    apply andb_true_iff in H as [Hc Hs].
    change (c :: s) with ([c] ++ s). constructor; auto.
Qed.

Lemma lang_plus_class (p : N -> bool) (s : jsstring) :
  lang (Plus (Class p)) s <-> s <> [] /\ forallb p s = true.
Proof.
  unfold Plus. split.
  - intros H. inv H.
    match goal with Ha : lang (Class _) _ |- _ => inv Ha end.
    match goal with Hb : lang (Star _) _ |- _ =>
      apply lang_star_class in Hb; simpl;
      split; [discriminate | apply andb_true_iff; auto] end.
  - intros [Hne H]. destruct s as [|c s]; [congruence|].
    simpl in H. apply andb_true_iff in H as [Hc Hs].
    change (c :: s) with ([c] ++ s).
    constructor; [auto | apply lang_star_class; exact Hs].
Qed.

Lemma lang_class_seq (p : N -> bool) (r : regex) (s : jsstring) :
  lang (Seq (Class p) r) s <->
  exists c t, s = c :: t /\ p c = true /\ lang r t.
Proof.
  split.
  - intros H. inv H.
    match goal with Ha : lang (Class _) _ |- _ => inv Ha end.
    simpl. eauto.
  - intros [c [t [-> [Hc Ht]]]]. change (c :: t) with ([c] ++ t). auto.
Qed.

End Regex.

Import Regex.

(* ================================================================== *)
(** * Branch display names: [formatBranchName] (lines 1047-1058) *)
(* ================================================================== *)

Definition lparen : N := N_of_ascii "("%char.
Definition rparen : N := N_of_ascii ")"%char.

(** Case folding of the [i] flag against an ASCII pattern letter.  Without
    the [u] flag [Canonicalize] is [toUpperCase], except that a non-ASCII
    code unit never folds to an ASCII one; against the letters of [branch]
    this is equality up to ASCII case. *)
Definition to_upper_ascii (c : N) : N :=
  if ((97 <=? c) && (c <=? 122))%N then (c - 32)%N else c.

Definition letter_i (p c : N) : bool :=
  N.eqb (to_upper_ascii c) (to_upper_ascii p).

Fixpoint literal_i (s : jsstring) : regex :=
  match s with
  | [] => Eps
  | p :: s' => Seq (Class (letter_i p)) (literal_i s')
  end.

Definition not_rparen (c : N) : bool := negb (N.eqb c rparen).

(** [/^branch\s*\([^)]+\)$/i] *)
Definition branch_re : regex :=
  Seq (literal_i (js "branch"))
      (Seq (Star (Class is_white_space))
           (Seq (Class (N.eqb lparen))
                (Seq (Plus (Class not_rparen))
                     (Class (N.eqb rparen))))).

(** [formatBranchName(branchName)].  The argument is [HEAD_RAW] or
    [BASE_RAW], always a string, so of the guard
    [!branchName || typeof branchName !== 'string'] only the empty-string
    case remains. *)
Definition formatBranchName (branchName : jsstring) : jsstring :=
  if is_empty branchName then branchName
  else
    let trimmed := trim branchName in
    if test branch_re trimmed then trimmed
    else js "branch (" ++ trimmed ++ js ")".

(* ================================================================== *)
(** * JSON values and the JavaScript operators applied to them *)
(* ================================================================== *)

#[warnings="-register-all"] Inductive json : Type :=
| JNull
| JBool (b : bool)
| JNum (n : Z)
| JStr (s : jsstring)
| JArr (items : list json)
| JObj (fields : list (jsstring * json)).

(** A JavaScript value read from JSON data: [None] is [undefined]. *)
Definition jsval := option json.

(** [ToBoolean] *)
Definition truthy (v : json) : bool :=
  match v with
  | JNull => false
  | JBool b => b
  | JNum n => negb (Z.eqb n 0)
  | JStr s => negb (is_empty s)
  | JArr _ | JObj _ => true
  end.

Definition truthy_val (v : jsval) : bool :=
  match v with
  | None => false
  | Some j => truthy j
  end.

(** [a || b] *)
Definition or_else (a b : jsval) : jsval := if truthy_val a then a else b.

(** [v || null], and the like, where the right operand is defined *)
Definition or_json (a : jsval) (b : json) : json :=
  match or_else a (Some b) with
  | Some j => j
  | None => b
  end.

Fixpoint assoc (k : jsstring) (fields : list (jsstring * json)) : jsval :=
  match fields with
  | [] => None
  | (k', v) :: rest => if JsString.eqb k' k then Some v else assoc k rest
  end.

(** [v.k] for the property names the server reads, on a value that is not
    [null]: an own property of an object, [undefined] on anything else
    (none of the names is a property of [Object.prototype] or of a string,
    number, boolean or array).  The fields of an object are those
    [JSON.parse] produced, one per key. *)
Definition get (k : string) (v : json) : jsval :=
  match v with
  | JObj fields => assoc (js k) fields
  | _ => None
  end.

(** [v?.k] *)
Definition get_opt (k : string) (v : jsval) : jsval :=
  match v with
  | Some j => get k j
  | None => None
  end.

(** [typeof v === 'string'], [typeof v === 'number'],
    [typeof v === 'object'] *)
Definition is_string (v : jsval) : bool :=
  match v with Some (JStr _) => true | _ => false end.

Definition is_number (v : jsval) : bool :=
  match v with Some (JNum _) => true | _ => false end.

Definition typeof_object (v : json) : bool :=
  match v with JNull | JArr _ | JObj _ => true | _ => false end.

(** [v === 'lit'] *)
Definition is_literal (lit : string) (v : jsval) : bool :=
  match v with
  | Some (JStr s) => JsString.eqb s (js lit)
  | _ => false
  end.

(** An object literal of the source; properties whose value is
    [undefined] disappear when the object is serialised. *)
Fixpoint object_of (props : list (string * jsval)) : list (jsstring * json) :=
  match props with
  | [] => []
  | (k, Some v) :: rest => (js k, v) :: object_of rest
  | (_, None) :: rest => object_of rest
  end.

Definition obj (props : list (string * jsval)) : json := JObj (object_of props).

(** Decimal rendering of an integer, as [String(n)] prints it. *)
Definition decimal (n : Z) : jsstring :=
  List.map N_of_ascii (list_ascii_of_string (NilZero.string_of_int (Z.to_int n))).

Definition join (sep : jsstring) (pieces : list jsstring) : jsstring :=
  match pieces with
  | [] => []
  | p :: rest => p ++ List.flat_map (fun q => sep ++ q) rest
  end.

(** [String(v)], the conversion a template literal or a property key
    applies, for data without a [toString] member of its own *)
Fixpoint ToString (v : json) : jsstring :=
  match v with
  | JNull => js "null"
  | JBool true => js "true"
  | JBool false => js "false"
  | JNum n => decimal n
  | JStr s => s
  | JArr items =>
      join (js ",")
           (List.map (fun item => match item with
                                  | JNull => []
                                  | _ => ToString item
                                  end) items)
  | JObj _ => js "[object Object]"
  end.

Definition ToString_val (v : jsval) : jsstring :=
  match v with
  | Some j => ToString j
  | None => js "undefined"
  end.

(* ================================================================== *)
(** * Configuration, the outside world and the state of the module *)
(* ================================================================== *)

(** The constants read from the environment at start-up (lines 999-1017). *)
Record config : Type := {
  USERNAME : jsstring;
  PASSWORD : jsstring;
  CLIENT_ID : jsstring;
  CLIENT_SECRET : jsstring;
  OWNER : jsstring;
  REPO : jsstring;
  HEAD_RAW : jsstring;
  BASE_RAW : jsstring;
  ASSIGNEES : jsstring;
  TESTERS : jsstring;
  LABELS_ENV : jsstring;
  AUTO_REVIEW : bool;
  AUTO_TEST : bool;
  AUTO_MERGE : bool;
  PROJECT_NAME : jsstring
}.

Definition SCOPE : jsstring := js "user_info pull_requests enterprises".
Definition MAX_LOGS : nat := 1000.

Definition HEAD (cfg : config) : jsstring := formatBranchName (HEAD_RAW cfg).
Definition BASE (cfg : config) : jsstring := formatBranchName (BASE_RAW cfg).

Definition in_range (lo hi : string) (c : N) : bool :=
  match js lo, js hi with
  | [l], [h] => ((l <=? c) && (c <=? h))%N
  | _, _ => false
  end.

Definition is_char (ch : string) (c : N) : bool := in_range ch ch c.

(** [REPO.replace(/[^a-zA-Z0-9_-]/g, '-')] *)
Definition REPO_NAME (cfg : config) : jsstring :=
  List.map (fun c => if in_range "a" "z" c || in_range "A" "Z" c
                        || in_range "0" "9" c || is_char "_" c || is_char "-" c
                     then c else N_of_ascii "-"%char)
           (REPO cfg).

(** ** Upstream requests *)

Inductive http_method : Type := POST | PUT.

(** The request body of [createGiteePullRequest]. *)
Record create_body : Type := {
  cb_title : jsstring;
  cb_head : jsstring;
  cb_base : jsstring;
  cb_body : json;
  cb_draft : bool;
  cb_assignees : option (list jsstring);
  cb_testers : option (list jsstring);
  cb_labels : option (list jsstring)
}.

(** The paths of the upstream API; [OWNER] and [REPO] are fixed by the
    configuration and the pull-request number is the value interpolated
    into the path. *)
Inductive endpoint : Type :=
| OAuthToken                  (* /oauth/token *)
| Pulls                       (* /repos/OWNER/REPO/pulls *)
| PullReview (prNumber : jsval)  (* .../pulls/N/review *)
| PullTest (prNumber : jsval)    (* .../pulls/N/test *)
| PullMerge (prNumber : jsval).  (* .../pulls/N/merge *)

Inductive payload : Type :=
| NoPayload
| OAuthForm (username password client_id client_secret scope : jsstring)
| CreateBody (b : create_body)
| ForceBody (force : bool).

Record http_request : Type := {
  req_method : http_method;
  req_endpoint : endpoint;
  req_access_token : jsval;
  req_payload : payload
}.

(** What comes back: the [error] event of the request, or a response with
    its status code and the concatenated body. *)
Inductive net_result : Type :=
| NetError (message : jsstring)
| NetResponse (statusCode : Z) (responseData : jsstring).

Record http_reply : Type := {
  latency : Z;
  net : net_result
}.

(** The platform the server runs on: the JSON parser (a value, or the
    message of the [SyntaxError]), the upstream service (its answer may
    depend on everything sent before) and the numeric conversion of values
    that are neither numbers, booleans nor [null] ([None] is [NaN]). *)
Record host : Type := {
  JSON_parse : jsstring -> json + jsstring;
  upstream : list http_request -> http_request -> http_reply;
  ToNumber_other : json -> option Z
}.

(** ** Values passed around *)

(** What [makeGiteeRequest] resolves with. *)
Record api_response : Type := {
  statusCode : Z;
  data : json;
  rawResponse : option jsstring
}.

(** The plain object a promise of the module is rejected with. *)
Record rejection : Type := {
  rej_statusCode : Z;
  rej_error : json;
  rej_data : jsval;
  rej_rawResponse : option jsstring
}.

(** What can be thrown: an [Error] object (also a [TypeError] or
    [RangeError] of the engine) with its message, or a rejection object. *)
Inductive thrown : Type :=
| Err (message : jsstring)
| Rejected (r : rejection).

(** [err.error || err.message] *)
Definition error_or_message (err : thrown) : jsval :=
  match err with
  | Err message => or_else None (Some (JStr message))
  | Rejected r => or_else (Some (rej_error r)) None
  end.

(** [err.statusCode] *)
Definition thrown_statusCode (err : thrown) : jsval :=
  match err with
  | Err _ => None
  | Rejected r => Some (JNum (rej_statusCode r))
  end.

(** Messages of the engine (V8 wording). *)
Definition cannot_read_null (prop : string) : jsstring :=
  js "Cannot read properties of null (reading '" ++ js prop ++ js "')".

Definition cannot_read_undefined (prop : string) : jsstring :=
  js "Cannot read properties of undefined (reading '" ++ js prop ++ js "')".

Definition not_a_function (what : string) : jsstring :=
  js what ++ js " is not a function".

(** ** The workflow and validation diagnostics written to stderr *)

Inductive step : Type := Review | Test | Merge.

Inductive console_msg : Type :=
| WarnLabelLength (label : jsstring)
| WarnLabelChars (label : jsstring)
| WarnNoValidLabels
| StepStarting (k : step) (prNumber : jsval)
| StepCompleted (k : step) (prNumber : jsval)
| StepFailed (k : step) (prNumber : jsval) (reason : jsval)
| MergeSkipped (prNumber : jsval).

(** ** Results of the tools and of the dispatcher *)

Record pr_success : Type := {
  pull_request : json;
  url : json;
  number : json;
  auto_review : option json;
  auto_test : option json;
  auto_merge : option json
}.

Record pr_failure : Type := {
  failure_reason : jsval;       (* err.error || err.message *)
  failure_statusCode : json;    (* err.statusCode || null *)
  failure_response : jsval;     (* err.data, when truthy *)
  failure_rawResponse : option jsstring
}.

(** The object [pr] returns: [success: true] with the pull request, or
    [success: false] with the error details. *)
Inductive pr_result : Type :=
| PrSuccess (r : pr_success)
| PrFailure (f : pr_failure).

Record token_result : Type := {
  access_token : jsstring;
  expires_at : Z
}.

Inductive stub : Type :=
| PromptsList | PromptsCall | ResourcesList | ResourcesRead
| LoggingList | LoggingRead | RootsList | RootsRead.

Record log_entry_of (V : Type) : Type := {
  log_id : Z;
  log_method : jsval;
  log_params : json;
  log_result : option V;
  log_error : jsval;
  log_created_at : Z
}.
Arguments log_id {V}.
Arguments log_method {V}.
Arguments log_params {V}.
Arguments log_result {V}.
Arguments log_error {V}.
Arguments log_created_at {V}.

Record logs_result (E : Type) : Type := {
  logs_total : nat;
  logs_limit : Z;
  logs_offset : Z;
  logs_page : list E
}.

(** The [result] member of a response and the values recorded in the
    operation log.  The log of the [logs] tool holds entries whose recorded
    result may itself be a page of entries, hence the mutual definition. *)
#[warnings="-register-all"] Inductive rpc_result : Type :=
| InitializeResult (protocolVersion : json)
                   (prompts resources logging roots : bool)
| ToolsListResult
| StubResult (s : stub)
| PrMessage (r : pr_success)          (* content text: the Markdown message *)
| ToolJson (v : tool_value)           (* content text: JSON of the result *)
| PongResult
with tool_value : Type :=
| PrValue (r : pr_result)
| TokenValue (r : token_result)
| LogsValue (r : logs_result (log_entry_of logged))
| OtherValue (v : jsval)
with logged : Type :=
| LogJson (j : json)
| LogApi (r : api_response)
| LogRpc (r : rpc_result).

Definition log_entry : Type := log_entry_of logged.

(** ** The state *)

Record world : Type := {
  operationLogs : list log_entry;
  log_history : list log_entry;   (* every entry ever logged, newest first *)
  cachedAccessToken : jsval;
  tokenExpiresAt : option Z;      (* [None] is [NaN] *)
  clock : Z;                      (* Date.now() *)
  requests : list http_request;   (* upstream requests sent, newest first *)
  stderr : list console_msg;      (* newest first *)
  exit_timer : bool               (* the [setTimeout] of [shutdown] is armed *)
}.

Definition set_operationLogs (w : world) (l h : list log_entry) : world :=
  {| operationLogs := l; log_history := h;
     cachedAccessToken := cachedAccessToken w;
     tokenExpiresAt := tokenExpiresAt w; clock := clock w;
     requests := requests w; stderr := stderr w; exit_timer := exit_timer w |}.

Definition set_token (w : world) (t : jsval) (e : option Z) : world :=
  {| operationLogs := operationLogs w; log_history := log_history w;
     cachedAccessToken := t; tokenExpiresAt := e; clock := clock w;
     requests := requests w; stderr := stderr w; exit_timer := exit_timer w |}.

Definition set_network (w : world) (now : Z) (rs : list http_request) : world :=
  {| operationLogs := operationLogs w; log_history := log_history w;
     cachedAccessToken := cachedAccessToken w;
     tokenExpiresAt := tokenExpiresAt w; clock := now;
     requests := rs; stderr := stderr w; exit_timer := exit_timer w |}.

Definition set_stderr (w : world) (out : list console_msg) : world :=
  {| operationLogs := operationLogs w; log_history := log_history w;
     cachedAccessToken := cachedAccessToken w;
     tokenExpiresAt := tokenExpiresAt w; clock := clock w;
     requests := requests w; stderr := out; exit_timer := exit_timer w |}.

Definition set_exit_timer (w : world) : world :=
  {| operationLogs := operationLogs w; log_history := log_history w;
     cachedAccessToken := cachedAccessToken w;
     tokenExpiresAt := tokenExpiresAt w; clock := clock w;
     requests := requests w; stderr := stderr w; exit_timer := true |}.

(** The state of a freshly loaded module (lines 994, 1020-1021). *)
Definition initial_world (now : Z) : world :=
  {| operationLogs := []; log_history := [];
     cachedAccessToken := Some JNull; tokenExpiresAt := Some 0%Z;
     clock := now; requests := []; stderr := []; exit_timer := false |}.

(** ** Computations: state, exceptions and [process.exit] *)

Inductive outcome (A : Type) : Type :=
| Ok (a : A)
| Throw (e : thrown)
| Exit (code : Z).
Arguments Ok {A}.
Arguments Throw {A}.
Arguments Exit {A}.

Definition M (S A : Type) : Type := S -> outcome A * S.

Definition ret {S A : Type} (a : A) : M S A := fun s => (Ok a, s).

Definition bind {S A B : Type} (m : M S A) (k : A -> M S B) : M S B :=
  fun s =>
    match m s with
    | (Ok a, s') => k a s'
    | (Throw e, s') => (Throw e, s')
    | (Exit c, s') => (Exit c, s')
    end.

Definition throw {S A : Type} (e : thrown) : M S A := fun s => (Throw e, s).

(** [try { m } catch (err) { handler err }]: what [m] did to the state before
    it threw stays done. *)
Definition try_catch {S A : Type} (m : M S A) (handler : thrown -> M S A)
  : M S A :=
  fun s =>
    match m s with
    | (Throw e, s') => handler e s'
    | other => other
    end.

Definition modify {S : Type} (f : S -> S) : M S unit := fun s => (Ok tt, f s).

Declare Scope js_scope.
Delimit Scope js_scope with js.
Notation "x <- m ;; k" := (bind m (fun x => k))
  (at level 61, m at next level, right associativity) : js_scope.
Notation "m ;; k" := (bind m (fun _ => k))
  (at level 61, right associativity) : js_scope.
Open Scope js_scope.

(* ================================================================== *)
(** * The module-level functions and the tools *)
(* ================================================================== *)

(** ** Label validation (lines 1438-1458) *)

(** [[a-zA-Z0-9_一-龥]] *)
Definition label_char (c : N) : bool :=
  in_range "a" "z" c || in_range "A" "Z" c || in_range "0" "9" c
  || is_char "_" c || ((0x4e00 <=? c) && (c <=? 0x9fa5))%N.

(** [/^[a-zA-Z0-9_一-龥]+$/] *)
Definition label_re : regex := Plus (Class label_char).

(** [s.split(',').map(s => s.trim()).filter(s => s !== '')] *)
Definition split_names (s : jsstring) : list jsstring :=
  List.filter (fun p => negb (JsString.eqb p []))
              (List.map trim (split (N_of_ascii ","%char) s)).

(** One turn of the [for (const label of labelArray)] loop, on the pair of
    [validLabels] and the warnings printed so far. *)
Definition check_label (acc : list jsstring * list console_msg)
                       (label : jsstring)
  : list jsstring * list console_msg :=
  let (validLabels, warnings) := acc in
  if (List.length label <? 2)%nat || (20 <? List.length label)%nat then
    (validLabels, warnings ++ [WarnLabelLength label])
  else if negb (test label_re label) then
    (validLabels, warnings ++ [WarnLabelChars label])
  else
    (validLabels ++ [label], warnings).

Definition validate_labels (labelArray : list jsstring)
  : list jsstring * list console_msg :=
  List.fold_left check_label labelArray ([], []).

(** The block [if (LABELS_ENV && LABELS_ENV.trim() !== '') { ... }]: the
    value of [requestBody.labels] ([None] when the property is not set) and
    the warnings printed. *)
Definition process_labels (labels_env : jsstring)
  : option (list jsstring) * list console_msg :=
  if negb (is_empty labels_env) && negb (JsString.eqb (trim labels_env) [])
  then
    let labelArray := split_names labels_env in
    let (validLabels, warnings) := validate_labels labelArray in
    if (0 <? List.length validLabels)%nat then (Some validLabels, warnings)
    else if (0 <? List.length labelArray)%nat
         then (None, warnings ++ [WarnNoValidLabels])
         else (None, warnings)
  else (None, []).

Section Server.

Variable cfg : config.
Variable h : host.

(** ** [logRequest] (lines 1093-1118)

    The entry keeps the values whose serialisations the source stores.  The
    append to the log file is outside the model (its failure is swallowed
    by the source); [log_history] remembers every entry passed to
    [unshift]. *)
Definition logRequest (method : jsval) (params : json)
                      (result : option logged) (error : jsval)
  : M world unit :=
  modify (fun w =>
    let logEntry :=
      {| log_id := clock w;
         log_method := method;
         log_params := params;
         log_result := result;
         log_error := if truthy_val error then error else None;
         log_created_at := clock w |} in
    let unshifted := logEntry :: operationLogs w in
    set_operationLogs w
      (if (MAX_LOGS <? List.length unshifted)%nat
       then List.firstn MAX_LOGS unshifted else unshifted)
      (logEntry :: log_history w)).

Definition console (msg : console_msg) : M world unit :=
  modify (fun w => set_stderr w (msg :: stderr w)).

Definition console_all (msgs : list console_msg) : M world unit :=
  modify (fun w => set_stderr w (List.rev msgs ++ stderr w)).

(** ** Sending a request upstream *)

Definition send (rq : http_request) : M world net_result :=
  fun w =>
    let reply := upstream h (requests w) rq in
    (Ok (net reply),
     set_network w (clock w + latency reply)%Z (rq :: requests w)).

Definition is_success (status : Z) : bool :=
  ((200 <=? status) && (status <? 300))%Z.

(** [ToNumber] *)
Definition ToNumber (v : json) : option Z :=
  match v with
  | JNum n => Some n
  | JBool b => Some (if b then 1 else 0)%Z
  | JNull => Some 0%Z
  | _ => ToNumber_other h v
  end.

Definition request_failed (message : jsstring) : thrown :=
  Rejected {| rej_statusCode := 0;
              rej_error := JStr (js "Request failed: " ++ message);
              rej_data := None; rej_rawResponse := None |}.

Definition parse_failure (status : Z) (message responseData : jsstring)
  : thrown :=
  Rejected {| rej_statusCode := status;
              rej_error := JStr (js "Failed to parse response: " ++ message);
              rej_data := None; rej_rawResponse := Some responseData |}.

(** ** [getAccessToken] (lines 1121-1219)

    The function has a synchronous half, which looks at the cache and
    either answers from it or sends the OAuth request, and a callback half,
    which runs when the response has arrived. *)

Inductive token_start : Type :=
| UseCached (token : jsval)
| Exchange (now : Z).

Definition num_gt (a : option Z) (b : Z) : bool :=
  match a with
  | Some x => (b <? x)%Z
  | None => false
  end.

Definition getAccessToken_start (w : world) : token_start :=
  let now := clock w in
  if truthy_val (cachedAccessToken w)
     && num_gt (tokenExpiresAt w) (now + 5 * 60 * 1000)%Z
  then UseCached (cachedAccessToken w)
  else Exchange now.

Definition oauth_request : http_request :=
  {| req_method := POST;
     req_endpoint := OAuthToken;
     req_access_token := None;
     req_payload := OAuthForm (USERNAME cfg) (PASSWORD cfg) (CLIENT_ID cfg)
                              (CLIENT_SECRET cfg) SCOPE |}.

(** The [end] and [error] callbacks of the OAuth request. *)
Definition getAccessToken_response (now : Z) (r : net_result)
  : M world jsval :=
  match r with
  | NetError message => throw (request_failed message)
  | NetResponse status responseData =>
      match JSON_parse h responseData with
      | inr message => throw (parse_failure status message responseData)
      | inl JNull =>
          throw (parse_failure status
                   (cannot_read_null (if is_success status
                                      then "access_token"
                                      else "error_description"))
                   responseData)
      | inl parsed =>
          if is_success status then
            let expiresIn := or_json (get "expires_in" parsed) (JNum 3600) in
            modify (fun w =>
              set_token w (get "access_token" parsed)
                (option_map (fun n => now + n * 1000)%Z (ToNumber expiresIn)))
            ;; ret (get "access_token" parsed)
          else
            throw (Rejected
              {| rej_statusCode := status;
                 rej_error :=
                   or_json (or_else (get "error_description" parsed)
                                    (get "error" parsed))
                           (JStr (js "Unknown error"));
                 rej_data := Some parsed;
                 rej_rawResponse := None |})
      end
  end.

Definition getAccessToken : M world jsval :=
  fun w =>
    match getAccessToken_start w with
    | UseCached token => (Ok token, w)
    | Exchange now =>
        (r <- send oauth_request ;; getAccessToken_response now r) w
    end.

(** ** [makeGiteeRequest] (lines 1222-1340) *)
Definition makeGiteeRequest (method : http_method) (path : endpoint)
                            (body : payload) (accessToken : jsval)
  : M world api_response :=
  token <- (if truthy_val accessToken then ret accessToken
            else getAccessToken) ;;
  r <- send {| req_method := method; req_endpoint := path;
               req_access_token := token; req_payload := body |} ;;
  match r with
  | NetError message => throw (request_failed message)
  | NetResponse status responseData =>
      let isSuccess := is_success status in
      if isSuccess
         && (is_empty responseData || JsString.eqb (trim responseData) [])
      then ret {| statusCode := status; data := JNull; rawResponse := None |}
      else
        match JSON_parse h responseData with
        | inl parsed =>
            if isSuccess then
              ret {| statusCode := status; data := parsed;
                     rawResponse := None |}
            else
              match parsed with
              | JNull =>
                  throw (parse_failure status (cannot_read_null "message")
                                       responseData)
              | _ =>
                  throw (Rejected
                    {| rej_statusCode := status;
                       rej_error :=
                         or_json
                           (or_else (or_else (get "error_description" parsed)
                                             (get "message" parsed))
                                    (get "error" parsed))
                           (JStr (js "Unknown error"));
                       rej_data := Some parsed;
                       rej_rawResponse := None |})
              end
        | inr message =>
            if isSuccess then
              ret {| statusCode := status;
                     data := or_json (Some (JStr responseData)) JNull;
                     rawResponse := Some responseData |}
            else throw (parse_failure status message responseData)
        end
  end.

(** ** The review, test and merge requests (lines 1343-1405) *)

Definition invalid_pr_number (prNumber : jsval) : bool :=
  negb (truthy_val prNumber) || negb (is_number prNumber).

Definition missing_pr_number : thrown :=
  Err (js "Missing or invalid PR number parameter").

Definition reviewGiteePullRequest (prNumber : jsval) (force : bool)
  : M world api_response :=
  if invalid_pr_number prNumber then throw missing_pr_number
  else makeGiteeRequest POST (PullReview prNumber) (ForceBody force) None.

Definition testGiteePullRequest (prNumber : jsval) (force : bool)
  : M world api_response :=
  if invalid_pr_number prNumber then throw missing_pr_number
  else makeGiteeRequest POST (PullTest prNumber) (ForceBody force) None.

Definition mergeGiteePullRequest (prNumber : jsval)
  : M world api_response :=
  if invalid_pr_number prNumber then throw missing_pr_number
  else makeGiteeRequest PUT (PullMerge prNumber) NoPayload None.

(** ** [createGiteePullRequest] (lines 1408-1487) *)

(** [!title || typeof title !== 'string' || title.trim() === ''] *)
Definition invalid_title (title : jsval) : bool :=
  negb (truthy_val title) || negb (is_string title)
  || match title with
     | Some (JStr s) => JsString.eqb (trim s) []
     | _ => false
     end.

Definition missing_title : thrown :=
  Err (js "Missing or invalid title parameter").

(** [draft === true || draft === 'true' || draft === 'false'
      ? (draft === true || draft === 'true') : false],
    after the default [draft = false] of the destructuring *)
Definition draft_flag (draft : jsval) : bool :=
  let draft := match draft with None => Some (JBool false) | v => v end in
  let is_true := match draft with
                 | Some (JBool true) => true
                 | _ => is_literal "true" draft
                 end in
  if is_true || is_literal "false" draft then is_true else false.

Definition optional_names (s : jsstring) : option (list jsstring) :=
  if negb (is_empty s) && negb (JsString.eqb (trim s) [])
  then Some (split_names s) else None.

Definition createGiteePullRequest (title body draft : jsval)
  : M world api_response :=
  if invalid_title title then throw missing_title
  else
    let (labels, warnings) := process_labels (LABELS_ENV cfg) in
    let requestBody :=
      {| cb_title := match title with
                     | Some (JStr s) => trim s
                     | _ => []
                     end;
         cb_head := HEAD_RAW cfg;
         cb_base := BASE_RAW cfg;
         cb_body := or_json body (JStr []);
         cb_draft := draft_flag draft;
         cb_assignees := optional_names (ASSIGNEES cfg);
         cb_testers := optional_names (TESTERS cfg);
         cb_labels := labels |} in
    console_all warnings ;;
    makeGiteeRequest POST Pulls (CreateBody requestBody) None.

(** ** The [pr] tool (lines 1525-1651) *)

Definition step_name (k : step) : jsval :=
  Some (JStr (js match k with
                 | Review => "auto_review"
                 | Test => "auto_test"
                 | Merge => "auto_merge"
                 end)).

(** The [try { ... } catch { ... }] around each of the three automatic
    steps: announce, call, report and log; a failure is reported and
    logged, and the result variable keeps its [null]. *)
Definition attempt (k : step) (prNumber : jsval) (params : json)
                   (call : M world api_response)
  : M world (option api_response) :=
  try_catch
    (console (StepStarting k prNumber) ;;
     r <- call ;;
     console (StepCompleted k prNumber) ;;
     logRequest (step_name k) params (Some (LogApi r)) None ;;
     ret (Some r))
    (fun err =>
       console (StepFailed k prNumber (error_or_message err)) ;;
       logRequest (step_name k) params None (error_or_message err) ;;
       ret None).

(** [result.data && result.data.number] *)
Definition has_pr_number (result : api_response) : bool :=
  truthy (data result) && truthy_val (get "number" (data result)).

Definition step_params (result : api_response) (with_force : bool) : json :=
  obj (("prNumber", get "number" (data result))
       :: if with_force then [("force", Some (JBool false))] else []).

Definition auto_review_step (result : api_response)
  : M world (option api_response) :=
  if AUTO_REVIEW cfg && has_pr_number result then
    attempt Review (get "number" (data result)) (step_params result true)
            (reviewGiteePullRequest (get "number" (data result)) false)
  else ret None.

Definition auto_test_step (result : api_response)
  : M world (option api_response) :=
  if AUTO_TEST cfg && has_pr_number result then
    attempt Test (get "number" (data result)) (step_params result true)
            (testGiteePullRequest (get "number" (data result)) false)
  else ret None.

Definition is_some {A : Type} (o : option A) : bool :=
  match o with Some _ => true | None => false end.

Definition auto_merge_step (result : api_response)
                           (testResult : option api_response)
  : M world (option api_response) :=
  if AUTO_MERGE cfg && has_pr_number result then
    let shouldMerge := negb (AUTO_TEST cfg) || is_some testResult in
    if shouldMerge then
      attempt Merge (get "number" (data result)) (step_params result false)
              (mergeGiteePullRequest (get "number" (data result)))
    else
      console (MergeSkipped (get "number" (data result))) ;; ret None
  else ret None.

(** The object built at lines 1587-1621; reading [result.data.html_url]
    throws when [result.data] is [null]. *)
Definition build_response (result : api_response)
                          (reviewResult testResult mergeResult
                             : option api_response)
  : M world pr_result :=
  match data result with
  | JNull => throw (Err (cannot_read_null "html_url"))
  | d =>
      ret (PrSuccess
             {| pull_request := d;
                url := or_json (or_else (get "html_url" d) (get "url" d)) JNull;
                number := or_json (get "number" d) JNull;
                auto_review := option_map data reviewResult;
                auto_test := option_map data testResult;
                auto_merge := option_map data mergeResult |})
  end.

(** The object built in the [catch] at lines 1624-1650. *)
Definition error_result (err : thrown) : pr_failure :=
  {| failure_reason := error_or_message err;
     failure_statusCode := or_json (thrown_statusCode err) JNull;
     failure_response :=
       match err with
       | Rejected r => if truthy_val (rej_data r) then rej_data r else None
       | Err _ => None
       end;
     failure_rawResponse :=
       match err with
       | Rejected r =>
           match rej_rawResponse r with
           | Some raw => if is_empty raw then None else Some raw
           | None => None
           end
       | Err _ => None
       end |}.

Definition pr_params (params : json) : json :=
  obj [("title", get "title" params); ("body", get "body" params);
       ("draft", get "draft" params)].

Definition pr (params : json) : M world pr_result :=
  let title := get "title" params in
  let body := get "body" params in
  let draft := get "draft" params in
  try_catch
    (result <- createGiteePullRequest title body draft ;;
     logRequest (Some (JStr (js "pr"))) (pr_params params)
                (Some (LogApi result)) None ;;
     reviewResult <- auto_review_step result ;;
     testResult <- auto_test_step result ;;
     mergeResult <- auto_merge_step result testResult ;;
     build_response result reviewResult testResult mergeResult)
    (fun err =>
       logRequest (Some (JStr (js "pr"))) (pr_params params) None
                  (error_or_message err) ;;
       ret (PrFailure (error_result err))).

(** ** The [token] tool (lines 1654-1673) *)

(** [new Date(t).toISOString()] throws a [RangeError] outside the range of
    a time value. *)
Definition valid_time (t : option Z) : bool :=
  match t with
  | Some x => ((-8640000000000000 <=? x) && (x <=? 8640000000000000))%Z
  | None => false
  end.

Definition token_failed (err : thrown) : thrown :=
  Err (js "Failed to get access token: "
       ++ ToString_val (error_or_message err)
       ++ (if truthy_val (thrown_statusCode err)
           then js " (Status: " ++ ToString_val (thrown_statusCode err)
                ++ js ")"
           else [])).

Definition token (params : json) : M world token_result :=
  try_catch
    (t <- getAccessToken ;;
     match t with
     | Some (JStr s) =>
         logRequest (Some (JStr (js "token"))) (obj [])
           (Some (LogJson (obj [("success", Some (JBool true));
                                ("token", Some (JStr (List.firstn 10 s
                                                      ++ js "...")))])))
           None ;;
         (fun w =>
            match tokenExpiresAt w with
            | Some e =>
                if valid_time (Some e)
                then (Ok {| access_token := s; expires_at := e |}, w)
                else (Throw (Err (js "Invalid time value")), w)
            | None => (Throw (Err (js "Invalid time value")), w)
            end)
     | Some JNull => throw (Err (cannot_read_null "substring"))
     | None => throw (Err (cannot_read_undefined "substring"))
     | Some _ => throw (Err (not_a_function "token.substring"))
     end)
    (fun err =>
       logRequest (Some (JStr (js "token"))) (obj []) None
                  (error_or_message err) ;;
       throw (token_failed err)).

(** ** The [logs] tool (lines 1676-1697) *)

Definition invalid_limit : thrown :=
  Err (js "Invalid limit parameter. Must be a number between 1 and 1000").

Definition invalid_offset : thrown :=
  Err (js "Invalid offset parameter. Must be a non-negative number").

Definition default_to (d : Z) (v : jsval) : jsval :=
  match v with None => Some (JNum d) | _ => v end.

Definition logs (params : json) : M world (logs_result log_entry) :=
  let limit := default_to 50 (get "limit" params) in
  let offset := default_to 0 (get "offset" params) in
  match limit with
  | Some (JNum l) =>
      if ((l <? 1) || (1000 <? l))%Z then throw invalid_limit
      else
        match offset with
        | Some (JNum o) =>
            if (o <? 0)%Z then throw invalid_offset
            else fun w =>
              (Ok {| logs_total := List.length (operationLogs w);
                     logs_limit := l;
                     logs_offset := o;
                     logs_page := List.firstn (Z.to_nat l)
                                    (List.skipn (Z.to_nat o)
                                                (operationLogs w)) |}, w)
        | _ => throw invalid_offset
        end
  | _ => throw invalid_limit
  end.

End Server.

(* ================================================================== *)
(** * The dispatcher: [FinalMCPServer.handleRequest] (lines 1700-2073) *)
(* ================================================================== *)

(** The mutable field of the server object together with the state of the
    module. *)
Record session : Type := {
  initialized : bool;
  globals : world
}.

(** A freshly constructed server (lines 1518-1522). *)
Definition new_session (w : world) : session :=
  {| initialized := false; globals := w |}.

Definition lift {A : Type} (m : M world A) : M session A :=
  fun s =>
    let (r, w') := m (globals s) in
    (r, {| initialized := initialized s; globals := w' |}).

(** A response, with [null] for an absent result. *)
Inductive envelope : Type :=
| Response (id : json) (result : option rpc_result)
| ErrorResponse (id : json) (code : Z) (message : jsstring).

(** What [this[key]] finds on the server object: one of the three tools,
    an own data property, another member ([handleRequest], [start], the
    constructor and what [Object.prototype] provides), or nothing. *)
Inductive member : Type :=
| ToolPr
| ToolToken
| ToolLogs
| OwnName
| OwnVersion
| OwnInitialized
| OtherMember (key : jsstring)
| Absent.

Definition other_members : list string :=
  ["constructor"; "handleRequest"; "start";
   "__defineGetter__"; "__defineSetter__"; "hasOwnProperty";
   "__lookupGetter__"; "__lookupSetter__"; "isPrototypeOf";
   "propertyIsEnumerable"; "toString"; "valueOf"; "__proto__";
   "toLocaleString"].

Definition lookup_member (key : jsstring) : member :=
  if JsString.eqb key (js "pr") then ToolPr
  else if JsString.eqb key (js "token") then ToolToken
  else if JsString.eqb key (js "logs") then ToolLogs
  else if JsString.eqb key (js "name") then OwnName
  else if JsString.eqb key (js "version") then OwnVersion
  else if JsString.eqb key (js "initialized") then OwnInitialized
  else if List.existsb (fun m => JsString.eqb key (js m)) other_members
       then OtherMember key
  else Absent.

(** What a call of one of the other members does when it is reached through
    [tools/call]: it returns a value or throws an [Error]. *)
Inductive member_call : Type :=
| Returned (v : jsval)
| Raised (message : jsstring).

Definition quote : jsstring := [34%N].

Section Dispatcher.

Variable cfg : config.
Variable h : host.

(** The effect of calling another member of the server object as a tool is
    a parameter of the model. *)
Variable call_member : jsstring -> json -> session -> member_call * session.

Definition set_initialized : M session unit :=
  modify (fun s => {| initialized := true; globals := globals s |}).

Definition arm_exit_timer : M session unit :=
  modify (fun s => {| initialized := initialized s;
                      globals := set_exit_timer (globals s) |}).

Definition log (method : jsval) (params : json) (result : option logged)
               (error : jsval) : M session unit :=
  lift (logRequest method params result error).

(** [params || {}] *)
Definition safe (params : jsval) : json := or_json params (JObj []).

Definition unknown_tool_message (name actualMethodName : json) : jsstring :=
  js "Unknown tool: " ++ ToString name
  ++ js ". PROJECT_NAME=" ++ quote ++ PROJECT_NAME cfg ++ quote
  ++ js ", actualMethodName=" ++ quote ++ ToString actualMethodName
  ++ quote ++ js ". Available methods: pr, token, logs".

Definition unknown_tool (name actualMethodName : json) : thrown :=
  Err (unknown_tool_message name actualMethodName).

(** Lines 1956-1959: the tool name without the [REPO_NAME_] prefix; [None]
    when [name.startsWith] is not a function. *)
Definition actual_method_name (name : json) : option json :=
  if is_empty (REPO_NAME cfg) then Some name
  else match name with
       | JStr s =>
           if startsWith s (REPO_NAME cfg ++ js "_")
           then Some (JStr (substring_from
                              (List.length (REPO_NAME cfg) + 1) s))
           else Some name
       | _ => None
       end.

(** The member of the server object a [tools/call] reaches, if the call
    gets as far as looking one up. *)
Definition tool_member (params : jsval) : option member :=
  match get "name" (safe params) with
  | Some name =>
      if truthy name
      then option_map (fun a => lookup_member (ToString a))
                      (actual_method_name name)
      else None
  | None => None
  end.

(** The branch [method === 'tools/call'] (lines 1947-1992). *)
Definition tools_call (params : jsval) : M session (option rpc_result) :=
  let name := get "name" (safe params) in
  let args := get "arguments" (safe params) in
  match name with
  | None => throw (Err (js "Missing tool name"))
  | Some name =>
      if negb (truthy name) then throw (Err (js "Missing tool name"))
      else
        match actual_method_name name with
        | None => throw (Err (not_a_function "name.startsWith"))
        | Some actualMethodName =>
            let not_callable : M session (option rpc_result) :=
              throw (Err (not_a_function "this[actualMethodName]")) in
            let json_text (v : tool_value) : M session (option rpc_result) :=
              ret (Some (ToolJson v)) in
            match lookup_member (ToString actualMethodName) with
            | Absent => throw (unknown_tool name actualMethodName)
            | OwnInitialized =>
                fun s =>
                  if initialized s then not_callable s
                  else (Throw (unknown_tool name actualMethodName), s)
            | OwnName | OwnVersion => not_callable
            | ToolPr =>
                toolResult <- lift (pr cfg h (safe args)) ;;
                match toolResult with
                | PrSuccess r =>
                    if is_literal "pr" (Some actualMethodName)
                    then ret (Some (PrMessage r))
                    else json_text (PrValue toolResult)
                | PrFailure _ => json_text (PrValue toolResult)
                end
            | ToolToken =>
                toolResult <- lift (token cfg h (safe args)) ;;
                json_text (TokenValue toolResult)
            | ToolLogs =>
                toolResult <- lift (logs (safe args)) ;;
                json_text (LogsValue toolResult)
            | OtherMember key =>
                fun s =>
                  match call_member key (safe args) s with
                  | (Returned v, s') => json_text (OtherValue v) s'
                  | (Raised message, s') => (Throw (Err message), s')
                  end
            end
        end
  end.

Definition stub_of (method : jsval) : option stub :=
  if is_literal "prompts/list" method then Some PromptsList
  else if is_literal "prompts/call" method then Some PromptsCall
  else if is_literal "resources/list" method then Some ResourcesList
  else if is_literal "resources/read" method then Some ResourcesRead
  else if is_literal "logging/list" method then Some LoggingList
  else if is_literal "logging/read" method then Some LoggingRead
  else if is_literal "roots/list" method then Some RootsList
  else if is_literal "roots/read" method then Some RootsRead
  else None.

(** The chain of [if (method === ...)] (lines 1729-2012); the value is the
    variable [result] at the end of the [try] block. *)
Definition dispatch (method params : jsval) : M session (option rpc_result) :=
  if is_literal "initialize" method then
    set_initialized ;;
    let capability (k : string) : bool :=
      truthy_val (get_opt k (get_opt "capabilities" params)) in
    ret (Some (InitializeResult
                 (or_json (get_opt "protocolVersion" params)
                          (JStr (js "2025-06-18")))
                 (capability "prompts") (capability "resources")
                 (capability "logging") (capability "roots")))
  else if is_literal "tools/list" method then ret (Some ToolsListResult)
  else match stub_of method with
  | Some s => ret (Some (StubResult s))
  | None =>
  if is_literal "tools/call" method then tools_call params
  else if is_literal "ping" method then
    log (Some (JStr (js "ping"))) (obj [])
        (Some (LogJson (obj [("status", Some (JStr (js "pong")))]))) None ;;
    ret (Some PongResult)
  else if is_literal "shutdown" method then
    arm_exit_timer ;; ret None
  else if is_literal "notifications/initialized" method then
    log (Some (JStr (js "notifications/initialized"))) (obj [])
        (Some (LogJson (obj [("status", Some (JStr (js "initialized")))])))
        None ;;
    ret None
  else if is_literal "notifications/exit" method then
    fun s => (Exit 0, s)
  else throw (Err (js "Unknown method: " ++ ToString_val method))
  end.

(** The validation at the head of the [try] block (lines 1708-1726). *)
Definition is_request_object (request : json) : bool :=
  truthy request && typeof_object request.

Definition has_version (request : json) : bool :=
  is_literal "2.0" (get "jsonrpc" request).

Definition try_block (request : json) : M session (option rpc_result) :=
  if negb (is_request_object request) then
    throw (Err (js "Invalid request: request must be an object"))
  else if negb (has_version request) then
    throw (Err (js "Unsupported JSON-RPC version. Only 2.0 is supported."))
  else
    let method := get "method" request in
    if negb (truthy_val method) || negb (is_string method) then
      throw (Err (js "Invalid request: method is required and must be a string"))
    else dispatch method (get "params" request).

(** The error code chosen in the [catch] block (lines 2026-2035). *)
Definition error_code (message : jsstring) : Z :=
  if includes message (js "Server not initialized") then (-32002)%Z
  else if includes message (js "Unknown method") then (-32601)%Z
  else if includes message (js "Unsupported JSON-RPC version") then (-32600)%Z
  else (-32603)%Z.

Definition is_notification (method : jsval) : bool :=
  is_literal "notifications/initialized" method
  || is_literal "notifications/exit" method.

(** [id !== undefined ? id : null] *)
Definition id_or_null (id : jsval) : json :=
  match id with
  | Some j => j
  | None => JNull
  end.

Definition handleRequest (request : json) : M session (option envelope) :=
  (* [method], [params] and [id] are [null] until the version check has
     passed and the request's members from then on *)
  let extracted := is_request_object request && has_version request in
  let method := if extracted then get "method" request else Some JNull in
  let params := if extracted then get "params" request else Some JNull in
  let id := if extracted then get "id" request else Some JNull in
  fun s =>
    match try_block request s with
    | (Ok result, s1) =>
        (* finally, with [error] still [null] *)
        (log method (safe params) (option_map LogRpc result) None ;;
         if is_notification method then ret None
         else if is_literal "shutdown" method
              then ret (Some (Response (id_or_null id) None))
              else ret (Some (Response (id_or_null id) result))) s1
    | (Throw (Err message), s1) =>
        (* catch, then finally *)
        (log method (safe params) None (Some (JStr message)) ;;
         (if is_empty message
          then log method (safe params) None None else ret tt) ;;
         if is_notification method then ret None
         else ret (Some (ErrorResponse (id_or_null id) (error_code message)
                                       message))) s1
    | (Throw (Rejected r), s1) =>
        (* [err.message] is [undefined]: the [catch] block logs and, unless
           the method is a notification, throws on [err.message.includes];
           the [finally] block, finding [error] falsy, logs again *)
        (log method (safe params) None None ;;
         log method (safe params) None None ;;
         if is_notification method then ret None
         else throw (Err (cannot_read_undefined "includes"))) s1
    | (Exit code, s1) => (Exit code, s1)
    end.

End Dispatcher.

(* ================================================================== *)
(** * Interleaved calls of [getAccessToken]

    The stdin handler is [async]: while one line's handler awaits the
    network, the handler of a later chunk may start.  On the event loop a
    call of [getAccessToken] runs its synchronous half (the look at the
    cache and, if need be, the sending of the OAuth request) in one turn,
    and the callback of the response runs in a later turn; other calls may
    start in between. *)
(* ================================================================== *)

Module TokenRace.

Inductive event : Type :=
| Call                                (* a caller invokes getAccessToken() *)
| Respond (i : nat) (r : net_result)  (* the i-th exchange in flight is answered *)
| Tick (dt : Z).                      (* time passes *)

Record state : Type := {
  st_world : world;
  st_in_flight : list Z;            (* [now] of each open exchange, oldest first *)
  st_settled : list (outcome jsval) (* promises settled so far, newest first *)
}.

Fixpoint remove_nth {A : Type} (i : nat) (l : list A) : list A :=
  match i, l with
  | _, [] => []
  | O, _ :: l' => l'
  | S i', x :: l' => x :: remove_nth i' l'
  end.

Section Run.

Variable cfg : config.
Variable h : host.

Definition turn (s : state) (ev : event) : state :=
  let w := st_world s in
  match ev with
  | Call =>
      match getAccessToken_start w with
      | UseCached token =>
          {| st_world := w; st_in_flight := st_in_flight s;
             st_settled := Ok token :: st_settled s |}
      | Exchange now =>
          {| st_world := set_network w (clock w) (oauth_request cfg :: requests w);
             st_in_flight := st_in_flight s ++ [now];
             st_settled := st_settled s |}
      end
  | Respond i r =>
      match List.nth_error (st_in_flight s) i with
      | Some now =>
          let (o, w') := getAccessToken_response h now r w in
          {| st_world := w'; st_in_flight := remove_nth i (st_in_flight s);
             st_settled := o :: st_settled s |}
      | None => s
      end
  | Tick dt =>
      {| st_world := set_network w (clock w + dt)%Z (requests w);
         st_in_flight := st_in_flight s; st_settled := st_settled s |}
  end.

Definition run (s : state) (evs : list event) : state :=
  List.fold_left turn evs s.

End Run.

Definition idle (w : world) : state :=
  {| st_world := w; st_in_flight := []; st_settled := [] |}.

(** The OAuth exchanges among the requests sent. *)
Definition is_exchange (rq : http_request) : bool :=
  match req_endpoint rq with OAuthToken => true | _ => false end.

Definition exchanges (w : world) : nat :=
  List.length (List.filter is_exchange (requests w)).

End TokenRace.

(* ================================================================== *)
(** * Start-up and the stdin loop

    What the module does when it is loaded (the constants read from the
    environment and their validation, lines 999-1043), the log
    configuration (lines 1068-1082), [FinalMCPServer.start] with its
    handler of stdin chunks (lines 2076-2171). *)
(* ================================================================== *)

Module Startup.

(** ** The environment *)

(** [process.env]: a variable is set to a string, or it is not set. *)
Definition environment : Type := string -> option jsstring.

(** [process.env.k || ''] *)
Definition env_or_empty (env : environment) (k : string) : jsstring :=
  match env k with
  | Some v => v
  | None => []
  end.

(** [process.env.k === 'true' || process.env.k === '1'] *)
Definition env_flag (env : environment) (k : string) : bool :=
  match env k with
  | Some v => JsString.eqb v (js "true") || JsString.eqb v (js "1")
  | None => false
  end.

(** Lines 999-1017. *)
Definition config_of_env (env : environment) : config :=
  {| USERNAME := trim (env_or_empty env "scope_username");
     PASSWORD := trim (env_or_empty env "scope_password");
     CLIENT_ID := trim (env_or_empty env "scope_client_id");
     CLIENT_SECRET := trim (env_or_empty env "scope_client_secret");
     OWNER := env_or_empty env "owner";
     REPO := env_or_empty env "repo";
     HEAD_RAW := env_or_empty env "head";
     BASE_RAW := env_or_empty env "base";
     ASSIGNEES := env_or_empty env "assignees";
     TESTERS := env_or_empty env "testers";
     LABELS_ENV := trim (env_or_empty env "labels");
     AUTO_REVIEW := env_flag env "AUTO_REVIEW";
     AUTO_TEST := env_flag env "AUTO_TEST";
     AUTO_MERGE := env_flag env "AUTO_MERGE";
     PROJECT_NAME := env_or_empty env "PROJECT_NAME" |}.

(** The [key]s of [requiredEnvVars]; each [name] is its [key]. *)
Definition requiredEnvVars : list string :=
  ["scope_username"; "scope_password"; "scope_client_id";
   "scope_client_secret"; "owner"; "repo"; "head"; "base"].

(** [!process.env[key] || process.env[key].trim() === ''] *)
Definition is_missing (env : environment) (key : string) : bool :=
  match env key with
  | None => true
  | Some v => is_empty v || JsString.eqb (trim v) []
  end.

Definition missingEnvVars (env : environment) : list string :=
  List.filter (is_missing env) requiredEnvVars.

(** [name.toUpperCase()], for the ASCII names of the variables *)
Definition toUpperCase (name : jsstring) : jsstring :=
  List.map to_upper_ascii name.

Inductive load_msg : Type :=
| MissingHeader                      (* ERROR: Required environment ... *)
| MissingVariable (name : jsstring)  (*   - NAME *)
| MissingFooter.                     (* Please set all required ... *)

(** Loading the module, up to line 1043: what is printed about missing
    variables, and the configuration the rest of the module works with, or
    [process.exit(1)].  (The banner printed after that is not part of the
    model.) *)
Definition load_module (env : environment) : list load_msg * outcome config :=
  let missing := missingEnvVars env in
  if (0 <? List.length missing)%nat then
    ([MissingHeader]
     ++ List.map (fun name => MissingVariable (toUpperCase (js name))) missing
     ++ [MissingFooter],
     Exit 1)
  else ([], Ok (config_of_env env)).

(** ** [getLogConfig] (lines 1068-1082) *)

Record log_config : Type := {
  dir : jsstring;
  file : jsstring;
  fullPath : jsstring
}.

Section LogConfig.

Variable env : environment.
(** [path.join] *)
Variable path_join : jsstring -> jsstring -> jsstring.
Variable cfg : config.

(** [process.env.k || d] *)
Definition env_or (k : string) (d : jsstring) : jsstring :=
  match env k with
  | Some v => if is_empty v then d else v
  | None => d
  end.

Definition getLogConfig : log_config :=
  let defaultLogDir :=
    if is_empty (REPO_NAME cfg) then js "./.setting"
    else js "./.setting." ++ REPO_NAME cfg in
  let logDir := env_or "MCP_LOG_DIR" defaultLogDir in
  let logFile := env_or "MCP_LOG_FILE" (js "mcp-gitee-pr.log") in
  {| dir := logDir; file := logFile; fullPath := path_join logDir logFile |}.

End LogConfig.

(** ** The process: the server object, stdout and the diagnostics of
    [start] and of the stdin handler on stderr *)

Inductive start_msg : Type :=
| ServerStarted                    (* MCP Gitee Pull Request server started *)
| LogDirectoryIs (d : jsstring)
| LogFileIs (path : jsstring)
| PrefetchingToken
| TokenObtained (shown : jsstring) (* the first ten code units *)
| TokenExpiresAt (t : Z)
| TokenFailed (reason : jsval)     (* err.error || err.message *)
| TokenWarningContinue
| TokenWarningCredentials
| ErrorProcessingRequest (message : jsval)
| ErrorProcessingData (message : jsval).

Record process : Type := {
  server : session;
  stdout : list envelope;        (* responses written, newest first *)
  diagnostics : list start_msg   (* newest first *)
}.

Definition new_process (w : world) : process :=
  {| server := new_session w; stdout := []; diagnostics := [] |}.

Definition in_server {A : Type} (m : M session A) : M process A :=
  fun p =>
    let (r, s') := m (server p) in
    (r, {| server := s'; stdout := stdout p; diagnostics := diagnostics p |}).

(** [console.error(...)] *)
Definition report (msg : start_msg) : M process unit :=
  modify (fun p => {| server := server p; stdout := stdout p;
                      diagnostics := msg :: diagnostics p |}).

(** [console.log(JSON.stringify(response))] *)
Definition print (response : envelope) : M process unit :=
  modify (fun p => {| server := server p; stdout := response :: stdout p;
                      diagnostics := diagnostics p |}).

(** [err.message]: the message of an [Error], [undefined] on a rejection
    object. *)
Definition message_of (err : thrown) : jsval :=
  match err with
  | Err message => Some (JStr message)
  | Rejected _ => None
  end.

Definition newline : N := 10%N.

Section Start.

Variable cfg : config.
Variable h : host.
Variable call_member : jsstring -> json -> session -> member_call * session.
Variable logConfig : log_config.

(** Lines 2086-2094: the token is fetched once to check the credentials;
    whatever goes wrong is reported and swallowed. *)
Definition prefetch : M process unit :=
  try_catch
    (token <- in_server (lift (getAccessToken cfg h)) ;;
     match token with
     | Some (JStr s) =>
         report (TokenObtained (List.firstn 10 s)) ;;
         (fun p =>
            match tokenExpiresAt (globals (server p)) with
            | Some e =>
                if valid_time (Some e) then report (TokenExpiresAt e) p
                else (Throw (Err (js "Invalid time value")), p)
            | None => (Throw (Err (js "Invalid time value")), p)
            end)
     | Some JNull => throw (Err (cannot_read_null "substring"))
     | None => throw (Err (cannot_read_undefined "substring"))
     | Some _ => throw (Err (not_a_function "token.substring"))
     end)
    (fun err =>
       report (TokenFailed (error_or_message err)) ;;
       report TokenWarningContinue ;;
       report TokenWarningCredentials).

(** One line of a chunk (lines 2105-2128).  [request] is declared inside
    the [try] block, so the [catch] block, which reads it at line 2115,
    throws a [ReferenceError] whenever it is entered. *)
Definition handle_line (line : jsstring) : M process unit :=
  try_catch
    (request <- (match JSON_parse h line with
                 | inl v => ret v
                 | inr message => throw (Err message)
                 end) ;;
     response <- in_server (handleRequest cfg h call_member request) ;;
     match response with
     | Some r => print r
     | None => ret tt
     end)
    (fun requestError =>
       report (ErrorProcessingRequest (message_of requestError)) ;;
       throw (Err (js "request is not defined"))).

(** The [for (const line of lines)] loop. *)
Fixpoint handle_lines (lines : list jsstring) : M process unit :=
  match lines with
  | [] => ret tt
  | line :: rest =>
      (if is_empty (trim line) then ret tt else handle_line line) ;;
      handle_lines rest
  end.

(** The body of the handler, given the lines of the chunk. *)
Definition handle_chunk (lines : list jsstring) : M process unit :=
  try_catch (handle_lines lines)
    (fun error =>
       report (ErrorProcessingData (message_of error)) ;;
       in_server
         (log (Some (JStr (js "data_processing_error")))
              (obj [("error", message_of error)]) None (message_of error))).

(** The handler of [process.stdin.on('data', ...)] (lines 2099-2136). *)
Definition on_data (data : jsstring) : M process unit :=
  handle_chunk (split newline (trim data)).

(** [start()] up to the point where it returns; from then on the process
    reacts to stdin chunks with [on_data]. *)
Definition start : M process unit :=
  report ServerStarted ;;
  report (LogDirectoryIs (dir logConfig)) ;;
  report (LogFileIs (fullPath logConfig)) ;;
  report PrefetchingToken ;;
  prefetch ;;
  in_server
    (log (Some (JStr (js "server_start")))
         (obj [("name", Some (JStr (js "gitee-pull-request-mcp-server")));
               ("version", Some (JStr (js "1.0.4")));
               ("logDir", Some (JStr (dir logConfig)));
               ("logFile", Some (JStr (fullPath logConfig)))])
         (Some (LogJson (obj [("status", Some (JStr (js "started")))])))
         None).

End Start.

End Startup.

(* ================================================================== *)
(** * Concrete hosts and configurations for the examples *)
(* ================================================================== *)

Module Fixture.

(** A stand-in for [JSON.parse], given by a table from response texts to
    the values they denote; any other text is a syntax error. *)
Definition table_parse (table : list (jsstring * json)) (text : jsstring)
  : json + jsstring :=
  match assoc text table with
  | Some j => inl j
  | None => inr (js "Unexpected token")
  end.

Definition responses : list (jsstring * json) :=
  [ (js "TOKEN", obj [("access_token", Some (JStr (js "tok-1234567890")));
                      ("expires_in", Some (JNum 7200))]);
    (js "TOKEN-NO-LIFETIME",
       obj [("access_token", Some (JStr (js "tok-1234567890")))]);
    (js "TOKEN-ZERO-LIFETIME",
       obj [("access_token", Some (JStr (js "tok-1234567890")));
            ("expires_in", Some (JNum 0))]);
    (js "PR", obj [("number", Some (JNum 7));
                   ("html_url", Some (JStr (js "https://gitee.com/o/r/pulls/7")))]);
    (js "DONE", obj [("ok", Some (JBool true))]);
    (js "DENIED", obj [("message", Some (JStr (js "not allowed")))]) ].

(** An upstream that answers by endpoint, after 100 ms. *)
Definition answering (answer : endpoint -> net_result)
  : list http_request -> http_request -> http_reply :=
  fun _ rq => {| latency := 100; net := answer (req_endpoint rq) |}.

Definition host_of (answer : endpoint -> net_result) : host :=
  {| JSON_parse := table_parse responses;
     upstream := answering answer;
     ToNumber_other := fun _ => None |}.

Definition config_of (auto_review auto_test auto_merge : bool) : config :=
  {| USERNAME := js "dev@example.com"; PASSWORD := js "secret";
     CLIENT_ID := js "client"; CLIENT_SECRET := js "client-secret";
     OWNER := js "acme"; REPO := js "widgets";
     HEAD_RAW := js "dev"; BASE_RAW := js "main";
     ASSIGNEES := []; TESTERS := [];
     LABELS_ENV := js "bug,performance,x,ab,toolongtoolongtoolongtoolong";
     AUTO_REVIEW := auto_review; AUTO_TEST := auto_test;
     AUTO_MERGE := auto_merge;
     PROJECT_NAME := [] |}.

(** Everything succeeds; review, test and merge answer with an empty body. *)
Definition all_fine (e : endpoint) : net_result :=
  match e with
  | OAuthToken => NetResponse 200 (js "TOKEN")
  | Pulls => NetResponse 201 (js "PR")
  | _ => NetResponse 204 []
  end.

(** The test request is refused. *)
Definition test_refused (e : endpoint) : net_result :=
  match e with
  | PullTest _ => NetResponse 403 (js "DENIED")
  | _ => all_fine e
  end.

(** The review request is refused. *)
Definition review_refused (e : endpoint) : net_result :=
  match e with
  | PullReview _ => NetResponse 403 (js "DENIED")
  | _ => all_fine e
  end.

(** The pull request is created but the answer has no body. *)
Definition created_without_body (e : endpoint) : net_result :=
  match e with
  | Pulls => NetResponse 201 []
  | _ => all_fine e
  end.

Definition zero_lifetime (e : endpoint) : net_result :=
  match e with
  | OAuthToken => NetResponse 200 (js "TOKEN-ZERO-LIFETIME")
  | _ => all_fine e
  end.

Definition no_lifetime (e : endpoint) : net_result :=
  match e with
  | OAuthToken => NetResponse 200 (js "TOKEN-NO-LIFETIME")
  | _ => all_fine e
  end.

Definition titled (title : string) : json :=
  obj [("title", Some (JStr (js title)))].

(** Calls of other members of the server object are not exercised. *)
Definition no_member_calls (key : jsstring) (args : json) (s : session)
  : member_call * session :=
  (Raised (not_a_function "this[actualMethodName]"), s).

Definition request_of (id : Z) (method : string) (params : jsval) : json :=
  obj [("jsonrpc", Some (JStr (js "2.0"))); ("id", Some (JNum id));
       ("method", Some (JStr (js method))); ("params", params)].

End Fixture.

(* ================================================================== *)
(** * Facts about the computations *)
(* ================================================================== *)

(** Only [notifications/exit] ends the process: the module-level functions
    and the tools return or throw. *)
Definition no_exit {S A : Type} (m : M S A) : Prop :=
  forall s, match fst (m s) with Exit _ => False | _ => True end.

Section NoExit.

Context {S : Type}.

Lemma no_exit_ret {A : Type} (a : A) : no_exit (@ret S A a).
Proof. intros s; exact I. Qed.

Lemma no_exit_throw {A : Type} (e : thrown) : no_exit (@throw S A e).
Proof. intros s; exact I. Qed.

Lemma no_exit_modify (f : S -> S) : no_exit (modify f).
Proof. intros s; exact I. Qed.

Lemma no_exit_bind {A B : Type} (m : M S A) (k : A -> M S B) :
  no_exit m -> (forall a, no_exit (k a)) -> no_exit (bind m k).
Proof.
  intros Hm Hk s. unfold bind. specialize (Hm s).
  destruct (m s) as [[a|e|c] s']; simpl in *; auto. apply Hk.
Qed.

Lemma no_exit_try_catch {A : Type} (m : M S A) (handler : thrown -> M S A) :
  no_exit m -> (forall e, no_exit (handler e)) -> no_exit (try_catch m handler).
Proof.
  intros Hm Hh s. unfold try_catch. specialize (Hm s).
  destruct (m s) as [[a|e|c] s']; simpl in *; auto. apply Hh.
Qed.

Lemma bind_ok {A B : Type} (m : M S A) (k : A -> M S B) s a s' :
  m s = (Ok a, s') -> bind m k s = k a s'.
Proof. intros H. unfold bind. rewrite H. reflexivity. Qed.

Lemma bind_throw {A B : Type} (m : M S A) (k : A -> M S B) s e s' :
  m s = (Throw e, s') -> bind m k s = (Throw e, s').
Proof. intros H. unfold bind. rewrite H. reflexivity. Qed.

Lemma bind_modify {B : Type} (f : S -> S) (k : unit -> M S B) s :
  bind (modify f) k s = k tt (f s).
Proof. reflexivity. Qed.

Lemma try_catch_ok {A : Type} (m : M S A) handler s a s' :
  m s = (Ok a, s') -> try_catch m handler s = (Ok a, s').
Proof. intros H. unfold try_catch. rewrite H. reflexivity. Qed.

Lemma try_catch_throw {A : Type} (m : M S A) handler s e s' :
  m s = (Throw e, s') -> try_catch m handler s = handler e s'.
Proof. intros H. unfold try_catch. rewrite H. reflexivity. Qed.

End NoExit.

Ltac no_exit_step :=
  first
    [ apply no_exit_ret
    | apply no_exit_throw
    | apply no_exit_modify
    | apply no_exit_bind; [|intros]
    | apply no_exit_try_catch; [|intros]
    | match goal with
      | |- no_exit (if ?b then _ else _) => destruct b
      | |- no_exit (match ?x with _ => _ end) => destruct x
      | |- no_exit (let (_, _) := ?x in _) => destruct x
      end ].

Section ToolFacts.

Variable cfg : config.
Variable h : host.

Lemma no_exit_logRequest method params result error :
  no_exit (logRequest method params result error).
Proof. apply no_exit_modify. Qed.

Lemma no_exit_console msg : no_exit (console msg).
Proof. apply no_exit_modify. Qed.

Lemma no_exit_send rq : no_exit (send h rq).
Proof. intros s; exact I. Qed.

Lemma no_exit_getAccessToken_response now r :
  no_exit (getAccessToken_response h now r).
Proof. unfold getAccessToken_response. repeat no_exit_step. Qed.

Lemma no_exit_getAccessToken : no_exit (getAccessToken cfg h).
Proof.
  intros w. unfold getAccessToken.
  destruct (getAccessToken_start w); [exact I|].
  apply (no_exit_bind (send h (oauth_request cfg))).
  - apply no_exit_send.
  - intros r. apply no_exit_getAccessToken_response.
Qed.

Lemma no_exit_makeGiteeRequest method path body accessToken :
  no_exit (makeGiteeRequest cfg h method path body accessToken).
Proof.
  unfold makeGiteeRequest.
  apply no_exit_bind.
  - destruct (truthy_val accessToken);
      [apply no_exit_ret | apply no_exit_getAccessToken].
  - intros token. apply no_exit_bind; [apply no_exit_send|].
    intros r. repeat no_exit_step.
Qed.

Lemma no_exit_reviewGiteePullRequest prNumber force :
  no_exit (reviewGiteePullRequest cfg h prNumber force).
Proof.
  unfold reviewGiteePullRequest. destruct (invalid_pr_number prNumber);
    [apply no_exit_throw | apply no_exit_makeGiteeRequest].
Qed.

Lemma no_exit_testGiteePullRequest prNumber force :
  no_exit (testGiteePullRequest cfg h prNumber force).
Proof.
  unfold testGiteePullRequest. destruct (invalid_pr_number prNumber);
    [apply no_exit_throw | apply no_exit_makeGiteeRequest].
Qed.

Lemma no_exit_mergeGiteePullRequest prNumber :
  no_exit (mergeGiteePullRequest cfg h prNumber).
Proof.
  unfold mergeGiteePullRequest. destruct (invalid_pr_number prNumber);
    [apply no_exit_throw | apply no_exit_makeGiteeRequest].
Qed.

Lemma no_exit_createGiteePullRequest title body draft :
  no_exit (createGiteePullRequest cfg h title body draft).
Proof.
  unfold createGiteePullRequest. destruct (invalid_title title);
    [apply no_exit_throw|].
  destruct (process_labels (LABELS_ENV cfg)).
  apply no_exit_bind; [apply no_exit_modify|].
  intros _. apply no_exit_makeGiteeRequest.
Qed.

(** The requests to the upstream leave the operation log alone. *)
Definition keeps_log {A : Type} (m : M world A) : Prop :=
  forall w, log_history (snd (m w)) = log_history w.

Lemma keeps_log_ret {A : Type} (a : A) : keeps_log (ret a).
Proof. intros w; reflexivity. Qed.

Lemma keeps_log_throw {A : Type} (e : thrown) : keeps_log (@throw world A e).
Proof. intros w; reflexivity. Qed.

Lemma keeps_log_bind {A B : Type} (m : M world A) (k : A -> M world B) :
  keeps_log m -> (forall a, keeps_log (k a)) -> keeps_log (bind m k).
Proof.
  intros Hm Hk w. unfold bind. specialize (Hm w).
  destruct (m w) as [[a|e|c] w1]; cbn [snd] in *; auto.
  rewrite Hk. exact Hm.
Qed.

Lemma keeps_log_send rq : keeps_log (send h rq).
Proof. intros w; reflexivity. Qed.

Lemma keeps_log_set_token t (f : world -> option Z) :
  keeps_log (modify (fun w => set_token w t (f w))).
Proof. intros w; reflexivity. Qed.

Ltac keeps_log_step :=
  first
    [ apply keeps_log_ret
    | apply keeps_log_throw
    | apply keeps_log_send
    | apply keeps_log_bind; [|intros]
    | match goal with
      | |- keeps_log (modify _) => intros ?; reflexivity
      | |- keeps_log (if ?b then _ else _) => destruct b
      | |- keeps_log (match ?x with _ => _ end) => destruct x
      end ].

Lemma keeps_log_getAccessToken_response now r :
  keeps_log (getAccessToken_response h now r).
Proof. unfold getAccessToken_response. repeat keeps_log_step. Qed.

Lemma keeps_log_getAccessToken : keeps_log (getAccessToken cfg h).
Proof.
  intros w. unfold getAccessToken.
  destruct (getAccessToken_start w); [reflexivity|].
  apply (keeps_log_bind (send h (oauth_request cfg))).
  - apply keeps_log_send.
  - intros r. apply keeps_log_getAccessToken_response.
Qed.

Lemma keeps_log_makeGiteeRequest method path body accessToken :
  keeps_log (makeGiteeRequest cfg h method path body accessToken).
Proof.
  unfold makeGiteeRequest.
  apply keeps_log_bind.
  - destruct (truthy_val accessToken);
      [apply keeps_log_ret | apply keeps_log_getAccessToken].
  - intros token. apply keeps_log_bind; [apply keeps_log_send|].
    intros r. repeat keeps_log_step.
Qed.

Lemma keeps_log_reviewGiteePullRequest prNumber force :
  keeps_log (reviewGiteePullRequest cfg h prNumber force).
Proof.
  unfold reviewGiteePullRequest. destruct (invalid_pr_number prNumber);
    [apply keeps_log_throw | apply keeps_log_makeGiteeRequest].
Qed.

Lemma keeps_log_testGiteePullRequest prNumber force :
  keeps_log (testGiteePullRequest cfg h prNumber force).
Proof.
  unfold testGiteePullRequest. destruct (invalid_pr_number prNumber);
    [apply keeps_log_throw | apply keeps_log_makeGiteeRequest].
Qed.

Lemma keeps_log_mergeGiteePullRequest prNumber :
  keeps_log (mergeGiteePullRequest cfg h prNumber).
Proof.
  unfold mergeGiteePullRequest. destruct (invalid_pr_number prNumber);
    [apply keeps_log_throw | apply keeps_log_makeGiteeRequest].
Qed.

(** What one automatic step does, by the outcome of its call. *)
Definition step_succeeded (k : step) (prNumber : jsval) (params : json)
                          (r : api_response) (w : world) : world :=
  snd (logRequest (step_name k) params (Some (LogApi r)) None
         (snd (console (StepCompleted k prNumber) w))).

Definition step_failed (k : step) (prNumber : jsval) (params : json)
                       (err : thrown) (w : world) : world :=
  snd (logRequest (step_name k) params None (error_or_message err)
         (snd (console (StepFailed k prNumber (error_or_message err)) w))).

Lemma attempt_unfold k prNumber params (call : M world api_response) w :
  attempt k prNumber params call w =
    match call (snd (console (StepStarting k prNumber) w)) with
    | (Ok r, w1) => (Ok (Some r), step_succeeded k prNumber params r w1)
    | (Throw err, w1) => (Ok None, step_failed k prNumber params err w1)
    | (Exit c, w1) => (Exit c, w1)
    end.
Proof.
  unfold attempt, try_catch, step_succeeded, step_failed.
  unfold console at 1. rewrite bind_modify.
  change (snd (console (StepStarting k prNumber) w))
    with (set_stderr w (StepStarting k prNumber :: stderr w)).
  unfold bind at 1.
  destruct (call _) as [[r|err|c] w1]; reflexivity.
Qed.

Lemma attempt_outcome k prNumber params (call : M world api_response) w :
  no_exit call ->
  match call (snd (console (StepStarting k prNumber) w)) with
  | (Ok r, w1) =>
      attempt k prNumber params call w
        = (Ok (Some r), step_succeeded k prNumber params r w1)
  | (Throw err, w1) =>
      attempt k prNumber params call w
        = (Ok None, step_failed k prNumber params err w1)
  | (Exit _, _) => False
  end.
Proof.
  intros Hcall. specialize (Hcall (snd (console (StepStarting k prNumber) w))).
  rewrite attempt_unfold.
  destruct (call _) as [[r|err|c] w1]; simpl in Hcall; [| |contradiction];
    reflexivity.
Qed.

(** An automatic step never throws. *)
Lemma attempt_returns k prNumber params (call : M world api_response) w :
  no_exit call ->
  exists r w', attempt k prNumber params call w = (Ok r, w').
Proof.
  intros Hcall. pose proof (attempt_outcome k prNumber params call w Hcall) as H.
  destruct (call _) as [[r|err|c] w1]; [| |contradiction]; eauto.
Qed.

Lemma auto_review_step_returns result w :
  exists r w', auto_review_step cfg h result w = (Ok r, w').
Proof.
  unfold auto_review_step.
  destruct (AUTO_REVIEW cfg && has_pr_number result);
    [apply attempt_returns, no_exit_reviewGiteePullRequest | eexists _, _; reflexivity].
Qed.

Lemma auto_test_step_returns result w :
  exists r w', auto_test_step cfg h result w = (Ok r, w').
Proof.
  unfold auto_test_step.
  destruct (AUTO_TEST cfg && has_pr_number result);
    [apply attempt_returns, no_exit_testGiteePullRequest | eexists _, _; reflexivity].
Qed.

Lemma auto_merge_step_returns result testResult w :
  exists r w', auto_merge_step cfg h result testResult w = (Ok r, w').
Proof.
  unfold auto_merge_step.
  destruct (AUTO_MERGE cfg && has_pr_number result);
    [|eexists _, _; reflexivity].
  destruct (negb (AUTO_TEST cfg) || is_some testResult);
    [apply attempt_returns, no_exit_mergeGiteePullRequest
    | eexists _, _; reflexivity].
Qed.

(** The state in which the automatic steps start: the creation has been
    logged. *)
Definition created (params : json) (result : api_response) (w : world)
  : world :=
  snd (logRequest (Some (JStr (js "pr"))) (pr_params params)
                  (Some (LogApi result)) None w).

(** [pr] after a successful creation, step by step. *)
Lemma pr_after_create params w result w1 rv w2 tv w3 mv w4 :
  createGiteePullRequest cfg h (get "title" params) (get "body" params)
                         (get "draft" params) w = (Ok result, w1) ->
  auto_review_step cfg h result (created params result w1) = (Ok rv, w2) ->
  auto_test_step cfg h result w2 = (Ok tv, w3) ->
  auto_merge_step cfg h result tv w3 = (Ok mv, w4) ->
  pr cfg h params w =
    match build_response result rv tv mv w4 with
    | (Throw err, w5) =>
        (Ok (PrFailure (error_result err)),
         snd (logRequest (Some (JStr (js "pr"))) (pr_params params) None
                         (error_or_message err) w5))
    | other => other
    end.
Proof.
  intros Hc Hr Ht Hm. unfold pr, try_catch.
  rewrite (bind_ok _ _ _ _ _ Hc).
  unfold logRequest at 1. rewrite bind_modify.
  change (auto_review_step cfg h result (created params result w1)
          = (Ok rv, w2)) in Hr.
  unfold created, logRequest, modify in Hr. cbn [snd] in Hr.
  rewrite (bind_ok _ _ _ _ _ Hr), (bind_ok _ _ _ _ _ Ht),
    (bind_ok _ _ _ _ _ Hm).
  destruct (build_response result rv tv mv w4) as [[p|err|c] w5]; reflexivity.
Qed.

(** [pr] after a failed creation. *)
Lemma pr_after_failed_create params w err w1 :
  createGiteePullRequest cfg h (get "title" params) (get "body" params)
                         (get "draft" params) w = (Throw err, w1) ->
  pr cfg h params w =
    (Ok (PrFailure (error_result err)),
     snd (logRequest (Some (JStr (js "pr"))) (pr_params params) None
                     (error_or_message err) w1)).
Proof.
  intros Hc. unfold pr, try_catch. unfold bind at 1. rewrite Hc. reflexivity.
Qed.

End ToolFacts.

(* ================================================================== *)
(** * Facts about the branch pattern *)
(* ================================================================== *)

Section BranchFacts.

Lemma lang_seq_iff (r1 r2 : regex) (s : jsstring) :
  lang (Seq r1 r2) s <->
  exists s1 s2, s = s1 ++ s2 /\ lang r1 s1 /\ lang r2 s2.
Proof.
  split.
  - intros H. inversion H; subst. eauto.
  - intros [s1 [s2 [-> [H1 H2]]]]. constructor; assumption.
Qed.

Lemma lang_literal_i (l s : jsstring) :
  lang (literal_i l) s <-> Forall2 (fun p c => letter_i p c = true) l s.
Proof.
  revert s; induction l as [|p l IH]; intros s; simpl.
  - split; intros H; inversion H; constructor.
  - rewrite lang_class_seq. split.
    + intros [c [t [-> [Hc Ht]]]]. constructor; [exact Hc | apply IH, Ht].
    + intros H. inversion H; subst. eexists _, _. rewrite IH. eauto.
Qed.

(** The strings the pattern accepts: [branch] in any ASCII case, white
    space, an opening parenthesis, one or more code units other than [)],
    and a closing parenthesis. *)
Lemma branch_re_shape (s : jsstring) :
  test branch_re s = true <->
  exists b w i,
    s = b ++ w ++ lparen :: i ++ [rparen] /\
    Forall2 (fun p c => letter_i p c = true) (js "branch") b /\
    forallb is_white_space w = true /\
    i <> [] /\ forallb not_rparen i = true.
Proof.
  unfold test. rewrite matches_lang. unfold branch_re.
  rewrite lang_seq_iff. split.
  - intros [b [t [-> [Hb Ht]]]].
    apply lang_literal_i in Hb.
    apply lang_seq_iff in Ht as [w [t' [-> [Hw Ht']]]].
    apply lang_star_class in Hw.
    apply lang_class_seq in Ht' as [c [u [-> [Hc Hu]]]].
    apply N.eqb_eq in Hc; subst c.
    apply lang_seq_iff in Hu as [i [e [-> [Hi He]]]].
    apply lang_plus_class in Hi as [Hne Hi].
    inversion He as [|p c Hc| | | | |]; subst.
    apply N.eqb_eq in Hc; subst c.
    exists b, w, i. auto.
  - intros [b [w [i [-> [Hb [Hw [Hne Hi]]]]]]].
    exists b, (w ++ lparen :: i ++ [rparen]). split; [reflexivity|].
    split; [apply lang_literal_i; exact Hb|].
    apply lang_seq_iff. exists w, (lparen :: i ++ [rparen]).
    split; [reflexivity|]. split; [apply lang_star_class; exact Hw|].
    apply lang_class_seq. exists lparen, (i ++ [rparen]).
    split; [reflexivity|]. split; [apply N.eqb_refl|].
    constructor; [apply lang_plus_class; auto|].
    constructor. apply N.eqb_refl.
Qed.

Lemma forallb_not_rparen (t : jsstring) :
  forallb not_rparen t = true <-> ~ In rparen t.
Proof.
  induction t as [|c t IH]; simpl; [tauto|].
  rewrite andb_true_iff, IH. unfold not_rparen at 1.
  rewrite negb_true_iff, N.eqb_neq. intuition congruence.
Qed.

(** A wrapped name matches the pattern exactly when the name inside is
    non-empty and has no closing parenthesis. *)
Lemma wrapped_matches (t : jsstring) :
  test branch_re (js "branch (" ++ t ++ js ")") = true <->
  t <> [] /\ ~ In rparen t.
Proof.
  rewrite branch_re_shape, <- forallb_not_rparen. split.
  - intros [b [w [i [E [Hb [Hw [Hne Hi]]]]]]].
    (* [b] has the six letters of the pattern *)
    do 6 (inversion Hb as [|? x ? b' _ Hb' ]; subst; clear Hb;
          rename Hb' into Hb; rename b' into b0;
          try (injection E as E0 E; subst x)).
    inversion Hb; subst. simpl in E.
    destruct w as [|x w]; simpl in E; [discriminate E|].
    injection E as Ex E. subst x.
    destruct w as [|y w]; simpl in E.
    + injection E as E. apply app_inv_tail in E. subst i. auto.
    + injection E as Ey E. subst y. simpl in Hw. discriminate Hw.
  - intros [Hne Hi]. exists (js "branch"), (js " "), t.
    split; [reflexivity|]. split; [|auto].
    repeat constructor.
Qed.

End BranchFacts.

(* ================================================================== *)
(** * Properties of the branch-name formatter *)
(* ================================================================== *)




(* ================================================================== *)
(** * Properties of the label filter and of the title check *)
(* ================================================================== *)

(** The rule of the specification for one label: 2 to 20 code units, each a
    letter, a digit, an underscore or an ideograph of [U+4E00..U+9FA5]. *)
Definition valid_label (label : jsstring) : bool :=
  (2 <=? List.length label)%nat && (List.length label <=? 20)%nat
  && List.forallb label_char label.

(** The warning printed for a label that is dropped. *)
Definition label_warning (label : jsstring) : console_msg :=
  if (List.length label <? 2)%nat || (20 <? List.length label)%nat
  then WarnLabelLength label else WarnLabelChars label.

Lemma test_label_re (label : jsstring) :
  test label_re label = negb (is_empty label) && List.forallb label_char label.
Proof.
  unfold test, label_re.
  destruct (matches (Plus (Class label_char)) label) eqn:E.
  - apply matches_lang, lang_plus_class in E as [Hne Hall].
    rewrite Hall. destruct label; [congruence | reflexivity].
  - destruct label as [|c l]; [reflexivity|]. simpl negb.
    destruct (List.forallb label_char (c :: l)) eqn:Hall; [|reflexivity].
    assert (H : matches (Plus (Class label_char)) (c :: l) = true).
    { apply matches_lang, lang_plus_class. split; [discriminate | exact Hall]. }
    congruence.
Qed.

Lemma check_label_valid (valid : list jsstring) (warn : list console_msg)
                        (label : jsstring) :
  check_label (valid, warn) label =
    if valid_label label then (valid ++ [label], warn)
    else (valid, warn ++ [label_warning label]).
Proof.
  unfold check_label, valid_label, label_warning.
  rewrite test_label_re.
  destruct (List.length label <? 2)%nat eqn:E1.
  - apply Nat.ltb_lt in E1.
    replace (2 <=? List.length label)%nat with false
      by (symmetry; apply Nat.leb_gt; lia).
    reflexivity.
  - apply Nat.ltb_ge in E1.
    replace (2 <=? List.length label)%nat with true
      by (symmetry; apply Nat.leb_le; lia).
    destruct (20 <? List.length label)%nat eqn:E2.
    + apply Nat.ltb_lt in E2.
      replace (List.length label <=? 20)%nat with false
        by (symmetry; apply Nat.leb_gt; lia).
      reflexivity.
    + apply Nat.ltb_ge in E2.
      replace (List.length label <=? 20)%nat with true
        by (symmetry; apply Nat.leb_le; lia).
      destruct label as [|c l]; [simpl in E1; lia|].
      change (is_empty (c :: l)) with false.
      destruct (List.forallb label_char (c :: l)); reflexivity.
Qed.

(** The loop keeps the valid labels, in order, and warns once about each
    of the others. *)
Lemma fold_check_label (labelArray valid : list jsstring)
                       (warn : list console_msg) :
  List.fold_left check_label labelArray (valid, warn) =
    (valid ++ List.filter valid_label labelArray,
     warn ++ List.map label_warning
               (List.filter (fun l => negb (valid_label l)) labelArray)).
Proof.
  revert valid warn; induction labelArray as [|label rest IH];
    intros valid warn; cbn [List.fold_left List.filter List.map].
  - rewrite !app_nil_r. reflexivity.
  - rewrite check_label_valid.
    destruct (valid_label label); cbn [negb List.map];
      rewrite IH, <- app_assoc; reflexivity.
Qed.

Lemma drop_while_nil_all (p : N -> bool) (s : jsstring) :
  drop_while p s = [] -> List.forallb p s = true.
Proof.
  induction s as [|c s IH]; simpl; [reflexivity|].
  destruct (p c); [exact IH | discriminate].
Qed.

Lemma trim_nil_white (s : jsstring) :
  trim s = [] -> List.forallb is_white_space s = true.
Proof.
  unfold trim, trimEnd. intros H.
  apply (f_equal (@rev N)) in H. rewrite rev_involutive in H. simpl in H.
  apply drop_while_nil_all in H.
  rewrite forallb_forall in H.
  pose proof (drop_while_head is_white_space s) as Hhead.
  fold (trimStart s) in Hhead.
  destruct (trimStart s) as [|c t] eqn:E.
  - apply drop_while_nil_all. exact E.
  - rewrite (H c) in Hhead; [discriminate|].
    apply -> in_rev. left; reflexivity.
Qed.

Lemma white_trim_nil (s : jsstring) :
  List.forallb is_white_space s = true -> trim s = [].
Proof.
  intros H. unfold trim, trimEnd, trimStart.
  assert (E : drop_while is_white_space s = []).
  { induction s as [|c s IH]; simpl in *; [reflexivity|].
    apply andb_true_iff in H as [Hc Hs]. rewrite Hc. auto. }
  rewrite E. reflexivity.
Qed.

(** White space alone names nobody. *)
Lemma split_names_white (s : jsstring) :
  List.forallb is_white_space s = true -> split_names s = [].
Proof.
  unfold split_names. intros H.
  assert (Hsep : is_white_space (N_of_ascii ","%char) = false) by reflexivity.
  revert Hsep. generalize (N_of_ascii ","%char) as sep. intros sep Hsep.
  assert (E : split sep s = [s]).
  { induction s as [|c s IH]; [reflexivity|].
    cbn [List.forallb] in H. apply andb_true_iff in H as [Hc Hs].
    cbn [split]. destruct (N.eqb c sep) eqn:Ec.
    - apply N.eqb_eq in Ec. subst c. congruence.
    - rewrite (IH Hs). reflexivity. }
  rewrite E. cbn [List.map List.filter].
  rewrite (white_trim_nil s H). reflexivity.
Qed.


(** C7: when the title is missing, is not a string or is empty after
    trimming, [createGiteePullRequest] throws its validation error before
    anything is sent, and [pr] hands that error back as its failure object;
    no token exchange and no create request has been made. *)
Theorem pr_invalid_title (cfg : config) (h : host) (params : json) (w : world) :
  (get "title" params = None \/
   is_string (get "title" params) = false \/
   exists s, get "title" params = Some (JStr s) /\ trim s = []) ->
  createGiteePullRequest cfg h (get "title" params) (get "body" params)
                         (get "draft" params) w
    = (Throw (Err (js "Missing or invalid title parameter")), w) /\
  exists w',
    pr cfg h params w =
      (Ok (PrFailure
             {| failure_reason :=
                  Some (JStr (js "Missing or invalid title parameter"));
                failure_statusCode := JNull;
                failure_response := None;
                failure_rawResponse := None |}), w') /\
    requests w' = requests w /\
    cachedAccessToken w' = cachedAccessToken w /\
    tokenExpiresAt w' = tokenExpiresAt w.
Proof.
  intros Hbad.
  assert (Hinv : invalid_title (get "title" params) = true).
  { unfold invalid_title.
    destruct Hbad as [E | [E | [s [E Es]]]]; rewrite E.
    - reflexivity.
    - apply orb_true_iff; left. apply orb_true_iff; right. reflexivity.
    - rewrite Es. apply orb_true_iff; right. reflexivity. }
  assert (Hc : createGiteePullRequest cfg h (get "title" params)
                 (get "body" params) (get "draft" params) w
               = (Throw missing_title, w)).
  { unfold createGiteePullRequest. rewrite Hinv. reflexivity. }
  split; [exact Hc|].
  unfold pr, try_catch, bind at 1. rewrite Hc.
  eexists. split; [reflexivity|]. simpl. auto.
Qed.

Lemma pr_invalid_title_witness :
  let params := obj [("title", Some (JStr (js "   ")))] in
  let w := initial_world 1000 in
  let cfg := Fixture.config_of true true true in
  let h := Fixture.host_of Fixture.all_fine in
  (exists s, get "title" params = Some (JStr s) /\ trim s = []) /\
  exists w',
    fst (pr cfg h params w) =
      Ok (PrFailure
            {| failure_reason :=
                 Some (JStr (js "Missing or invalid title parameter"));
               failure_statusCode := JNull;
               failure_response := None;
               failure_rawResponse := None |}) /\
    snd (pr cfg h params w) = w' /\
    requests w' = [].
Proof.
  intros params w cfg h.
  assert (Hs : exists s, get "title" params = Some (JStr s) /\ trim s = [])
    by (exists (js "   "); split; reflexivity).
  split; [exact Hs|].
  destruct (pr_invalid_title cfg h params w (or_intror (or_intror Hs)))
    as [_ [w' [Hpr [Hreq _]]]].
  exists w'. rewrite Hpr. repeat split. exact Hreq.
Defined.

(* ================================================================== *)
(** * Properties of the token cache *)
(* ================================================================== *)

(** A cached token is usable: there is one, and its expiry lies more than
    five minutes ahead. *)
Definition token_fresh (w : world) : Prop :=
  truthy_val (cachedAccessToken w) = true /\
  exists e, tokenExpiresAt w = Some e /\ (e - clock w > 5 * 60 * 1000)%Z.

Lemma token_fresh_start (w : world) :
  token_fresh w -> getAccessToken_start w = UseCached (cachedAccessToken w).
Proof.
  intros [Ht [e [He Hgt]]]. unfold getAccessToken_start.
  rewrite Ht, He. simpl.
  replace (clock w + 300000 <? e)%Z with true
    by (symmetry; apply Z.ltb_lt; lia).
  reflexivity.
Qed.

Lemma token_stale_start (w : world) :
  ~ token_fresh w -> getAccessToken_start w = Exchange (clock w).
Proof.
  intros Hn. unfold getAccessToken_start.
  destruct (truthy_val (cachedAccessToken w)) eqn:Ht; [|reflexivity].
  destruct (tokenExpiresAt w) as [e|] eqn:He; [|reflexivity].
  simpl. destruct (clock w + 300000 <? e)%Z eqn:Hlt; [|reflexivity].
  exfalso. apply Hn. split; [exact Ht|]. exists e. split; [exact He|].
  apply Z.ltb_lt in Hlt. lia.
Qed.

(** C3, at the failing input: the upstream answers with [expires_in: 0];
    line 1175 reads [parsed.expires_in || 3600], zero is falsy, and the
    token is cached for 3600 seconds instead of the returned lifetime,
    against the comment on that line ("default to 1 hour if not
    provided"). *)
Theorem getAccessToken_zero_lifetime :
  let cfg := Fixture.config_of false false false in
  let h := Fixture.host_of Fixture.zero_lifetime in
  let w := initial_world 1000 in
  let parsed := obj [("access_token", Some (JStr (js "tok-1234567890")));
                     ("expires_in", Some (JNum 0))] in
  net (upstream h (requests w) (oauth_request cfg))
    = NetResponse 200 (js "TOKEN-ZERO-LIFETIME") /\
  JSON_parse h (js "TOKEN-ZERO-LIFETIME") = inl parsed /\
  get "expires_in" parsed = Some (JNum 0) /\
  fst (getAccessToken cfg h w) = Ok (Some (JStr (js "tok-1234567890"))) /\
  tokenExpiresAt (snd (getAccessToken cfg h w)) = Some (1000 + 3600 * 1000)%Z /\
  tokenExpiresAt (snd (getAccessToken cfg h w)) <> Some (1000 + 0 * 1000)%Z.
Proof.
  repeat split; try reflexivity. vm_compute. discriminate.
Qed.



(* ================================================================== *)
(** * Concurrent token refresh *)
(* ================================================================== *)

(** The blocking [getAccessToken] is a call, the latency of the upstream,
    and the answer, run without anything in between. *)
Lemma getAccessToken_as_turns (cfg : config) (h : host) (w : world) :
  ~ token_fresh w ->
  let reply := upstream h (requests w) (oauth_request cfg) in
  let s := TokenRace.run cfg h (TokenRace.idle w)
             [TokenRace.Call; TokenRace.Tick (latency reply);
              TokenRace.Respond 0 (net reply)] in
  TokenRace.st_world s = snd (getAccessToken cfg h w) /\
  TokenRace.st_settled s = [fst (getAccessToken cfg h w)] /\
  TokenRace.st_in_flight s = [].
Proof.
  intros Hs reply.
  assert (H1 : TokenRace.turn cfg h (TokenRace.idle w) TokenRace.Call =
    {| TokenRace.st_world :=
         set_network w (clock w) (oauth_request cfg :: requests w);
       TokenRace.st_in_flight := [clock w];
       TokenRace.st_settled := [] |}).
  { unfold TokenRace.turn. cbn [TokenRace.idle TokenRace.st_world].
    rewrite (token_stale_start w Hs). reflexivity. }
  unfold TokenRace.run. cbn [List.fold_left]. rewrite H1.
  unfold TokenRace.turn.
  cbn [TokenRace.st_world TokenRace.st_in_flight TokenRace.st_settled
       List.nth_error].
  assert (H2 : getAccessToken cfg h w =
               getAccessToken_response h (clock w) (net reply)
                 (set_network w (clock w + latency reply)
                              (oauth_request cfg :: requests w))).
  { unfold getAccessToken. rewrite (token_stale_start w Hs). reflexivity. }
  rewrite H2.
  match goal with
  | |- context [getAccessToken_response h (clock w) (net reply) ?a] =>
      change a with (set_network w (clock w + latency reply)
                                 (oauth_request cfg :: requests w))
  end.
  destruct (getAccessToken_response h (clock w) (net reply) _) as [o w'].
  cbn. auto.
Qed.

(** C4 (as stated) fails: two calls that both start before the first answer
    arrives both find the cache empty and both send the OAuth request; each
    caller gets the answer to its own exchange. *)
Lemma two_concurrent_calls_two_exchanges :
  let cfg := Fixture.config_of false false false in
  let h := Fixture.host_of Fixture.all_fine in
  let answer := NetResponse 200 (js "TOKEN") in
  let s := TokenRace.run cfg h (TokenRace.idle (initial_world 1000))
             [TokenRace.Call; TokenRace.Call;
              TokenRace.Respond 0 answer; TokenRace.Respond 0 answer] in
  TokenRace.exchanges (TokenRace.st_world s) = 2%nat /\
  requests (TokenRace.st_world s) = [oauth_request cfg; oauth_request cfg] /\
  TokenRace.st_settled s = [Ok (Some (JStr (js "tok-1234567890")));
                            Ok (Some (JStr (js "tok-1234567890")))].
Proof.
  repeat split; reflexivity.
Qed.

(** C4 (amended): the token refresh is not single-flight.  Every call that
    starts while the cache has no usable token sends its own OAuth request:
    [n] calls that start before any answer arrives send [n] requests and
    leave [n] more exchanges in flight.  Only a call that starts once an
    answer has made the cache usable is served from the cache, without a
    request. *)
Theorem concurrent_calls_each_exchange
    (cfg : config) (h : host) (s : TokenRace.state) (n : nat) :
  let w := TokenRace.st_world s in
  (~ token_fresh w ->
   let s' := TokenRace.run cfg h s (List.repeat TokenRace.Call n) in
   requests (TokenRace.st_world s')
     = List.repeat (oauth_request cfg) n ++ requests w /\
   TokenRace.exchanges (TokenRace.st_world s')
     = (n + TokenRace.exchanges w)%nat /\
   List.length (TokenRace.st_in_flight s')
     = (List.length (TokenRace.st_in_flight s) + n)%nat /\
   TokenRace.st_settled s' = TokenRace.st_settled s) /\
  (token_fresh w ->
   let s' := TokenRace.turn cfg h s TokenRace.Call in
   TokenRace.st_world s' = w /\
   TokenRace.st_in_flight s' = TokenRace.st_in_flight s /\
   TokenRace.st_settled s'
     = Ok (cachedAccessToken w) :: TokenRace.st_settled s).
Proof.
  intros w. split.
  - intros Hs.
    assert (Hgen : forall k s0,
      ~ token_fresh (TokenRace.st_world s0) ->
      let s' := TokenRace.run cfg h s0 (List.repeat TokenRace.Call k) in
      requests (TokenRace.st_world s')
        = List.repeat (oauth_request cfg) k
          ++ requests (TokenRace.st_world s0) /\
      List.length (TokenRace.st_in_flight s')
        = (List.length (TokenRace.st_in_flight s0) + k)%nat /\
      TokenRace.st_settled s' = TokenRace.st_settled s0).
    { induction k as [|k IH]; intros s0 Hs0.
      - cbn. repeat split. lia.
      - cbn [List.repeat TokenRace.run List.fold_left].
        set (s1 := TokenRace.turn cfg h s0 TokenRace.Call).
        assert (E1 : s1 =
          {| TokenRace.st_world :=
               set_network (TokenRace.st_world s0)
                 (clock (TokenRace.st_world s0))
                 (oauth_request cfg :: requests (TokenRace.st_world s0));
             TokenRace.st_in_flight :=
               TokenRace.st_in_flight s0 ++ [clock (TokenRace.st_world s0)];
             TokenRace.st_settled := TokenRace.st_settled s0 |}).
        { unfold s1, TokenRace.turn. rewrite (token_stale_start _ Hs0).
          reflexivity. }
        assert (Hs1 : ~ token_fresh (TokenRace.st_world s1)).
        { rewrite E1. cbn [TokenRace.st_world]. intros [Ht [e [He Hgt]]].
          apply Hs0. split; [exact Ht|]. exists e. split; [exact He|exact Hgt]. }
        destruct (IH s1 Hs1) as [Hr [Hl Hd]].
        fold (TokenRace.run cfg h s1 (List.repeat TokenRace.Call k)).
        rewrite Hr, Hl, Hd, E1.
        cbn [TokenRace.st_world TokenRace.st_in_flight TokenRace.st_settled
             set_network requests].
        rewrite length_app. cbn [List.length].
        repeat split; [|lia].
        change (oauth_request cfg :: requests (TokenRace.st_world s0))
          with ([oauth_request cfg] ++ requests (TokenRace.st_world s0)).
        rewrite app_assoc. f_equal.
        rewrite <- repeat_cons. reflexivity. }
    destruct (Hgen n s Hs) as [Hr [Hl Hd]]. cbv zeta.
    split; [exact Hr|]. split; [|split; [exact Hl | exact Hd]].
    unfold TokenRace.exchanges. rewrite Hr, filter_app, length_app.
    f_equal. clear. induction n as [|n IH]; [reflexivity|].
    cbn [List.repeat List.filter]. cbn [TokenRace.is_exchange oauth_request
      req_endpoint]. cbn [List.length]. f_equal. exact IH.
  - intros Hf. unfold TokenRace.turn. fold w.
    rewrite (token_fresh_start w Hf). cbn. auto.
Qed.

Lemma concurrent_calls_each_exchange_witness :
  let cfg := Fixture.config_of false false false in
  let h := Fixture.host_of Fixture.all_fine in
  let s := TokenRace.idle (initial_world 1000) in
  let s3 := TokenRace.run cfg h s (List.repeat TokenRace.Call 3) in
  let done := TokenRace.turn cfg h s3
                (TokenRace.Respond 0 (NetResponse 200 (js "TOKEN"))) in
  ~ token_fresh (TokenRace.st_world s) /\
  TokenRace.exchanges (TokenRace.st_world s3) = 3%nat /\
  token_fresh (TokenRace.st_world done) /\
  TokenRace.st_world (TokenRace.turn cfg h done TokenRace.Call)
    = TokenRace.st_world done.
Proof.
  intros cfg h s s3 done.
  assert (Hstale : ~ token_fresh (TokenRace.st_world s)).
  { intros [Ht _]. vm_compute in Ht. discriminate. }
  assert (Hfresh : token_fresh (TokenRace.st_world done)).
  { split; [reflexivity|]. exists 7201000%Z. split; [reflexivity|].
    vm_compute. reflexivity. }
  destruct (concurrent_calls_each_exchange cfg h s 3) as [Hs _].
  destruct (Hs Hstale) as [_ [Hex _]].
  destruct (concurrent_calls_each_exchange cfg h done 0) as [_ Hf].
  destruct (Hf Hfresh) as [Hw _].
  split; [exact Hstale|]. split; [exact Hex|]. split; [exact Hfresh|].
  exact Hw.
Defined.

(* ================================================================== *)
(** * Properties of the [pr] workflow *)
(* ================================================================== *)

(** The merge step ran between two states: it left its entry, successful
    or not, at the head of the operation log. *)
Definition merge_attempted (before after : world) : Prop :=
  exists entry,
    log_history after = entry :: log_history before /\
    log_method entry = step_name Merge.

(** A failure was recorded between two states: an entry for the step,
    without result and with the error. *)
Definition failure_logged (method : jsval) (err : thrown)
                          (before after : world) : Prop :=
  exists entry,
    log_history after = entry :: log_history before /\
    log_method entry = method /\
    log_result entry = None /\
    log_error entry = (if truthy_val (error_or_message err)
                       then error_or_message err else None).

(** The state in which the call of a step is made. *)
Definition announced (k : step) (result : api_response) (w : world) : world :=
  snd (console (StepStarting k (get "number" (data result))) w).

(** The object [pr] returns after a successful creation. *)
Definition success_of (result : api_response)
                      (reviewResult testResult mergeResult
                         : option api_response) : pr_result :=
  PrSuccess
    {| pull_request := data result;
       url := or_json (or_else (get "html_url" (data result))
                               (get "url" (data result))) JNull;
       number := or_json (get "number" (data result)) JNull;
       auto_review := option_map data reviewResult;
       auto_test := option_map data testResult;
       auto_merge := option_map data mergeResult |}.

Section PrFacts.

Variable cfg : config.
Variable h : host.

Lemma build_response_success result rv tv mv w :
  data result <> JNull ->
  build_response result rv tv mv w = (Ok (success_of result rv tv mv), w).
Proof.
  intros Hd. unfold build_response, success_of.
  destruct (data result); [congruence| | | | |]; reflexivity.
Qed.

Lemma has_pr_number_data result :
  has_pr_number result = true -> data result <> JNull.
Proof.
  unfold has_pr_number. intros H E. rewrite E in H. discriminate H.
Qed.

Lemma list_not_cons_self {A : Type} (x : A) (l : list A) : l <> x :: l.
Proof.
  intros E. apply (f_equal (@List.length A)) in E. simpl in E. lia.
Qed.

(** The merge step, given the flag and a pull-request number. *)
Lemma auto_merge_step_gate result tv w3 mv w4 :
  AUTO_MERGE cfg = true ->
  has_pr_number result = true ->
  auto_merge_step cfg h result tv w3 = (Ok mv, w4) ->
  (negb (AUTO_TEST cfg) || is_some tv = true -> merge_attempted w3 w4) /\
  (negb (AUTO_TEST cfg) || is_some tv = false ->
   mv = None /\ log_history w4 = log_history w3 /\
   requests w4 = requests w3 /\
   stderr w4 = MergeSkipped (get "number" (data result)) :: stderr w3).
Proof.
  intros Hm Hn Hrun. unfold auto_merge_step in Hrun. rewrite Hm, Hn in Hrun.
  cbn [andb] in Hrun.
  destruct (negb (AUTO_TEST cfg) || is_some tv) eqn:Hgate.
  - split; [intros _ | discriminate].
    rewrite attempt_unfold in Hrun.
    pose proof (keeps_log_mergeGiteePullRequest cfg h
                  (get "number" (data result))
                  (snd (console (StepStarting Merge
                                   (get "number" (data result))) w3))) as Hk.
    destruct (mergeGiteePullRequest cfg h _ _) as [[r|err|c] w5];
      cbn [snd] in Hk; inversion Hrun; subst; eexists;
      (split; [cbn; rewrite Hk; reflexivity | reflexivity]).
  - split; [discriminate | intros _].
    inversion Hrun; subst. repeat split.
Qed.


End PrFacts.



Section Isolation.

Variable cfg : config.
Variable h : host.

Lemma step_failed_logged k prNumber params err w :
  failure_logged (step_name k) err w (step_failed k prNumber params err w).
Proof.
  unfold failure_logged, step_failed. eexists. repeat split.
Qed.

Lemma step_failed_requests k prNumber params err w :
  requests (step_failed k prNumber params err w) = requests w.
Proof. reflexivity. Qed.


End Isolation.


(* ================================================================== *)
(** * Properties of the dispatcher *)
(* ================================================================== *)

(** The request is a well-formed envelope for the given method. *)
Definition is_method (name : string) (request : json) : bool :=
  is_request_object request && has_version request
  && is_literal name (get "method" request).

Definition with_flag (b : bool) (s : session) : session :=
  {| initialized := b; globals := globals s |}.

Section DispatcherFacts.

Variable cfg : config.
Variable h : host.
Variable call_member : jsstring -> json -> session -> member_call * session.

Local Notation "'handle'" := (handleRequest cfg h call_member).

Lemma log_run method params result error b w :
  log method params result error {| initialized := b; globals := w |}
  = (Ok tt, {| initialized := b;
               globals := snd (logRequest method params result error w) |}).
Proof. reflexivity. Qed.

(** How a request that throws in the [try] block is answered. *)
Lemma handle_throw request s message s1 :
  try_block cfg h call_member request s = (Throw (Err message), s1) ->
  message <> [] ->
  let extracted := is_request_object request && has_version request in
  let method := if extracted then get "method" request else Some JNull in
  let params := if extracted then get "params" request else Some JNull in
  let id := if extracted then get "id" request else Some JNull in
  handle request s =
    (Ok (if is_notification method then None
         else Some (ErrorResponse (id_or_null id) (error_code message)
                                  message)),
     {| initialized := initialized s1;
        globals := snd (logRequest method (safe params) None
                          (Some (JStr message)) (globals s1)) |}).
Proof.
  intros Htry Hne extracted method params id. unfold handleRequest.
  fold extracted. fold method. fold params. fold id. rewrite Htry.
  destruct s1 as [b1 w1]. unfold bind at 1. rewrite log_run.
  destruct message as [|c message]; [congruence|].
  cbn [is_empty]. unfold bind at 1. cbn [ret].
  destruct (is_notification method); reflexivity.
Qed.


End DispatcherFacts.

(** C8, evaluated: a request that is not an object and a request without a
    method are answered with the code -32603 (internal error), not -32600;
    only the wrong protocol version gets -32600, and its answer carries
    [null] even though the request had an [id]. *)
Theorem handleRequest_malformed_codes :
  let cfg := Fixture.config_of false false false in
  let h := Fixture.host_of Fixture.all_fine in
  let s := new_session (initial_world 1000) in
  let handle := handleRequest cfg h Fixture.no_member_calls in
  fst (handle (JNum 5) s) =
    Ok (Some (ErrorResponse JNull (-32603)
                (js "Invalid request: request must be an object"))) /\
  fst (handle (obj [("jsonrpc", Some (JStr (js "2.0")));
                    ("id", Some (JNum 1))]) s) =
    Ok (Some (ErrorResponse (JNum 1) (-32603)
                (js "Invalid request: method is required and must be a string"))) /\
  fst (handle (obj [("jsonrpc", Some (JStr (js "1.0")));
                    ("id", Some (JNum 7));
                    ("method", Some (JStr (js "ping")))]) s) =
    Ok (Some (ErrorResponse JNull (-32600)
                (js "Unsupported JSON-RPC version. Only 2.0 is supported."))).
Proof.
  repeat split; reflexivity.
Qed.

(* ================================================================== *)
(** * The [initialized] flag *)
(* ================================================================== *)

(** A computation that neither reads nor writes the flag: started with any
    value of the flag it does what it does on a fresh server, and leaves
    the flag as it found it. *)
Definition flagless {A : Type} (m : M session A) : Prop :=
  forall b w,
    m {| initialized := b; globals := w |}
    = (fst (m (new_session w)), with_flag b (snd (m (new_session w)))).

Section Flagless.

Lemma flagless_ret {A : Type} (a : A) : flagless (ret a).
Proof. intros b w; reflexivity. Qed.

Lemma flagless_throw {A : Type} (e : thrown) : flagless (@throw session A e).
Proof. intros b w; reflexivity. Qed.

Lemma flagless_exit {A : Type} (c : Z) :
  flagless (fun s : session => (@Exit A c, s)).
Proof. intros b w; reflexivity. Qed.

Lemma flagless_lift {A : Type} (m : M world A) : flagless (lift m).
Proof.
  intros b w. unfold lift, new_session. cbn [globals initialized].
  destruct (m w) as [r w']. reflexivity.
Qed.

Lemma flagless_bind {A B : Type} (m : M session A) (k : A -> M session B) :
  flagless m -> (forall a, flagless (k a)) -> flagless (bind m k).
Proof.
  intros Hm Hk b w. unfold bind. rewrite (Hm b w).
  pose proof (Hm false w) as H0. fold (new_session w) in H0.
  destruct (m (new_session w)) as [[a|e|c] s1]; cbn [fst snd] in *;
    try reflexivity.
  injection H0 as H0. rewrite H0. unfold with_flag. cbn [globals].
  rewrite (Hk a b (globals s1)). reflexivity.
Qed.

Lemma flagless_arm_exit_timer : flagless arm_exit_timer.
Proof. intros b w; reflexivity. Qed.

End Flagless.

Ltac flagless_step :=
  first
    [ apply flagless_ret
    | apply flagless_throw
    | apply flagless_exit
    | apply flagless_lift
    | apply flagless_arm_exit_timer
    | apply flagless_bind; [|intros]
    | match goal with
      | |- flagless (if ?b then _ else _) => destruct b
      | |- flagless (match ?x with _ => _ end) => destruct x
      end ].

(** The request is a [tools/call] whose tool name resolves to the
    [initialized] property of the server object, or to a member of the
    object that is not a tool. *)
Definition reaches_server_object (cfg : config) (request : json) : bool :=
  is_method "tools/call" request
  && match tool_member cfg (get "params" request) with
     | Some OwnInitialized | Some (OtherMember _) => true
     | _ => false
     end.

Section FlagFacts.

Variable cfg : config.
Variable h : host.
Variable call_member : jsstring -> json -> session -> member_call * session.

Lemma flagless_tools_call params :
  match tool_member cfg params with
  | Some OwnInitialized | Some (OtherMember _) => False
  | _ => True
  end ->
  flagless (tools_call cfg h call_member params).
Proof.
  unfold tool_member, tools_call. intros Hm.
  destruct (get "name" (safe params)) as [name|]; [|apply flagless_throw].
  destruct (truthy name); cbn [negb]; [|apply flagless_throw].
  destruct (actual_method_name cfg name) as [actual|];
    [|apply flagless_throw].
  cbn [option_map] in Hm.
  destruct (lookup_member (ToString actual)); try contradiction;
    repeat flagless_step.
Qed.

Lemma flagless_dispatch method params :
  is_literal "initialize" method = false ->
  (is_literal "tools/call" method = true ->
   match tool_member cfg params with
   | Some OwnInitialized | Some (OtherMember _) => False
   | _ => True
   end) ->
  flagless (dispatch cfg h call_member method params).
Proof.
  intros Hi Ht. unfold dispatch. rewrite Hi.
  destruct (is_literal "tools/list" method); [apply flagless_ret|].
  destruct (stub_of method); [apply flagless_ret|].
  destruct (is_literal "tools/call" method);
    [apply flagless_tools_call, Ht; reflexivity|].
  unfold log. repeat flagless_step.
Qed.

Lemma flagless_try_block request :
  is_method "initialize" request = false ->
  reaches_server_object cfg request = false ->
  flagless (try_block cfg h call_member request).
Proof.
  unfold is_method, reaches_server_object, is_method, try_block.
  intros Hi Hr.
  destruct (is_request_object request); cbn [negb andb] in *;
    [|apply flagless_throw].
  destruct (has_version request); cbn [negb andb] in *;
    [|apply flagless_throw].
  destruct (negb (truthy_val (get "method" request))
            || negb (is_string (get "method" request)));
    [apply flagless_throw|].
  apply flagless_dispatch; [exact Hi|].
  intros Hc. rewrite Hc in Hr. cbn [andb] in Hr.
  destruct (tool_member cfg (get "params" request)) as [[]|];
    try exact I; discriminate Hr.
Qed.

(** After the [try] block, nothing looks at the flag. *)
Lemma flagless_handleRequest request :
  flagless (try_block cfg h call_member request) ->
  flagless (handleRequest cfg h call_member request).
Proof.
  intros Htry b w. unfold handleRequest. rewrite (Htry b w).
  pose proof (Htry false w) as H0. fold (new_session w) in H0.
  destruct (try_block cfg h call_member request (new_session w))
    as [[result|[message|r]|c] s1]; cbn [fst snd] in *;
    injection H0 as H0; try reflexivity.
  - assert (F : flagless
        (log (if is_request_object request && has_version request
              then get "method" request else Some JNull)
             (safe (if is_request_object request && has_version request
                    then get "params" request else Some JNull))
             (option_map LogRpc result) None ;;
         if is_notification
              (if is_request_object request && has_version request
               then get "method" request else Some JNull)
         then ret None
         else if is_literal "shutdown"
                   (if is_request_object request && has_version request
                    then get "method" request else Some JNull)
              then ret (Some (Response
                     (id_or_null
                        (if is_request_object request && has_version request
                         then get "id" request else Some JNull)) None))
              else ret (Some (Response
                     (id_or_null
                        (if is_request_object request && has_version request
                         then get "id" request else Some JNull)) result))))
      by (unfold log; repeat flagless_step).
    rewrite H0 at 2 3. unfold with_flag at 1. unfold with_flag at 2 3.
    cbn [globals]. rewrite (F b (globals s1)). reflexivity.
  - assert (F : flagless
        (log (if is_request_object request && has_version request
              then get "method" request else Some JNull)
             (safe (if is_request_object request && has_version request
                    then get "params" request else Some JNull))
             None (Some (JStr message)) ;;
         (if is_empty message
          then log (if is_request_object request && has_version request
                    then get "method" request else Some JNull)
                   (safe (if is_request_object request && has_version request
                          then get "params" request else Some JNull))
                   None None
          else ret tt) ;;
         if is_notification
              (if is_request_object request && has_version request
               then get "method" request else Some JNull)
         then ret None
         else ret (Some (ErrorResponse
                (id_or_null
                   (if is_request_object request && has_version request
                    then get "id" request else Some JNull))
                (error_code message) message))))
      by (unfold log; repeat flagless_step).
    rewrite H0 at 2 3. unfold with_flag at 1. unfold with_flag at 2 3.
    cbn [globals]. rewrite (F b (globals s1)). reflexivity.
  - assert (F : flagless
        (log (if is_request_object request && has_version request
              then get "method" request else Some JNull)
             (safe (if is_request_object request && has_version request
                    then get "params" request else Some JNull))
             None None ;;
         log (if is_request_object request && has_version request
              then get "method" request else Some JNull)
             (safe (if is_request_object request && has_version request
                    then get "params" request else Some JNull))
             None None ;;
         if is_notification
              (if is_request_object request && has_version request
               then get "method" request else Some JNull)
         then ret (@None envelope)
         else throw (Err (cannot_read_undefined "includes"))))
      by (unfold log; repeat flagless_step).
    rewrite H0 at 2 3. unfold with_flag at 1. unfold with_flag at 2 3.
    cbn [globals]. rewrite (F b (globals s1)). reflexivity.
Qed.

End FlagFacts.

Section InitializedFlag.

Variable cfg : config.
Variable h : host.
Variable call_member : jsstring -> json -> session -> member_call * session.

Lemma is_literal_eq (name : string) (v : jsval) :
  is_literal name v = true -> v = Some (JStr (js name)).
Proof.
  unfold is_literal. destruct v as [[| | |s| |]|]; try discriminate.
  intros E. apply JsString.eqb_eq in E. subst s. reflexivity.
Qed.

(** What [initialize] answers, whatever the state. *)
Lemma handle_initialize request s :
  is_method "initialize" request = true ->
  let params := get "params" request in
  let capability (k : string) : bool :=
    truthy_val (get_opt k (get_opt "capabilities" params)) in
  let result :=
    InitializeResult
      (or_json (get_opt "protocolVersion" params) (JStr (js "2025-06-18")))
      (capability "prompts") (capability "resources")
      (capability "logging") (capability "roots") in
  handleRequest cfg h call_member request s =
    (Ok (Some (Response (id_or_null (get "id" request)) (Some result))),
     {| initialized := true;
        globals := snd (logRequest (Some (JStr (js "initialize")))
                          (safe params) (Some (LogRpc result)) None
                          (globals s)) |}).
Proof.
  intros Hm params capability result. unfold is_method in Hm.
  apply andb_true_iff in Hm as [Hm Hlit].
  apply andb_true_iff in Hm as [Hobj Hver].
  apply is_literal_eq in Hlit.
  unfold handleRequest, try_block. rewrite Hobj, Hver, Hlit.
  destruct s as [b w]. reflexivity.
Qed.

End InitializedFlag.

(** C10, at the failing input: the tool lookup [this[actualMethodName]]
    (line 1962) reads the flag when the tool is called [initialized].  On a
    fresh server the property is [false] and the call is an unknown tool;
    once [initialize] has been handled the property is [true] and the call
    fails because [true] is not a function: the same request is handled
    differently before and after [initialize]. *)
Theorem tools_call_reads_initialized_flag :
  let cfg := Fixture.config_of false false false in
  let h := Fixture.host_of Fixture.all_fine in
  let handle := handleRequest cfg h Fixture.no_member_calls in
  let probe := Fixture.request_of 2 "tools/call"
                 (Some (obj [("name", Some (JStr (js "initialized")))])) in
  let fresh := new_session (initial_world 1000) in
  let ready := snd (handle (Fixture.request_of 1 "initialize" None) fresh) in
  initialized fresh = false /\
  initialized ready = true /\
  fst (handle probe fresh) =
    Ok (Some (ErrorResponse (JNum 2) (-32603)
                (unknown_tool_message cfg (JStr (js "initialized"))
                                      (JStr (js "initialized"))))) /\
  fst (handle probe ready) =
    Ok (Some (ErrorResponse (JNum 2) (-32603)
                (not_a_function "this[actualMethodName]"))) /\
  fst (handle probe fresh) <> fst (handle probe ready).
Proof.
  repeat split; try reflexivity. vm_compute. discriminate.
Qed.

(** X23: everywhere else the flag is written by [initialize] alone and
    tested by nobody: for every request other than a [tools/call] whose
    tool name resolves to the [initialized] property itself or to a member
    of the server object that is not a tool, the response and the effect on
    the state of the module are the same whatever the flag, and the flag is
    left as it was unless the request is [initialize], which sets it.  An
    [initialize] request gets the same response in every state, so repeated
    calls answer alike. *)
Lemma handleRequest_ignores_initialized
    (cfg : config) (h : host)
    (call_member : jsstring -> json -> session -> member_call * session)
    (request : json) (w : world) :
  reaches_server_object cfg request = false ->
  (exists out w',
     forall b,
       handleRequest cfg h call_member request
         {| initialized := b; globals := w |}
       = (out, {| initialized := b || is_method "initialize" request;
                  globals := w' |})) /\
  (is_method "initialize" request = true ->
   forall s s',
     fst (handleRequest cfg h call_member request s)
     = fst (handleRequest cfg h call_member request s')).
Proof.
  intros Hr. split.
  - destruct (is_method "initialize" request) eqn:Hi.
    + eexists _, _. intros b.
      rewrite (handle_initialize cfg h call_member request _ Hi).
      rewrite orb_true_r. cbn [globals]. reflexivity.
    + pose proof (flagless_handleRequest cfg h call_member request
                    (flagless_try_block cfg h call_member request Hi Hr))
        as Hf.
      eexists _, _. intros b. rewrite (Hf b w), orb_false_r. reflexivity.
  - intros Hi s s'.
    rewrite !(handle_initialize cfg h call_member request _ Hi). reflexivity.
Qed.

Example handleRequest_ignores_initialized_logs :
  let cfg := Fixture.config_of false false false in
  let h := Fixture.host_of Fixture.all_fine in
  let request := Fixture.request_of 3 "tools/call"
                   (Some (obj [("name", Some (JStr (js "widgets_logs")))])) in
  let w := initial_world 1000 in
  reaches_server_object cfg request = false /\
  fst (handleRequest cfg h Fixture.no_member_calls request
         {| initialized := false; globals := w |})
  = fst (handleRequest cfg h Fixture.no_member_calls request
           {| initialized := true; globals := w |}).
Proof.
  intros cfg h request w.
  assert (Hr : reaches_server_object cfg request = false) by reflexivity.
  split; [exact Hr|].
  destruct (handleRequest_ignores_initialized cfg h Fixture.no_member_calls
              request w Hr) as [[out [w' H]] _].
  rewrite (H false), (H true). reflexivity.
Defined.

(* ================================================================== *)
(** * The operation log *)
(* ================================================================== *)

(** The log after is the log before with some entries put in front. *)
Definition extends (before after : world) : Prop :=
  exists entries, log_history after = entries ++ log_history before.

Lemma extends_refl w w' : log_history w' = log_history w -> extends w w'.
Proof. intros H. exists []. exact H. Qed.

Lemma extends_trans w1 w2 w3 : extends w1 w2 -> extends w2 w3 -> extends w1 w3.
Proof.
  intros [e1 H1] [e2 H2]. exists (e2 ++ e1).
  rewrite H2, H1, app_assoc. reflexivity.
Qed.

Lemma extends_cons entry w w' :
  log_history w' = entry :: log_history w -> extends w w'.
Proof. intros H. exists [entry]. exact H. Qed.

Section LogFacts.

Variable cfg : config.
Variable h : host.
Variable call_member : jsstring -> json -> session -> member_call * session.

Lemma keeps_log_createGiteePullRequest title body draft :
  keeps_log (createGiteePullRequest cfg h title body draft).
Proof.
  unfold createGiteePullRequest. destruct (invalid_title title);
    [apply keeps_log_throw|].
  destruct (process_labels (LABELS_ENV cfg)).
  apply keeps_log_bind; [intros w; reflexivity|].
  intros _. apply keeps_log_makeGiteeRequest.
Qed.

Lemma attempt_extends k prNumber params (call : M world api_response) w :
  keeps_log call ->
  extends w (snd (attempt k prNumber params call w)).
Proof.
  intros Hk. rewrite attempt_unfold.
  specialize (Hk (snd (console (StepStarting k prNumber) w))).
  destruct (call _) as [[r|err|c] w1]; cbn [snd] in *.
  - eapply extends_cons. cbn. rewrite Hk. reflexivity.
  - eapply extends_cons. cbn. rewrite Hk. reflexivity.
  - apply extends_refl. exact Hk.
Qed.

Lemma auto_review_step_extends result w :
  extends w (snd (auto_review_step cfg h result w)).
Proof.
  unfold auto_review_step. destruct (AUTO_REVIEW cfg && has_pr_number result).
  - apply attempt_extends, keeps_log_reviewGiteePullRequest.
  - apply extends_refl. reflexivity.
Qed.

Lemma auto_test_step_extends result w :
  extends w (snd (auto_test_step cfg h result w)).
Proof.
  unfold auto_test_step. destruct (AUTO_TEST cfg && has_pr_number result).
  - apply attempt_extends, keeps_log_testGiteePullRequest.
  - apply extends_refl. reflexivity.
Qed.

Lemma auto_merge_step_extends result tv w :
  extends w (snd (auto_merge_step cfg h result tv w)).
Proof.
  unfold auto_merge_step. destruct (AUTO_MERGE cfg && has_pr_number result);
    [|apply extends_refl; reflexivity].
  destruct (negb (AUTO_TEST cfg) || is_some tv).
  - apply attempt_extends, keeps_log_mergeGiteePullRequest.
  - apply extends_refl. reflexivity.
Qed.

(** [pr] logs at least its own entry. *)
Lemma pr_logs params w :
  exists entries,
    entries <> [] /\
    log_history (snd (pr cfg h params w)) = entries ++ log_history w.
Proof.
  pose proof (keeps_log_createGiteePullRequest (get "title" params)
                (get "body" params) (get "draft" params) w) as Hk.
  pose proof (no_exit_createGiteePullRequest cfg h (get "title" params)
                (get "body" params) (get "draft" params) w) as Hne.
  destruct (createGiteePullRequest cfg h (get "title" params)
              (get "body" params) (get "draft" params) w)
    as [[result|err|c] w1] eqn:Hc; cbn [fst snd] in *; [| |contradiction].
  - destruct (auto_review_step_returns cfg h result (created params result w1))
      as [rv [w2 Hr]].
    destruct (auto_test_step_returns cfg h result w2) as [tv [w3 Ht]].
    destruct (auto_merge_step_returns cfg h result tv w3) as [mv [w4 Hm]].
    rewrite (pr_after_create cfg h params w result w1 rv w2 tv w3 mv w4
               Hc Hr Ht Hm).
    assert (Hsteps : extends (created params result w1) w4).
    { eapply extends_trans; [|eapply extends_trans].
      - pose proof (auto_review_step_extends result
                      (created params result w1)) as E.
        rewrite Hr in E. exact E.
      - pose proof (auto_test_step_extends result w2) as E.
        rewrite Ht in E. exact E.
      - pose proof (auto_merge_step_extends result tv w3) as E.
        rewrite Hm in E. exact E. }
    destruct Hsteps as [steps Hsteps].
    assert (Hcreated : exists entry,
              log_history (created params result w1)
              = entry :: log_history w).
    { eexists. cbn. rewrite Hk. reflexivity. }
    destruct Hcreated as [entry Hcreated].
    rewrite Hcreated in Hsteps.
    assert (Hdec : data result = JNull \/ data result <> JNull)
      by (destruct (data result); [left; reflexivity | right; discriminate ..]).
    destruct Hdec as [Hd|Hd].
    + unfold build_response. rewrite Hd. unfold throw.
      eexists (_ :: steps ++ [entry]). split; [discriminate|].
      cbn [snd]. unfold logRequest, modify.
      cbn [snd set_operationLogs log_history].
      rewrite Hsteps, <- app_comm_cons, <- app_assoc. reflexivity.
    + rewrite (build_response_success result rv tv mv w4 Hd). cbn [snd].
      exists (steps ++ [entry]). split; [destruct steps; discriminate|].
      rewrite Hsteps, <- app_assoc. reflexivity.
  - rewrite (pr_after_failed_create cfg h params w err w1 Hc).
    eexists [_]. split; [discriminate|]. cbn. rewrite Hk. reflexivity.
Qed.

(** [token] logs once or, when the expiry is not a valid date, twice. *)
Lemma token_logs params w :
  exists entries,
    entries <> [] /\
    log_history (snd (token cfg h params w)) = entries ++ log_history w.
Proof.
  pose proof (keeps_log_getAccessToken cfg h w) as Hk.
  pose proof (no_exit_getAccessToken cfg h w) as Hne.
  unfold token, try_catch. unfold bind at 1.
  destruct (getAccessToken cfg h w) as [[t|err|c] w1]; cbn [fst snd] in *;
    [| |contradiction].
  - destruct t as [[| | |s| |]|];
      try (eexists [_]; split; [discriminate|]; cbn [throw snd];
           unfold bind, logRequest, modify;
           cbn [snd set_operationLogs log_history]; rewrite Hk; reflexivity).
    unfold bind at 1. unfold logRequest at 1. unfold modify at 1.
    cbn [set_operationLogs tokenExpiresAt].
    destruct (tokenExpiresAt w1) as [e|].
    + destruct (valid_time (Some e)).
      * eexists [_]. split; [discriminate|]. cbn [snd log_history].
        rewrite Hk. reflexivity.
      * eexists [_; _]. split; [discriminate|].
        unfold bind, logRequest, modify.
        cbn [snd set_operationLogs log_history]. rewrite Hk. reflexivity.
    + eexists [_; _]. split; [discriminate|].
      unfold bind, logRequest, modify.
      cbn [snd set_operationLogs log_history]. rewrite Hk. reflexivity.
  - eexists [_]. split; [discriminate|].
    unfold bind, logRequest, modify.
    cbn [snd set_operationLogs log_history]. rewrite Hk. reflexivity.
Qed.

End LogFacts.

(** The method the dispatcher logs a request under: the request's own once
    object and version have been checked, [null] before. *)
Definition logged_method (request : json) : jsval :=
  if is_request_object request && has_version request
  then get "method" request else Some JNull.

(** The [try] block returned or threw an error with a message, and logged
    nothing itself. *)
Definition plain (s : session) (out : outcome (option rpc_result) * session)
  : Prop :=
  log_history (globals (snd out)) = log_history (globals s) /\
  match fst out with
  | Ok _ => True
  | Throw (Err message) => message <> []
  | _ => False
  end.

Section DispatcherLog.

Variable cfg : config.
Variable h : host.
Variable call_member : jsstring -> json -> session -> member_call * session.

Local Notation "'handle'" := (handleRequest cfg h call_member).

(** After the [try] block the dispatcher logs once, whether the block
    returned or threw an error with a message. *)
Lemma handle_logs_once request s :
  match fst (try_block cfg h call_member request s) with
  | Ok _ => True
  | Throw (Err message) => message <> []
  | _ => False
  end ->
  exists entry,
    log_history (globals (snd (handle request s)))
    = entry :: log_history (globals (snd (try_block cfg h call_member
                                            request s))) /\
    log_method entry = logged_method request.
Proof.
  intros Hout. unfold handleRequest. fold (logged_method request).
  destruct (try_block cfg h call_member request s)
    as [[result|[message|r]|c] [b1 w1]]; cbn [fst snd] in *;
    try contradiction.
  - unfold bind at 1. rewrite log_run.
    destruct (is_notification (logged_method request));
      [|destruct (is_literal "shutdown" (logged_method request))];
      (eexists; split; [reflexivity | reflexivity]).
  - unfold bind at 1. rewrite log_run.
    destruct message as [|c message]; [congruence|]. cbn [is_empty].
    unfold bind at 1. cbn [ret].
    destruct (is_notification (logged_method request));
      (eexists; split; [reflexivity | reflexivity]).
Qed.

Lemma handle_plain request s :
  plain s (try_block cfg h call_member request s) ->
  exists entry,
    log_history (globals (snd (handle request s)))
    = entry :: log_history (globals s) /\
    log_method entry = logged_method request.
Proof.
  intros [Hlog Hout].
  destruct (handle_logs_once request s Hout) as [entry [He Hm]].
  exists entry. rewrite He, Hlog. auto.
Qed.

Lemma plain_throw s message :
  message <> [] ->
  plain s (@throw session (option rpc_result) (Err message) s).
Proof. intros H. split; [reflexivity | exact H]. Qed.

Lemma plain_ret s r : plain s (@ret session (option rpc_result) r s).
Proof. split; [reflexivity | exact I]. Qed.

(** [logs] logs nothing and fails, if at all, with a message. *)
Lemma logs_plain params w :
  log_history (snd (logs params w)) = log_history w /\
  match fst (logs params w) with
  | Ok _ => True
  | Throw (Err message) => message <> []
  | _ => False
  end.
Proof.
  unfold logs.
  destruct (default_to 50 (get "limit" params)) as [[| |l| | |]|];
    try (split; [reflexivity | discriminate]).
  destruct ((l <? 1) || (1000 <? l))%Z;
    [split; [reflexivity | discriminate]|].
  destruct (default_to 0 (get "offset" params)) as [[| |o| | |]|];
    try (split; [reflexivity | discriminate]).
  destruct (o <? 0)%Z; split; first [reflexivity | discriminate | exact I].
Qed.

(** [pr] always returns. *)
Lemma pr_returns params w :
  exists payload w', pr cfg h params w = (Ok payload, w').
Proof.
  pose proof (no_exit_createGiteePullRequest cfg h (get "title" params)
                (get "body" params) (get "draft" params) w) as Hne.
  destruct (createGiteePullRequest cfg h (get "title" params)
              (get "body" params) (get "draft" params) w)
    as [[result|err|c] w1] eqn:Hc; cbn [fst] in Hne; [| |contradiction].
  - destruct (auto_review_step_returns cfg h result (created params result w1))
      as [rv [w2 Hr]].
    destruct (auto_test_step_returns cfg h result w2) as [tv [w3 Ht]].
    destruct (auto_merge_step_returns cfg h result tv w3) as [mv [w4 Hm]].
    rewrite (pr_after_create cfg h params w result w1 rv w2 tv w3 mv w4
               Hc Hr Ht Hm).
    unfold build_response. destruct (data result); eexists _, _; reflexivity.
  - rewrite (pr_after_failed_create cfg h params w err w1 Hc).
    eexists _, _; reflexivity.
Qed.

(** [token] returns or throws an error with a message. *)
Lemma token_outcome params w :
  match fst (token cfg h params w) with
  | Ok _ => True
  | Throw (Err message) => message <> []
  | _ => False
  end.
Proof.
  pose proof (no_exit_getAccessToken cfg h w) as Hne.
  unfold token, try_catch. unfold bind at 1.
  destruct (getAccessToken cfg h w) as [[t|err|c] w1]; cbn [fst] in Hne;
    [| |contradiction].
  - destruct t as [[| | |s| |]|]; try (cbn; discriminate).
    unfold bind at 1. unfold logRequest at 1. unfold modify at 1.
    destruct (tokenExpiresAt _) as [e|]; [destruct (valid_time (Some e))|];
      cbn; try exact I; discriminate.
  - cbn. discriminate.
Qed.

Lemma is_method_literal name request :
  is_method name request = true ->
  is_request_object request = true /\ has_version request = true /\
  get "method" request = Some (JStr (js name)).
Proof.
  unfold is_method. intros H.
  apply andb_true_iff in H as [H Hl]. apply andb_true_iff in H as [Ho Hv].
  apply is_literal_eq in Hl. auto.
Qed.

(** The [try] block of a well-formed [tools/call]. *)
Lemma try_block_tools_call request s :
  is_method "tools/call" request = true ->
  try_block cfg h call_member request s
  = tools_call cfg h call_member (get "params" request) s.
Proof.
  intros H. apply is_method_literal in H as [Ho [Hv Hm]].
  unfold try_block. rewrite Ho, Hv, Hm. reflexivity.
Qed.

(** A [tools/call] that does not get to [pr], [token] or another member of
    the server object. *)
Lemma tools_call_plain params s :
  match tool_member cfg params with
  | Some ToolPr | Some ToolToken | Some (OtherMember _) => False
  | _ => True
  end ->
  plain s (tools_call cfg h call_member params s).
Proof.
  unfold tool_member, tools_call. intros Hm.
  destruct (get "name" (safe params)) as [name|];
    [|apply plain_throw; discriminate].
  destruct (truthy name); cbn [negb]; [|apply plain_throw; discriminate].
  destruct (actual_method_name cfg name) as [actual|];
    [|apply plain_throw; discriminate].
  cbn [option_map] in Hm.
  destruct (lookup_member (ToString actual)); try contradiction.
  - (* logs *)
    destruct s as [b w]. unfold bind, lift. cbn [globals initialized].
    pose proof (logs_plain (safe (get "arguments" (safe params))) w)
      as [Hlog Hout].
    destruct (logs _ w) as [[r|[m|rj]|c] w1]; cbn [fst snd] in *;
      try contradiction; split; cbn; auto.
  - apply plain_throw; discriminate.
  - apply plain_throw; discriminate.
  - destruct (initialized s); apply plain_throw; discriminate.
  - apply plain_throw; discriminate.
Qed.

(** The methods that neither call a tool, nor log for themselves, nor end
    the process. *)
Lemma dispatch_plain method params s :
  truthy_val method = true ->
  is_literal "tools/call" method = false ->
  is_literal "ping" method = false ->
  is_literal "notifications/initialized" method = false ->
  is_literal "notifications/exit" method = false ->
  plain s (dispatch cfg h call_member method params s).
Proof.
  intros Ht Hc Hp Hi He. unfold dispatch.
  destruct (is_literal "initialize" method); [split; [reflexivity|exact I]|].
  destruct (is_literal "tools/list" method); [apply plain_ret|].
  destruct (stub_of method); [apply plain_ret|].
  rewrite Hc, Hp, Hi, He.
  destruct (is_literal "shutdown" method); [split; [reflexivity|exact I]|].
  apply plain_throw. discriminate.
Qed.

End DispatcherLog.


(** X22: the branches that log for themselves or end the process.  A
    [ping] and a [notifications/initialized] are logged twice under their
    method, once by their own branch and once by the [finally] block;
    [notifications/exit] calls [process.exit(0)] inside the [try] block,
    so the process ends at once, in the state it was in: neither the
    [finally] block nor anything else logs it. *)
Lemma handleRequest_ping_and_exit
    (cfg : config) (h : host)
    (call_member : jsstring -> json -> session -> member_call * session)
    (request : json) (s : session) :
  (is_method "notifications/exit" request = true ->
   handleRequest cfg h call_member request s = (Exit 0, s)) /\
  (is_method "ping" request = true \/
   is_method "notifications/initialized" request = true ->
   exists dispatcher own,
     log_history (globals (snd (handleRequest cfg h call_member request s)))
       = dispatcher :: own :: log_history (globals s) /\
     log_method dispatcher = get "method" request /\
     log_method own = get "method" request).
Proof.
  split.
  - intros H. apply is_method_literal in H as [Ho [Hv Hm]].
    unfold handleRequest, try_block. rewrite Ho, Hv, Hm. reflexivity.
  - intros [H|H]; apply is_method_literal in H as [Ho [Hv Hm]];
      unfold handleRequest, try_block; rewrite Ho, Hv, Hm;
      destruct s as [b w]; eexists _, _;
      (split; [reflexivity|]); split; reflexivity.
Qed.



(* ================================================================== *)
(** * The in-memory log is a window on everything logged *)
(* ================================================================== *)

(** [operationLogs] holds the newest [MAX_LOGS] of the entries ever passed
    to [logRequest], newest first. *)
Definition log_window (w : world) : Prop :=
  operationLogs w = List.firstn MAX_LOGS (log_history w).

(** A computation keeps a property of the state. *)
Definition preserves {S A : Type} (P : S -> Prop) (m : M S A) : Prop :=
  forall s, P s -> P (snd (m s)).

Section Preserves.

Context {S : Type} (P : S -> Prop).

Lemma preserves_ret {A : Type} (a : A) : preserves P (@ret S A a).
Proof. intros s H; exact H. Qed.

Lemma preserves_throw {A : Type} (e : thrown) : preserves P (@throw S A e).
Proof. intros s H; exact H. Qed.

Lemma preserves_exit {A : Type} (c : Z) :
  preserves P (fun s : S => (@Exit A c, s)).
Proof. intros s H; exact H. Qed.

Lemma preserves_modify (f : S -> S) :
  (forall s, P s -> P (f s)) -> preserves P (modify f).
Proof. intros Hf s H. apply Hf, H. Qed.

Lemma preserves_bind {A B : Type} (m : M S A) (k : A -> M S B) :
  preserves P m -> (forall a, preserves P (k a)) -> preserves P (bind m k).
Proof.
  intros Hm Hk s H. unfold bind. specialize (Hm s H).
  destruct (m s) as [[a|e|c] s1]; cbn [snd] in *; auto. apply Hk, Hm.
Qed.

Lemma preserves_try_catch {A : Type} (m : M S A) (handler : thrown -> M S A) :
  preserves P m -> (forall e, preserves P (handler e)) ->
  preserves P (try_catch m handler).
Proof.
  intros Hm Hh s H. unfold try_catch. specialize (Hm s H).
  destruct (m s) as [[a|e|c] s1]; cbn [snd] in *; auto. apply Hh, Hm.
Qed.

End Preserves.

Lemma preserves_lift {A : Type} (P : world -> Prop) (m : M world A) :
  preserves P m -> preserves (fun s => P (globals s)) (lift m).
Proof.
  intros Hm s H. unfold lift. specialize (Hm (globals s) H).
  destruct (m (globals s)) as [r w1]. exact Hm.
Qed.

Ltac preserves_step :=
  first
    [ apply preserves_ret
    | apply preserves_throw
    | apply preserves_exit
    | apply preserves_bind; [|intros]
    | apply preserves_try_catch; [|intros]
    | match goal with
      | |- preserves _ (modify _) =>
          apply preserves_modify; let H := fresh in intros ? H; exact H
      | |- preserves _ (if ?b then _ else _) => destruct b
      | |- preserves _ (match ?x with _ => _ end) => destruct x
      | |- preserves _ (let (_, _) := ?x in _) => destruct x
      end ].

(** [firstn] of a list that was already cut to the same length. *)
Lemma firstn_cons_firstn {A : Type} (n : nat) (x : A) (l : list A) :
  List.firstn n (x :: List.firstn n l) = List.firstn n (x :: l).
Proof.
  destruct n as [|n]; [reflexivity|].
  change (x :: List.firstn n (List.firstn (S n) l) = x :: List.firstn n l).
  rewrite List.firstn_firstn. do 2 f_equal. lia.
Qed.

Lemma firstn_length_bound {A : Type} (n : nat) (l : list A) :
  (List.length (List.firstn n l) <= n)%nat.
Proof. rewrite List.length_firstn. lia. Qed.

Section Window.

Variable cfg : config.
Variable h : host.

(** [unshift] followed by [splice(MAX_LOGS)] when the array has grown past
    [MAX_LOGS] is: keep the first [MAX_LOGS] of the array with the new
    entry in front. *)
Lemma logRequest_operationLogs method params result error w :
  let logEntry :=
    {| log_id := clock w; log_method := method; log_params := params;
       log_result := result;
       log_error := if truthy_val error then error else None;
       log_created_at := clock w |} in
  operationLogs (snd (logRequest method params result error w))
  = List.firstn MAX_LOGS (logEntry :: operationLogs w) /\
  log_history (snd (logRequest method params result error w))
  = logEntry :: log_history w.
Proof.
  intros logEntry. unfold logRequest, modify.
  cbn [snd set_operationLogs operationLogs log_history].
  fold logEntry. split; [|reflexivity].
  destruct (MAX_LOGS <? List.length (logEntry :: operationLogs w))%nat eqn:E;
    [reflexivity|].
  apply Nat.ltb_ge in E. symmetry. apply List.firstn_all2. exact E.
Qed.

Lemma preserves_logRequest method params result error :
  preserves log_window (logRequest method params result error).
Proof.
  intros w Hw. unfold log_window in *.
  destruct (logRequest_operationLogs method params result error w) as [Ho Hh].
  rewrite Ho, Hh, Hw. apply firstn_cons_firstn.
Qed.

Lemma preserves_console msg : preserves log_window (console msg).
Proof. unfold console. preserves_step. Qed.

Lemma preserves_console_all msgs : preserves log_window (console_all msgs).
Proof. unfold console_all. preserves_step. Qed.

Lemma preserves_send rq : preserves log_window (send h rq).
Proof. intros w Hw. exact Hw. Qed.

Lemma preserves_getAccessToken_response now r :
  preserves log_window (getAccessToken_response h now r).
Proof. unfold getAccessToken_response. repeat preserves_step. Qed.

Lemma preserves_getAccessToken : preserves log_window (getAccessToken cfg h).
Proof.
  intros w Hw. unfold getAccessToken.
  destruct (getAccessToken_start w); [exact Hw|].
  apply (preserves_bind log_window (send h (oauth_request cfg)));
    [apply preserves_send | intros r; apply preserves_getAccessToken_response
    | exact Hw].
Qed.

Lemma preserves_makeGiteeRequest method path body accessToken :
  preserves log_window (makeGiteeRequest cfg h method path body accessToken).
Proof.
  unfold makeGiteeRequest.
  apply preserves_bind.
  - destruct (truthy_val accessToken);
      [apply preserves_ret | apply preserves_getAccessToken].
  - intros token. apply preserves_bind; [apply preserves_send|].
    intros r. repeat preserves_step.
Qed.

Lemma preserves_reviewGiteePullRequest prNumber force :
  preserves log_window (reviewGiteePullRequest cfg h prNumber force).
Proof.
  unfold reviewGiteePullRequest. destruct (invalid_pr_number prNumber);
    [apply preserves_throw | apply preserves_makeGiteeRequest].
Qed.

Lemma preserves_testGiteePullRequest prNumber force :
  preserves log_window (testGiteePullRequest cfg h prNumber force).
Proof.
  unfold testGiteePullRequest. destruct (invalid_pr_number prNumber);
    [apply preserves_throw | apply preserves_makeGiteeRequest].
Qed.

Lemma preserves_mergeGiteePullRequest prNumber :
  preserves log_window (mergeGiteePullRequest cfg h prNumber).
Proof.
  unfold mergeGiteePullRequest. destruct (invalid_pr_number prNumber);
    [apply preserves_throw | apply preserves_makeGiteeRequest].
Qed.

Lemma preserves_createGiteePullRequest title body draft :
  preserves log_window (createGiteePullRequest cfg h title body draft).
Proof.
  unfold createGiteePullRequest. destruct (invalid_title title);
    [apply preserves_throw|].
  destruct (process_labels (LABELS_ENV cfg)).
  apply preserves_bind; [apply preserves_console_all|].
  intros _. apply preserves_makeGiteeRequest.
Qed.

Lemma preserves_attempt k prNumber params (call : M world api_response) :
  preserves log_window call ->
  preserves log_window (attempt k prNumber params call).
Proof.
  intros Hc. unfold attempt.
  apply preserves_try_catch.
  - apply preserves_bind; [apply preserves_console|]. intros _.
    apply preserves_bind; [exact Hc|]. intros r.
    apply preserves_bind; [apply preserves_console|]. intros _.
    apply preserves_bind; [apply preserves_logRequest|]. intros _.
    apply preserves_ret.
  - intros err.
    apply preserves_bind; [apply preserves_console|]. intros _.
    apply preserves_bind; [apply preserves_logRequest|]. intros _.
    apply preserves_ret.
Qed.

Lemma preserves_pr params : preserves log_window (pr cfg h params).
Proof.
  unfold pr. apply preserves_try_catch.
  - apply preserves_bind; [apply preserves_createGiteePullRequest|].
    intros result.
    apply preserves_bind; [apply preserves_logRequest|]. intros _.
    apply preserves_bind.
    { unfold auto_review_step.
      destruct (AUTO_REVIEW cfg && has_pr_number result);
        [apply preserves_attempt, preserves_reviewGiteePullRequest
        | apply preserves_ret]. }
    intros rv. apply preserves_bind.
    { unfold auto_test_step.
      destruct (AUTO_TEST cfg && has_pr_number result);
        [apply preserves_attempt, preserves_testGiteePullRequest
        | apply preserves_ret]. }
    intros tv. apply preserves_bind.
    { unfold auto_merge_step.
      destruct (AUTO_MERGE cfg && has_pr_number result);
        [|apply preserves_ret].
      destruct (negb (AUTO_TEST cfg) || is_some tv);
        [apply preserves_attempt, preserves_mergeGiteePullRequest|].
      apply preserves_bind; [apply preserves_console | intros _].
      apply preserves_ret. }
    intros mv. unfold build_response. destruct (data result);
      first [apply preserves_throw | apply preserves_ret].
  - intros err.
    apply preserves_bind; [apply preserves_logRequest|]. intros _.
    apply preserves_ret.
Qed.

Lemma preserves_token params : preserves log_window (token cfg h params).
Proof.
  unfold token. apply preserves_try_catch.
  - apply preserves_bind; [apply preserves_getAccessToken|].
    intros [[| | |s| |]|]; try apply preserves_throw.
    apply preserves_bind; [apply preserves_logRequest|]. intros _.
    intros w Hw. destruct (tokenExpiresAt w) as [e|];
      [destruct (valid_time (Some e))|]; exact Hw.
  - intros err.
    apply preserves_bind; [apply preserves_logRequest|]. intros _.
    apply preserves_throw.
Qed.

Lemma preserves_logs params : preserves log_window (logs params).
Proof.
  unfold logs.
  destruct (default_to 50 (get "limit" params)) as [[| |l| | |]|];
    try apply preserves_throw.
  destruct ((l <? 1) || (1000 <? l))%Z; [apply preserves_throw|].
  destruct (default_to 0 (get "offset" params)) as [[| |o| | |]|];
    try apply preserves_throw.
  destruct (o <? 0)%Z; [apply preserves_throw|].
  intros w Hw. exact Hw.
Qed.

Variable call_member : jsstring -> json -> session -> member_call * session.

(** Whatever a call of another member of the server object does, it logs
    through [logRequest] if at all. *)
Hypothesis call_member_window :
  forall key args s,
    log_window (globals s) ->
    log_window (globals (snd (call_member key args s))).

Let session_window (s : session) : Prop := log_window (globals s).

Lemma preserves_log method params result error :
  preserves session_window (log method params result error).
Proof.
  unfold log. apply (preserves_lift log_window), preserves_logRequest.
Qed.

Lemma preserves_tools_call params :
  preserves session_window (tools_call cfg h call_member params).
Proof.
  unfold tools_call.
  destruct (get "name" (safe params)) as [name|]; [|apply preserves_throw].
  destruct (negb (truthy name)); [apply preserves_throw|].
  destruct (actual_method_name cfg name) as [actual|];
    [|apply preserves_throw].
  destruct (lookup_member (ToString actual)).
  - apply preserves_bind;
      [apply (preserves_lift log_window), preserves_pr|].
    intros [r|f]; [destruct (is_literal "pr" (Some actual))|];
      apply preserves_ret.
  - apply preserves_bind;
      [apply (preserves_lift log_window), preserves_token|].
    intros r. apply preserves_ret.
  - apply preserves_bind;
      [apply (preserves_lift log_window), preserves_logs|].
    intros r. apply preserves_ret.
  - apply preserves_throw.
  - apply preserves_throw.
  - intros s Hs. destruct (initialized s); exact Hs.
  - intros s Hs. pose proof (call_member_window key
                               (safe (get "arguments" (safe params))) s Hs)
      as Hc.
    destruct (call_member key _ s) as [[v|message] s1]; exact Hc.
  - apply preserves_throw.
Qed.

Lemma preserves_dispatch method params :
  preserves session_window (dispatch cfg h call_member method params).
Proof.
  unfold dispatch.
  destruct (is_literal "initialize" method).
  { apply preserves_bind; [|intros; apply preserves_ret].
    apply preserves_modify. intros s Hs. exact Hs. }
  destruct (is_literal "tools/list" method); [apply preserves_ret|].
  destruct (stub_of method); [apply preserves_ret|].
  destruct (is_literal "tools/call" method); [apply preserves_tools_call|].
  destruct (is_literal "ping" method).
  { apply preserves_bind; [apply preserves_log | intros; apply preserves_ret]. }
  destruct (is_literal "shutdown" method).
  { apply preserves_bind; [|intros; apply preserves_ret].
    apply preserves_modify. intros s Hs. exact Hs. }
  destruct (is_literal "notifications/initialized" method).
  { apply preserves_bind; [apply preserves_log | intros; apply preserves_ret]. }
  destruct (is_literal "notifications/exit" method);
    [apply preserves_exit | apply preserves_throw].
Qed.

Lemma preserves_try_block request :
  preserves session_window (try_block cfg h call_member request).
Proof.
  unfold try_block.
  destruct (negb (is_request_object request)); [apply preserves_throw|].
  destruct (negb (has_version request)); [apply preserves_throw|].
  destruct (negb (truthy_val (get "method" request))
            || negb (is_string (get "method" request)));
    [apply preserves_throw | apply preserves_dispatch].
Qed.

Lemma preserves_handleRequest request :
  preserves session_window (handleRequest cfg h call_member request).
Proof.
  intros s Hs. unfold handleRequest.
  pose proof (preserves_try_block request s Hs) as Ht.
  destruct (try_block cfg h call_member request s)
    as [[result|[message|r]|c] s1]; cbn [snd] in Ht.
  - revert s1 Ht. apply preserves_bind; [apply preserves_log|].
    intros _. repeat preserves_step.
  - revert s1 Ht. apply preserves_bind; [apply preserves_log|].
    intros _. apply preserves_bind.
    + destruct (is_empty message); [apply preserves_log | apply preserves_ret].
    + intros _. repeat preserves_step.
  - revert s1 Ht. apply preserves_bind; [apply preserves_log|].
    intros _. apply preserves_bind; [apply preserves_log|].
    intros _. repeat preserves_step.
  - exact Ht.
Qed.

(** X1: whatever request the dispatcher handles, and however it ends,
    [operationLogs] afterwards is the newest [MAX_LOGS] (1000) of all the
    entries logged so far, newest first: no entry is dropped before the
    log is full, the oldest ones are dropped after, and the log never
    holds more than [MAX_LOGS] entries. *)
Theorem operationLogs_newest_entries (request : json) (s : session) :
  log_window (globals s) ->
  let after := globals (snd (handleRequest cfg h call_member request s)) in
  operationLogs after = List.firstn MAX_LOGS (log_history after) /\
  (List.length (operationLogs after) <= MAX_LOGS)%nat.
Proof.
  intros Hs after. subst after.
  pose proof (preserves_handleRequest request s Hs) as Hw.
  unfold session_window, log_window in Hw.
  split; [exact Hw|]. rewrite Hw. apply firstn_length_bound.
Qed.

End Window.

Lemma operationLogs_newest_entries_witness :
  let cfg := Fixture.config_of false false false in
  let h := Fixture.host_of Fixture.all_fine in
  let s := new_session (initial_world 1000) in
  let request := Fixture.request_of 1 "tools/call"
                   (Some (obj [("name", Some (JStr (js "token")))])) in
  let after := globals (snd (handleRequest cfg h Fixture.no_member_calls
                               request s)) in
  log_window (globals s) /\
  List.length (log_history after) = 2%nat /\
  operationLogs after = List.firstn MAX_LOGS (log_history after) /\
  (List.length (operationLogs after) <= MAX_LOGS)%nat.
Proof.
  intros cfg h s request after.
  assert (Hs : log_window (globals s)) by reflexivity.
  split; [exact Hs|]. split; [reflexivity|].
  exact (operationLogs_newest_entries cfg h Fixture.no_member_calls
           (fun key args s0 H => H) request s Hs).
Defined.

(* ================================================================== *)
(** * The [logs] tool: pages of the in-memory log (lines 1676-1697) *)
(* ================================================================== *)

Lemma firstn_add {A : Type} (a b : nat) (l : list A) :
  List.firstn (a + b) l = List.firstn a l ++ List.firstn b (List.skipn a l).
Proof.
  revert l. induction a as [|a IH]; intros l; [reflexivity|].
  destruct l as [|x l]; cbn [Nat.add List.firstn List.skipn List.app].
  - destruct b; reflexivity.
  - rewrite IH. reflexivity.
Qed.

Lemma logs_valid params l o w :
  default_to 50 (get "limit" params) = Some (JNum l) ->
  default_to 0 (get "offset" params) = Some (JNum o) ->
  (1 <= l <= 1000)%Z -> (0 <= o)%Z ->
  logs params w =
    (Ok {| logs_total := List.length (operationLogs w);
           logs_limit := l; logs_offset := o;
           logs_page := List.firstn (Z.to_nat l)
                          (List.skipn (Z.to_nat o) (operationLogs w)) |}, w).
Proof.
  intros Hl Ho Hlr Hor. unfold logs. rewrite Hl, Ho.
  replace (l <? 1)%Z with false by (symmetry; apply Z.ltb_ge; lia).
  replace (1000 <? l)%Z with false by (symmetry; apply Z.ltb_ge; lia).
  replace (o <? 0)%Z with false by (symmetry; apply Z.ltb_ge; lia).
  reflexivity.
Qed.

(** X2: paging through the log loses and repeats nothing.  The page at
    offset [o] of size [l1] followed by the page at offset [o + l1] of size
    [l2] is the slice of [l1 + l2] entries at offset [o]; a page never has
    more entries than its limit, it has exactly
    [min limit (total - offset)] of them, and the call leaves the state as
    it was. *)
Theorem logs_consecutive_pages (first second : json) (l1 l2 o : Z) (w : world) :
  get "limit" first = Some (JNum l1) ->
  get "offset" first = Some (JNum o) ->
  get "limit" second = Some (JNum l2) ->
  get "offset" second = Some (JNum (o + l1)) ->
  (1 <= l1 <= 1000)%Z -> (1 <= l2 <= 1000)%Z -> (0 <= o)%Z ->
  exists r1 r2,
    logs first w = (Ok r1, w) /\
    logs second w = (Ok r2, w) /\
    logs_page _ r1 ++ logs_page _ r2
      = List.firstn (Z.to_nat (l1 + l2))
          (List.skipn (Z.to_nat o) (operationLogs w)) /\
    List.length (logs_page _ r1)
      = Nat.min (Z.to_nat l1)
                (List.length (operationLogs w) - Z.to_nat o) /\
    logs_total _ r1 = List.length (operationLogs w) /\
    logs_total _ r2 = List.length (operationLogs w).
Proof.
  intros Hl1 Ho1 Hl2 Ho2 Hr1 Hr2 Hor.
  assert (H1 := logs_valid first l1 o w).
  assert (H2 := logs_valid second l2 (o + l1)%Z w).
  rewrite Hl1, Ho1 in H1. rewrite Hl2, Ho2 in H2.
  specialize (H1 eq_refl eq_refl Hr1 Hor).
  specialize (H2 eq_refl eq_refl Hr2 ltac:(lia)).
  eexists _, _. split; [exact H1|]. split; [exact H2|].
  cbn [logs_page logs_total].
  split; [|split; [|split; reflexivity]].
  - rewrite !Z2Nat.inj_add by lia.
    rewrite (Nat.add_comm (Z.to_nat o) (Z.to_nat l1)).
    rewrite <- List.skipn_skipn. symmetry. apply firstn_add.
  - rewrite List.length_firstn, List.length_skipn. reflexivity.
Qed.

(** X3: whatever the arguments, [logs] changes nothing and either throws
    one of its two validation errors or returns a page taken from
    [operationLogs]: its limit lies between 1 and 1000, its offset is not
    negative, it holds no more entries than the limit, every entry of it
    is an entry of the log, and [total] is the length of the log. *)
Theorem logs_read_only (params : json) (w : world) :
  snd (logs params w) = w /\
  match fst (logs params w) with
  | Ok r =>
      (1 <= logs_limit _ r <= 1000)%Z /\ (0 <= logs_offset _ r)%Z /\
      (List.length (logs_page _ r) <= Z.to_nat (logs_limit _ r))%nat /\
      List.incl (logs_page _ r) (operationLogs w) /\
      logs_total _ r = List.length (operationLogs w)
  | Throw e => e = invalid_limit \/ e = invalid_offset
  | Exit _ => False
  end.
Proof.
  unfold logs.
  destruct (default_to 50 (get "limit" params)) as [[| |l| | |]|];
    try (split; [reflexivity | left; reflexivity]).
  destruct ((l <? 1) || (1000 <? l))%Z eqn:El;
    [split; [reflexivity | left; reflexivity]|].
  destruct (default_to 0 (get "offset" params)) as [[| |o| | |]|];
    try (split; [reflexivity | right; reflexivity]).
  destruct (o <? 0)%Z eqn:Eo; [split; [reflexivity | right; reflexivity]|].
  apply orb_false_iff in El as [El1 El2].
  apply Z.ltb_ge in El1, El2, Eo.
  split; [reflexivity|]. cbn [fst logs_limit logs_offset logs_page logs_total].
  repeat split; try lia.
  - apply firstn_length_bound.
  - intros e He.
    rewrite <- (List.firstn_skipn (Z.to_nat o) (operationLogs w)).
    apply List.in_or_app. right.
    rewrite <- (List.firstn_skipn (Z.to_nat l)
                  (List.skipn (Z.to_nat o) (operationLogs w))).
    apply List.in_or_app. left. exact He.
Qed.

Lemma logs_consecutive_pages_witness :
  let cfg := Fixture.config_of false false false in
  let h := Fixture.host_of Fixture.all_fine in
  let w := globals (snd (handleRequest cfg h Fixture.no_member_calls
                           (Fixture.request_of 1 "ping" None)
                           (new_session (initial_world 1000)))) in
  let page (o : Z) := obj [("limit", Some (JNum 1)); ("offset", Some (JNum o))] in
  List.length (operationLogs w) = 2%nat /\
  exists r1 r2,
    logs (page 0%Z) w = (Ok r1, w) /\
    logs (page 1%Z) w = (Ok r2, w) /\
    logs_page _ r1 ++ logs_page _ r2 = operationLogs w.
Proof.
  intros cfg h w page.
  split; [reflexivity|].
  destruct (logs_consecutive_pages (page 0%Z) (page 1%Z) 1 1 0 w
              eq_refl eq_refl eq_refl eq_refl
              ltac:(lia) ltac:(lia) ltac:(lia))
    as [r1 [r2 [H1 [H2 [Hcat _]]]]].
  exists r1, r2. split; [exact H1|]. split; [exact H2|].
  rewrite Hcat. reflexivity.
Defined.

(* ================================================================== *)
(** * More on the token cache and the [token] tool *)
(* ================================================================== *)

Section TokenFacts.

Variable cfg : config.
Variable h : host.

(** The callback half, when it fails: the cache is left alone. *)
Lemma getAccessToken_response_throw now r w e w' :
  getAccessToken_response h now r w = (Throw e, w') ->
  w' = w /\
  match r with
  | NetError message => e = request_failed message
  | NetResponse status _ => exists rj, e = Rejected rj /\ rej_statusCode rj = status
  end.
Proof.
  unfold getAccessToken_response.
  destruct r as [message|status body].
  - intros H. inversion H. auto.
  - destruct (JSON_parse h body) as [parsed|message].
    + destruct parsed as [|b|z|s|items|fields];
        try (destruct (is_success status);
             [ intros H; discriminate H
             | intros H; inversion H; split;
               [reflexivity | eexists; split; reflexivity] ]).
      intros H; inversion H. split; [reflexivity|].
      eexists; split; reflexivity.
    + intros H; inversion H. split; [reflexivity|].
      eexists; split; reflexivity.
Qed.

(** The callback half, when it succeeds: what it returns is what it put
    into the cache. *)
Lemma getAccessToken_response_ok now r w t w' :
  getAccessToken_response h now r w = (Ok t, w') ->
  cachedAccessToken w' = t /\ requests w' = requests w /\
  operationLogs w' = operationLogs w.
Proof.
  unfold getAccessToken_response.
  destruct r as [message|status body]; [discriminate|].
  destruct (JSON_parse h body) as [parsed|message]; [|discriminate].
  destruct parsed as [|b|z|s|items|fields]; try discriminate;
    (destruct (is_success status); [|discriminate]);
    intros H; inversion H; auto.
Qed.

Lemma getAccessToken_ok w t w' :
  getAccessToken cfg h w = (Ok t, w') ->
  cachedAccessToken w' = t /\
  (requests w' = requests w \/ requests w' = oauth_request cfg :: requests w) /\
  operationLogs w' = operationLogs w.
Proof.
  unfold getAccessToken, getAccessToken_start.
  destruct (truthy_val (cachedAccessToken w)
            && num_gt (tokenExpiresAt w) (clock w + 5 * 60 * 1000)).
  - intros H; inversion H; auto.
  - unfold bind, send. intros H.
    apply getAccessToken_response_ok in H as [Hc [Hr Ho]].
    split; [exact Hc|]. split; [right; exact Hr | exact Ho].
Qed.

Lemma getAccessToken_throw w e w' :
  getAccessToken cfg h w = (Throw e, w') ->
  cachedAccessToken w' = cachedAccessToken w /\
  tokenExpiresAt w' = tokenExpiresAt w /\
  operationLogs w' = operationLogs w /\
  requests w' = oauth_request cfg :: requests w /\
  match net (upstream h (requests w) (oauth_request cfg)) with
  | NetError message => e = request_failed message
  | NetResponse status _ =>
      exists rj, e = Rejected rj /\ rej_statusCode rj = status
  end.
Proof.
  unfold getAccessToken.
  destruct (getAccessToken_start w) as [tok|now]; [discriminate|].
  unfold bind, send. intros H.
  apply getAccessToken_response_throw in H as [Hw He]. subst w'.
  repeat split; try reflexivity. exact He.
Qed.


(** X5: what a successful call returns is what it leaves in the cache, and
    while that token stays usable (non-empty, expiring more than five
    minutes ahead) the next call returns the same token, sends nothing and
    changes nothing. *)
Theorem getAccessToken_reuse (w : world) (t : jsval) (w1 : world) :
  getAccessToken cfg h w = (Ok t, w1) ->
  token_fresh w1 ->
  cachedAccessToken w1 = t /\
  getAccessToken cfg h w1 = (Ok t, w1).
Proof.
  intros Hcall Hfresh.
  destruct (getAccessToken_ok w t w1 Hcall) as [Hc _].
  split; [exact Hc|].
  unfold getAccessToken. rewrite (token_fresh_start w1 Hfresh), Hc.
  reflexivity.
Qed.


End TokenFacts.


Lemma getAccessToken_reuse_witness :
  let cfg := Fixture.config_of false false false in
  let h := Fixture.host_of Fixture.all_fine in
  let w := initial_world 1000 in
  let w1 := snd (getAccessToken cfg h w) in
  requests w1 = [oauth_request cfg] /\
  token_fresh w1 /\
  getAccessToken cfg h w1 = (Ok (Some (JStr (js "tok-1234567890"))), w1).
Proof.
  intros cfg h w w1.
  assert (Hrun : getAccessToken cfg h w
                 = (Ok (Some (JStr (js "tok-1234567890"))), w1))
    by reflexivity.
  assert (Hfresh : token_fresh w1).
  { split; [reflexivity|]. exists 7201000%Z. split; [reflexivity|].
    vm_compute. reflexivity. }
  split; [reflexivity|]. split; [exact Hfresh|].
  apply (getAccessToken_reuse cfg h w _ w1 Hrun Hfresh).
Defined.

(* ================================================================== *)
(** * The requests to the API *)
(* ================================================================== *)

(** The request [makeGiteeRequest] sends: the token goes into the query
    string and the body, if any, is the JSON text of [data]. *)
Definition api_request (method : http_method) (path : endpoint)
                       (token : jsval) (body : payload) : http_request :=
  {| req_method := method; req_endpoint := path;
     req_access_token := token; req_payload := body |}.

Section RequestFacts.

Variable cfg : config.
Variable h : host.

(** How a call of [makeGiteeRequest] without a token of its own can end. *)
Lemma makeGiteeRequest_cases method path body w o w' :
  makeGiteeRequest cfg h method path body None w = (o, w') ->
  let api := api_request method path (cachedAccessToken w') body in
  operationLogs w' = operationLogs w /\
  match o with
  | Ok r =>
      is_success (statusCode r) = true /\
      (requests w' = api :: requests w \/
       requests w' = api :: oauth_request cfg :: requests w)
  | Throw e =>
      exists rj, e = Rejected rj /\
        (requests w' = oauth_request cfg :: requests w \/
         (is_success (rej_statusCode rj) = false /\
          (requests w' = api :: requests w \/
           requests w' = api :: oauth_request cfg :: requests w)))
  | Exit _ => False
  end.
Proof.
  unfold makeGiteeRequest. cbn [truthy_val]. unfold bind at 1.
  destruct (getAccessToken cfg h w) as [[t|e|c] w1] eqn:Hg.
  - apply getAccessToken_ok in Hg as [Hc [Hr Ho]].
    unfold bind at 1, send. fold (api_request method path t body).
    set (w2 := set_network w1 _ _).
    assert (Hsent :
      requests w2 = api_request method path (cachedAccessToken w2) body
                    :: requests w \/
      requests w2 = api_request method path (cachedAccessToken w2) body
                    :: oauth_request cfg :: requests w).
    { subst w2. cbn [set_network requests cachedAccessToken]. rewrite Hc.
      destruct Hr as [Hr|Hr]; rewrite Hr; auto. }
    assert (Hlogs : operationLogs w2 = operationLogs w) by exact Ho.
    clearbody w2.
    destruct (net _) as [message|status data].
    { intros H; inversion H; subst. split; [exact Hlogs|].
      eexists. split; [reflexivity|]. right. split; [reflexivity|exact Hsent]. }
    destruct (is_success status) eqn:Hs; cbn [andb].
    + destruct (is_empty data || JsString.eqb (trim data) []);
        [|destruct (JSON_parse h data) as [parsed|message]];
        intros H; inversion H; subst; (split; [exact Hlogs|]);
        (split; [exact Hs | exact Hsent]).
    + destruct (JSON_parse h data) as [[| | | | |]|message];
        intros H; inversion H; subst; (split; [exact Hlogs|]);
        (eexists; split; [reflexivity|]; right; split; [exact Hs|]);
        exact Hsent.
  - apply getAccessToken_throw in Hg as [_ [_ [Ho [Hr He]]]].
    intros H; inversion H; subst. split; [exact Ho|].
    destruct (net _) as [message|status data].
    + rewrite He. eexists. split; [reflexivity|]. left. exact Hr.
    + destruct He as [rj [He _]]. rewrite He. eexists.
      split; [reflexivity|]. left. exact Hr.
  - pose proof (no_exit_getAccessToken cfg h w) as Hne.
    rewrite Hg in Hne. contradiction.
Qed.


(** Something is sent whenever [makeGiteeRequest] is entered. *)
Lemma makeGiteeRequest_sends method path body w :
  exists sent,
    sent <> [] /\
    requests (snd (makeGiteeRequest cfg h method path body None w))
    = sent ++ requests w.
Proof.
  pose proof (makeGiteeRequest_cases method path body w) as Hc.
  destruct (makeGiteeRequest cfg h method path body None w) as [o w'].
  destruct (Hc o w' eq_refl) as [_ Hm]. cbn [snd].
  destruct o as [r|e|c]; [| |contradiction].
  - destruct Hm as [_ [Hr|Hr]]; rewrite Hr;
      [eexists [_] | eexists [_; _]]; (split; [discriminate | reflexivity]).
  - destruct Hm as [rj [_ [Hr|[_ [Hr|Hr]]]]]; rewrite Hr;
      [eexists [_] | eexists [_] | eexists [_; _]];
      (split; [discriminate | reflexivity]).
Qed.

Lemma invalid_pr_number_false prNumber :
  invalid_pr_number prNumber = false <->
  exists n, prNumber = Some (JNum n) /\ n <> 0%Z.
Proof.
  unfold invalid_pr_number. split.
  - destruct prNumber as [[| |n| | |]|]; cbn; try discriminate;
      try (rewrite orb_true_r; discriminate).
    rewrite orb_false_r, negb_false_iff, negb_true_iff. intros H.
    exists n. split; [reflexivity|]. apply Z.eqb_neq. exact H.
  - intros [n [-> Hn]]. cbn. apply Z.eqb_neq in Hn. rewrite Hn. reflexivity.
Qed.


Lemma draft_flag_true draft :
  draft_flag draft = true <->
  draft = Some (JBool true) \/ draft = Some (JStr (js "true")).
Proof.
  unfold draft_flag. split.
  - destruct draft as [[|[|]| |s| |]|]; cbn -[js]; try discriminate; auto.
    destruct (JsString.eqb s (js "true")) eqn:E.
    + apply JsString.eqb_eq in E. subst s. auto.
    + cbn [orb]. destruct (JsString.eqb s (js "false")); discriminate.
  - intros [->| ->]; reflexivity.
Qed.


End RequestFacts.


(* ================================================================== *)
(** * Lists of names, the repository name and the tool prefix *)
(* ================================================================== *)

Definition comma : N := N_of_ascii ","%char.

(** A name as the API expects it: not empty, no white space around it, no
    comma in it. *)
Definition clean_name (name : jsstring) : Prop :=
  name <> [] /\ trim name = name /\ ~ List.In comma name.

Lemma split_no_sep (sep : N) (s : jsstring) :
  List.Forall (fun piece => ~ List.In sep piece) (split sep s).
Proof.
  induction s as [|c s IH]; cbn [split].
  - constructor; [intros []|constructor].
  - destruct (N.eqb c sep) eqn:E.
    + constructor; [intros []|exact IH].
    + apply N.eqb_neq in E.
      destruct (split sep s) as [|piece rest].
      * constructor; [|constructor]. intros [H|[]]. congruence.
      * inversion IH as [|? ? Hp Hr]; subst.
        constructor; [|exact Hr]. intros [H|H]; [congruence | exact (Hp H)].
Qed.

Lemma split_one (sep : N) (p : jsstring) :
  ~ List.In sep p -> split sep p = [p].
Proof.
  induction p as [|c p IH]; intros Hn; [reflexivity|].
  cbn [split].
  destruct (N.eqb c sep) eqn:E.
  - apply N.eqb_eq in E. elim Hn. left. exact E.
  - rewrite IH; [reflexivity|]. intros H. apply Hn. right. exact H.
Qed.

Lemma split_app (sep : N) (p r : jsstring) :
  ~ List.In sep p -> split sep (p ++ sep :: r) = p :: split sep r.
Proof.
  induction p as [|c p IH]; intros Hn.
  - cbn [List.app split]. rewrite N.eqb_refl. reflexivity.
  - cbn [List.app split].
    destruct (N.eqb c sep) eqn:E.
    + apply N.eqb_eq in E. elim Hn. left. exact E.
    + rewrite IH; [reflexivity|]. intros H. apply Hn. right. exact H.
Qed.

Lemma drop_while_In (p : N -> bool) (s : jsstring) (c : N) :
  List.In c (drop_while p s) -> List.In c s.
Proof.
  induction s as [|x s IH]; cbn [drop_while]; [auto|].
  destruct (p x); [intros H; right; exact (IH H) | auto].
Qed.

Lemma trim_In (s : jsstring) (c : N) : List.In c (trim s) -> List.In c s.
Proof.
  unfold trim, trimEnd, trimStart. intros H.
  apply List.in_rev in H. apply drop_while_In in H.
  apply List.in_rev in H. apply drop_while_In in H. exact H.
Qed.

Lemma split_names_clean_all (s : jsstring) :
  List.Forall clean_name (split_names s).
Proof.
  unfold split_names. apply List.Forall_forall. intros name Hin.
  apply List.filter_In in Hin as [Hin Hne].
  apply List.in_map_iff in Hin as [piece [Hp Hin]]. subst name.
  split; [|split].
  - apply negb_true_iff, JsString.eqb_neq in Hne. exact Hne.
  - apply trim_idem.
  - intros Hc. apply trim_In in Hc.
    pose proof (split_no_sep comma s) as Hf.
    rewrite List.Forall_forall in Hf. exact (Hf piece Hin Hc).
Qed.

Lemma trim_blank_iff (s : jsstring) :
  negb (is_empty s) && negb (JsString.eqb (trim s) []) = false <->
  trim s = [].
Proof.
  destruct s as [|c s]; cbn [is_empty negb andb].
  - split; reflexivity.
  - rewrite negb_false_iff. apply JsString.eqb_eq.
Qed.

(** X10: the assignees and testers sent with a new pull request.  The
    field is left out exactly when the environment variable is empty or
    blank; otherwise every name in it is not empty, has no white space
    around it and contains no comma.  (The list itself may be empty, as
    for [","].) *)
Theorem optional_names_clean (s : jsstring) :
  match optional_names s with
  | Some names => trim s <> [] /\ List.Forall clean_name names
  | None => trim s = []
  end.
Proof.
  unfold optional_names.
  destruct (negb (is_empty s) && negb (JsString.eqb (trim s) [])) eqn:E.
  - split; [|apply split_names_clean_all].
    intros Hb. apply trim_blank_iff in Hb. congruence.
  - apply trim_blank_iff. exact E.
Qed.

Lemma split_join (names : list jsstring) :
  names <> [] ->
  List.Forall (fun name => ~ List.In comma name) names ->
  split comma (join (js ",") names) = names.
Proof.
  intros Hne Hall. destruct names as [|first rest]; [congruence|]. clear Hne.
  revert first Hall. induction rest as [|second rest IH]; intros first Hall.
  - cbn [join List.flat_map]. rewrite List.app_nil_r.
    apply split_one. inversion Hall; assumption.
  - inversion Hall as [|? ? Hfirst Hrest]; subst.
    cbn [join List.flat_map]. rewrite <- List.app_assoc.
    change (js "," ++ second ++ List.flat_map (fun q => js "," ++ q) rest)
      with (comma :: join (js ",") (second :: rest)).
    rewrite split_app by exact Hfirst.
    rewrite IH by exact Hrest. reflexivity.
Qed.

(** X11: splitting undoes joining.  A list of clean names written as one
    comma-separated string, the way the environment variables [assignees],
    [testers] and [labels] carry them, is read back as the same list, in
    the same order. *)
Theorem split_names_join (names : list jsstring) :
  List.Forall clean_name names ->
  split_names (join (js ",") names) = names.
Proof.
  intros Hall. unfold split_names.
  destruct names as [|first rest]; [reflexivity|].
  fold comma.
  rewrite split_join;
    [|discriminate
     |eapply List.Forall_impl; [|exact Hall]; intros n [_ [_ H]]; exact H].
  induction Hall as [|name names [Hne [Ht _]] _ IH]; [reflexivity|].
  cbn [List.map List.filter]. rewrite Ht.
  apply JsString.eqb_neq in Hne. rewrite Hne. cbn [negb].
  f_equal. exact IH.
Qed.

Lemma split_names_join_witness :
  let names := [js "alice"; js "bob-2"; js "carol"] in
  List.Forall clean_name names /\
  join (js ",") names = js "alice,bob-2,carol" /\
  split_names (js "alice,bob-2,carol") = names.
Proof.
  intros names.
  assert (Hall : List.Forall clean_name names).
  { repeat constructor; try discriminate;
      (intros H; vm_compute in H; repeat (destruct H as [H|H];
         [discriminate H|]); exact H). }
  split; [exact Hall|]. split; [reflexivity|].
  exact (split_names_join names Hall).
Defined.

(** ** [REPO_NAME] (line 1065) *)

(** [[a-zA-Z0-9_-]] *)
Definition repo_char (c : N) : bool :=
  in_range "a" "z" c || in_range "A" "Z" c || in_range "0" "9" c
  || is_char "_" c || is_char "-" c.

Lemma REPO_NAME_chars (cfg : config) :
  List.forallb repo_char (REPO_NAME cfg) = true.
Proof.
  unfold REPO_NAME. fold repo_char.
  change (fun c => if in_range "a" "z" c || in_range "A" "Z" c
                      || in_range "0" "9" c || is_char "_" c || is_char "-" c
                   then c else N_of_ascii "-"%char)
    with (fun c => if repo_char c then c else N_of_ascii "-"%char).
  induction (REPO cfg) as [|c repo IH]; [reflexivity|].
  cbn [List.map List.forallb]. rewrite IH, andb_true_r.
  destruct (repo_char c) eqn:E; [exact E | reflexivity].
Qed.

Lemma REPO_NAME_nil (cfg : config) : REPO_NAME cfg = [] <-> REPO cfg = [].
Proof.
  unfold REPO_NAME. destruct (REPO cfg); split; intros H;
    try reflexivity; discriminate H.
Qed.

(** X12: [REPO_NAME], the prefix of the tool names and the suffix of the
    log directory, has as many code units as [repo], consists of ASCII
    letters, digits, [_] and [-] only, keeps every such code unit of
    [repo] in its place and has [-] everywhere else; so it is [repo]
    itself when [repo] is already of that form, and it is empty only when
    [repo] is. *)
Theorem REPO_NAME_safe (cfg : config) :
  List.length (REPO_NAME cfg) = List.length (REPO cfg) /\
  List.forallb repo_char (REPO_NAME cfg) = true /\
  (forall i c, List.nth_error (REPO cfg) i = Some c ->
     List.nth_error (REPO_NAME cfg) i
     = Some (if repo_char c then c else N_of_ascii "-"%char)) /\
  (List.forallb repo_char (REPO cfg) = true -> REPO_NAME cfg = REPO cfg) /\
  (REPO_NAME cfg = [] <-> REPO cfg = []).
Proof.
  split; [apply List.length_map|]. split; [apply REPO_NAME_chars|].
  split; [|split; [|apply REPO_NAME_nil]].
  - intros i c Hi. unfold REPO_NAME. rewrite List.nth_error_map, Hi.
    reflexivity.
  - unfold REPO_NAME. fold repo_char.
    induction (REPO cfg) as [|c repo IH]; [reflexivity|].
    cbn [List.map List.forallb]. intros H.
    apply andb_true_iff in H as [Hc Hr].
    change (in_range "a" "z" c || in_range "A" "Z" c || in_range "0" "9" c
            || is_char "_" c || is_char "-" c) with (repo_char c).
    rewrite Hc. f_equal. exact (IH Hr).
Qed.

(* ================================================================== *)
(** * More on the dispatcher *)
(* ================================================================== *)

Definition underscore : N := N_of_ascii "_"%char.

Lemma startsWith_app (p s : jsstring) : startsWith (p ++ s) p = true.
Proof.
  induction p as [|c p IH]; [destruct s; reflexivity|].
  cbn [List.app startsWith]. rewrite N.eqb_refl. exact IH.
Qed.

Lemma startsWith_In (s p : jsstring) (c : N) :
  startsWith s p = true -> List.In c p -> List.In c s.
Proof.
  revert s. induction p as [|x p IH]; intros s Hs Hin; [destruct Hin|].
  destruct s as [|y s]; [discriminate Hs|].
  cbn [startsWith] in Hs. apply andb_true_iff in Hs as [Hxy Hs].
  apply N.eqb_eq in Hxy. subst y.
  destruct Hin as [->|Hin]; [left; reflexivity | right; exact (IH s Hs Hin)].
Qed.

Lemma skipn_app_length {A : Type} (p s : list A) :
  List.skipn (List.length p) (p ++ s) = s.
Proof. induction p as [|x p IH]; [reflexivity | exact IH]. Qed.

(** The methods the dispatcher knows (lines 1729-2012). *)
Definition known_methods : list string :=
  ["initialize"; "tools/list"; "prompts/list"; "prompts/call";
   "resources/list"; "resources/read"; "logging/list"; "logging/read";
   "roots/list"; "roots/read"; "tools/call"; "ping"; "shutdown";
   "notifications/initialized"; "notifications/exit"].

(** [response.id] *)
Definition envelope_id (e : envelope) : json :=
  match e with
  | Response id _ => id
  | ErrorResponse id _ _ => id
  end.

(** The [id] the dispatcher has in hand when it answers: the request's
    once object and version have been checked, [null] before. *)
Definition answer_id (request : json) : json :=
  id_or_null (if is_request_object request && has_version request
              then get "id" request else Some JNull).

Section MoreDispatcherFacts.

Variable cfg : config.
Variable h : host.
Variable call_member : jsstring -> json -> session -> member_call * session.

Lemma actual_method_name_plain (t : jsstring) :
  ~ List.In underscore t ->
  actual_method_name cfg (JStr t) = Some (JStr t).
Proof.
  intros Hn. unfold actual_method_name.
  destruct (is_empty (REPO_NAME cfg)); [reflexivity|].
  destruct (startsWith t (REPO_NAME cfg ++ js "_")) eqn:E; [|reflexivity].
  elim Hn. apply (startsWith_In t _ underscore E).
  apply List.in_or_app. right. left. reflexivity.
Qed.

Lemma actual_method_name_prefixed (t : jsstring) :
  REPO cfg <> [] ->
  actual_method_name cfg (JStr (REPO_NAME cfg ++ js "_" ++ t)) = Some (JStr t).
Proof.
  intros Hr. unfold actual_method_name.
  assert (Hne : is_empty (REPO_NAME cfg) = false).
  { unfold REPO_NAME. destruct (REPO cfg); [congruence | reflexivity]. }
  rewrite Hne, List.app_assoc, startsWith_app.
  unfold substring_from.
  replace (List.length (REPO_NAME cfg) + 1)%nat
    with (List.length (REPO_NAME cfg ++ js "_"))
    by (rewrite List.length_app; reflexivity).
  rewrite skipn_app_length. reflexivity.
Qed.

(** X13: the tool prefix.  With a non-empty [repo], a [tools/call] that
    names a tool as [REPO_NAME_pr], [REPO_NAME_token] or [REPO_NAME_logs]
    does exactly what the call with the bare name [pr], [token] or [logs]
    and the same arguments does: same result, same effect on the state. *)
Theorem tools_call_prefix (tool : string) (prefixed bare : jsval)
                          (s : session) :
  REPO cfg <> [] ->
  List.In tool ["pr"; "token"; "logs"] ->
  get "name" (safe prefixed)
    = Some (JStr (REPO_NAME cfg ++ js "_" ++ js tool)) ->
  get "name" (safe bare) = Some (JStr (js tool)) ->
  get "arguments" (safe prefixed) = get "arguments" (safe bare) ->
  tools_call cfg h call_member prefixed s
  = tools_call cfg h call_member bare s.
Proof.
  intros Hr Htool Hp Hb Ha. unfold tools_call. rewrite Hp, Hb, Ha.
  assert (Ht1 : truthy (JStr (REPO_NAME cfg ++ js "_" ++ js tool)) = true).
  { unfold REPO_NAME. destruct (REPO cfg); [congruence | reflexivity]. }
  rewrite Ht1, (actual_method_name_prefixed (js tool) Hr).
  assert (Hclean : ~ List.In underscore (js tool) /\
                   truthy (JStr (js tool)) = true /\
                   match lookup_member (ToString (JStr (js tool))) with
                   | ToolPr | ToolToken | ToolLogs => True
                   | _ => False
                   end).
  { destruct Htool as [<-|[<-|[<-|[]]]];
      (split; [|split; [reflexivity | exact I]]);
      intros H; vm_compute in H;
      repeat (destruct H as [H|H]; [discriminate H|]); exact H. }
  destruct Hclean as [Hu [Ht2 Hm]].
  rewrite Ht2, (actual_method_name_plain (js tool) Hu). cbn [negb].
  destruct (lookup_member (ToString (JStr (js tool)))); try contradiction;
    reflexivity.
Qed.

Lemma includes_unknown_method (m : jsstring) :
  includes (js "Unknown method: " ++ m) (js "Unknown method") = true /\
  includes (js "Unknown method: " ++ m) (js "Server not initialized")
  = includes m (js "Server not initialized").
Proof. split; reflexivity. Qed.

Lemma not_literal (m : jsstring) (k : string) :
  m <> js k -> is_literal k (Some (JStr m)) = false.
Proof. intros H. unfold is_literal. apply JsString.eqb_neq. exact H. Qed.

(** X14: a method the dispatcher does not know.  A well-formed request
    whose method is a non-empty string other than the fifteen known ones
    is answered with an error carrying the request's [id] and the message
    [Unknown method: <method>]; nothing but the log changes, and one entry
    is logged.  The code is -32601, except that a method name containing
    the text [Server not initialized] gets -32002, because the code is
    chosen by searching the message. *)
Theorem handleRequest_unknown_method (request : json) (m : jsstring)
                                     (s : session) :
  is_request_object request = true ->
  has_version request = true ->
  get "method" request = Some (JStr m) ->
  m <> [] ->
  (forall k, List.In k known_methods -> m <> js k) ->
  let message := js "Unknown method: " ++ m in
  handleRequest cfg h call_member request s =
    (Ok (Some (ErrorResponse (id_or_null (get "id" request))
                 (if includes m (js "Server not initialized")
                  then (-32002)%Z else (-32601)%Z)
                 message)),
     {| initialized := initialized s;
        globals := snd (logRequest (Some (JStr m))
                          (safe (get "params" request)) None
                          (Some (JStr message)) (globals s)) |}).
Proof.
  intros Ho Hv Hm Hne Hk message.
  assert (Hlit : forall k, List.In k known_methods ->
                           is_literal k (Some (JStr m)) = false).
  { intros k Hin. apply not_literal, Hk, Hin. }
  assert (Htry : try_block cfg h call_member request s
                 = (Throw (Err message), s)).
  { unfold try_block. rewrite Ho, Hv, Hm. cbn [negb].
    assert (Ht : truthy_val (Some (JStr m)) = true)
      by (destruct m; [congruence | reflexivity]).
    rewrite Ht. cbn [negb orb is_string].
    unfold dispatch, stub_of.
    rewrite !Hlit by (cbn; tauto). reflexivity. }
  pose proof (handle_throw cfg h call_member request s message s Htry) as H.
  cbv zeta in H. rewrite Ho, Hv, Hm in H. cbn [andb] in H.
  rewrite H by (subst message; discriminate).
  assert (Hn : is_notification (Some (JStr m)) = false).
  { unfold is_notification. rewrite !Hlit by (cbn; tauto). reflexivity. }
  rewrite Hn.
  assert (Hc : error_code message
               = if includes m (js "Server not initialized")
                 then (-32002)%Z else (-32601)%Z).
  { unfold error_code. subst message.
    destruct (includes_unknown_method m) as [Hu Hs]. rewrite Hs, Hu.
    reflexivity. }
  rewrite Hc. reflexivity.
Qed.

(** X15: the [id] of a response.  Whatever the request, if the dispatcher
    returns a response then the response carries the request's [id]
    ([null] when the request has none, and also when the request is not an
    object or has the wrong version), and the request is not one of the
    notifications [notifications/initialized] and [notifications/exit]:
    those are never answered, even when they carry an [id]. *)
Theorem handleRequest_response_id (request : json) (s : session)
                                  (response : envelope) (s' : session) :
  handleRequest cfg h call_member request s = (Ok (Some response), s') ->
  envelope_id response = answer_id request /\
  is_notification (logged_method request) = false.
Proof.
  unfold handleRequest, answer_id. fold (logged_method request).
  destruct (try_block cfg h call_member request s)
    as [[result|[message|r]|c] [b1 w1]].
  - unfold bind at 1. rewrite log_run.
    destruct (is_notification (logged_method request)); [discriminate|].
    destruct (is_literal "shutdown" (logged_method request));
      intros H; inversion H; subst; split; reflexivity.
  - unfold bind at 1. rewrite log_run. unfold bind at 1.
    destruct (is_empty message); [rewrite log_run|cbn [ret]];
      (destruct (is_notification (logged_method request)); [discriminate|]);
      intros H; inversion H; subst; split; reflexivity.
  - unfold bind at 1. rewrite log_run. unfold bind at 1. rewrite log_run.
    destruct (is_notification (logged_method request)); discriminate.
  - discriminate.
Qed.

End MoreDispatcherFacts.

Lemma tools_call_prefix_witness :
  let cfg := Fixture.config_of false false false in
  let h := Fixture.host_of Fixture.all_fine in
  let s := new_session (initial_world 1000) in
  let call (name : string) :=
    Some (obj [("name", Some (JStr (js name)));
               ("arguments", Some (obj [("limit", Some (JNum 5))]))]) in
  REPO_NAME cfg = js "widgets" /\
  tools_call cfg h Fixture.no_member_calls (call "widgets_logs") s
  = tools_call cfg h Fixture.no_member_calls (call "logs") s.
Proof.
  intros cfg h s call. split; [reflexivity|].
  apply (tools_call_prefix cfg h Fixture.no_member_calls "logs");
    [discriminate | right; right; left; reflexivity
    | reflexivity | reflexivity | reflexivity].
Defined.

Lemma handleRequest_unknown_method_witness :
  let cfg := Fixture.config_of false false false in
  let h := Fixture.host_of Fixture.all_fine in
  let s := new_session (initial_world 1000) in
  let handle := handleRequest cfg h Fixture.no_member_calls in
  fst (handle (Fixture.request_of 4 "tools/run" None) s)
  = Ok (Some (ErrorResponse (JNum 4) (-32601)
                (js "Unknown method: tools/run"))) /\
  fst (handle (Fixture.request_of 5 "Server not initialized" None) s)
  = Ok (Some (ErrorResponse (JNum 5) (-32002)
                (js "Unknown method: Server not initialized"))).
Proof.
  intros cfg h s handle.
  assert (Hk : forall m : string,
            List.forallb (fun k => negb (JsString.eqb (js m) (js k)))
                         known_methods = true ->
            forall k, List.In k known_methods -> js m <> js k).
  { intros m Hall k Hin. rewrite List.forallb_forall in Hall.
    apply JsString.eqb_neq, negb_true_iff, Hall, Hin. }
  split.
  - unfold handle.
    rewrite (handleRequest_unknown_method cfg h Fixture.no_member_calls
               (Fixture.request_of 4 "tools/run" None) (js "tools/run") s
               eq_refl eq_refl eq_refl ltac:(discriminate)
               (Hk "tools/run" eq_refl)).
    reflexivity.
  - unfold handle.
    rewrite (handleRequest_unknown_method cfg h Fixture.no_member_calls
               (Fixture.request_of 5 "Server not initialized" None)
               (js "Server not initialized") s
               eq_refl eq_refl eq_refl ltac:(discriminate)
               (Hk "Server not initialized" eq_refl)).
    reflexivity.
Defined.

Lemma handleRequest_response_id_witness :
  let cfg := Fixture.config_of false false false in
  let h := Fixture.host_of Fixture.all_fine in
  let s := new_session (initial_world 1000) in
  let request := Fixture.request_of 9 "tools/list" None in
  let out := handleRequest cfg h Fixture.no_member_calls request s in
  fst out = Ok (Some (Response (JNum 9) (Some ToolsListResult))) /\
  answer_id request = JNum 9 /\
  is_notification (logged_method request) = false.
Proof.
  intros cfg h s request out.
  assert (Hrun : handleRequest cfg h Fixture.no_member_calls request s
                 = (Ok (Some (Response (JNum 9) (Some ToolsListResult))),
                    snd out)) by reflexivity.
  destruct (handleRequest_response_id cfg h Fixture.no_member_calls
              request s _ _ Hrun) as [Hid Hn].
  split; [reflexivity|]. split; [rewrite <- Hid; reflexivity | exact Hn].
Defined.

(* ================================================================== *)
(** * Start-up and the stdin loop: properties *)
(* ================================================================== *)

Lemma is_missing_false (env : Startup.environment) (k : string) :
  Startup.is_missing env k = false <->
  exists v, env k = Some v /\ trim v <> [].
Proof.
  unfold Startup.is_missing. split.
  - destruct (env k) as [v|]; [|discriminate].
    intros H. apply orb_false_iff in H as [_ H].
    apply JsString.eqb_neq in H. exists v. auto.
  - intros [v [-> Hv]]. apply orb_false_iff. split.
    + destruct v; [elim Hv; reflexivity | reflexivity].
    + apply JsString.eqb_neq. exact Hv.
Qed.

Lemma filter_nil {A : Type} (f : A -> bool) (l : list A) :
  List.filter f l = [] -> forall x, List.In x l -> f x = false.
Proof.
  intros Hnil x Hin. destruct (f x) eqn:E; [|reflexivity].
  assert (Hx : List.In x (List.filter f l)) by (apply List.filter_In; auto).
  rewrite Hnil in Hx. destruct Hx.
Qed.

Lemma trim_not_nil (s : jsstring) : trim s <> [] -> s <> [].
Proof. intros H ->. apply H. reflexivity. Qed.


(** ** The stdin handler *)

(** A computation ends the process, if at all, with code 0. *)
Definition exit_zero {S A : Type} (m : M S A) : Prop :=
  forall s, match fst (m s) with Exit c => c = 0%Z | _ => True end.

Section ExitZero.

Context {S : Type}.

Lemma exit_zero_no_exit {A : Type} (m : M S A) : no_exit m -> exit_zero m.
Proof.
  intros H s. specialize (H s). destruct (fst (m s)); [exact I..|destruct H].
Qed.

Lemma exit_zero_bind {A B : Type} (m : M S A) (k : A -> M S B) :
  exit_zero m -> (forall a, exit_zero (k a)) -> exit_zero (bind m k).
Proof.
  intros Hm Hk s. unfold bind. specialize (Hm s).
  destruct (m s) as [[a|e|c] s']; cbn [fst] in *; auto. apply Hk.
Qed.

Lemma exit_zero_try_catch {A : Type} (m : M S A) (handler : thrown -> M S A) :
  exit_zero m -> (forall e, exit_zero (handler e)) ->
  exit_zero (try_catch m handler).
Proof.
  intros Hm Hh s. unfold try_catch. specialize (Hm s).
  destruct (m s) as [[a|e|c] s']; cbn [fst] in *; auto. apply Hh.
Qed.

End ExitZero.

Lemma exit_zero_lift {A : Type} (m : M world A) :
  no_exit m -> exit_zero (lift m).
Proof.
  intros H s. unfold lift. specialize (H (globals s)).
  destruct (m (globals s)) as [[a|e|c] w]; cbn [fst] in *;
    [exact I | exact I | destruct H].
Qed.

Lemma exit_zero_in_server {A : Type} (m : M session A) :
  exit_zero m -> exit_zero (Startup.in_server m).
Proof.
  intros H p. unfold Startup.in_server. specialize (H (Startup.server p)).
  destruct (m (Startup.server p)) as [[a|e|c] s]; exact H.
Qed.

Section StdinFacts.

Variable cfg : config.
Variable h : host.
Variable call_member : jsstring -> json -> session -> member_call * session.

Lemma no_exit_pr params : no_exit (pr cfg h params).
Proof.
  intros w. destruct (pr_returns cfg h params w) as [payload [w' H]].
  rewrite H. exact I.
Qed.

Lemma no_exit_token params : no_exit (token cfg h params).
Proof.
  intros w. pose proof (token_outcome cfg h params w) as H.
  destruct (fst (token cfg h params w)) as [r|[m|rj]|c];
    first [exact I | contradiction].
Qed.

Lemma no_exit_logs params : no_exit (logs params).
Proof.
  intros w. destruct (logs_plain params w) as [_ H].
  destruct (fst (logs params w)) as [r|[m|rj]|c];
    first [exact I | contradiction].
Qed.

Lemma exit_zero_tools_call params :
  exit_zero (tools_call cfg h call_member params).
Proof.
  unfold tools_call.
  destruct (get "name" (safe params)) as [name|];
    [|apply exit_zero_no_exit, no_exit_throw].
  destruct (negb (truthy name)); [apply exit_zero_no_exit, no_exit_throw|].
  destruct (actual_method_name cfg name) as [actual|];
    [|apply exit_zero_no_exit, no_exit_throw].
  destruct (lookup_member (ToString actual));
    try (apply exit_zero_no_exit, no_exit_throw).
  - apply exit_zero_bind; [apply exit_zero_lift, no_exit_pr|].
    intros [r|f]; [destruct (is_literal "pr" (Some actual))|];
      apply exit_zero_no_exit, no_exit_ret.
  - apply exit_zero_bind; [apply exit_zero_lift, no_exit_token|].
    intros r. apply exit_zero_no_exit, no_exit_ret.
  - apply exit_zero_bind; [apply exit_zero_lift, no_exit_logs|].
    intros r. apply exit_zero_no_exit, no_exit_ret.
  - intros s. destruct (initialized s); exact I.
  - intros s. destruct (call_member key _ s) as [[v|message] s1]; exact I.
Qed.

Lemma exit_zero_log method params result error :
  exit_zero (log method params result error).
Proof. apply exit_zero_lift, no_exit_logRequest. Qed.

Lemma exit_zero_try_block request :
  exit_zero (try_block cfg h call_member request).
Proof.
  unfold try_block.
  destruct (negb (is_request_object request));
    [apply exit_zero_no_exit, no_exit_throw|].
  destruct (negb (has_version request));
    [apply exit_zero_no_exit, no_exit_throw|].
  destruct (negb (truthy_val (get "method" request))
            || negb (is_string (get "method" request)));
    [apply exit_zero_no_exit, no_exit_throw|].
  unfold dispatch.
  destruct (is_literal "initialize" (get "method" request)).
  { apply exit_zero_no_exit, no_exit_bind;
      [apply no_exit_modify | intros; apply no_exit_ret]. }
  destruct (is_literal "tools/list" (get "method" request));
    [apply exit_zero_no_exit, no_exit_ret|].
  destruct (stub_of (get "method" request));
    [apply exit_zero_no_exit, no_exit_ret|].
  destruct (is_literal "tools/call" (get "method" request));
    [apply exit_zero_tools_call|].
  destruct (is_literal "ping" (get "method" request)).
  { apply exit_zero_bind; [apply exit_zero_log|].
    intros; apply exit_zero_no_exit, no_exit_ret. }
  destruct (is_literal "shutdown" (get "method" request)).
  { apply exit_zero_no_exit, no_exit_bind;
      [apply no_exit_modify | intros; apply no_exit_ret]. }
  destruct (is_literal "notifications/initialized" (get "method" request)).
  { apply exit_zero_bind; [apply exit_zero_log|].
    intros; apply exit_zero_no_exit, no_exit_ret. }
  destruct (is_literal "notifications/exit" (get "method" request)).
  - intros s. reflexivity.
  - apply exit_zero_no_exit, no_exit_throw.
Qed.

Lemma exit_zero_handleRequest request :
  exit_zero (handleRequest cfg h call_member request).
Proof.
  intros s. unfold handleRequest.
  pose proof (exit_zero_try_block request s) as Ht.
  destruct (try_block cfg h call_member request s)
    as [[result|[message|r]|c] [b1 w1]]; cbn [fst] in Ht.
  - unfold bind at 1. rewrite log_run.
    destruct (is_notification _); [exact I|].
    destruct (is_literal "shutdown" _); exact I.
  - unfold bind at 1. rewrite log_run. unfold bind at 1.
    destruct (is_empty message); [rewrite log_run|cbn [ret]];
      destruct (is_notification _); exact I.
  - unfold bind at 1. rewrite log_run. unfold bind at 1. rewrite log_run.
    destruct (is_notification _); exact I.
  - exact Ht.
Qed.

Lemma exit_zero_handle_line line :
  exit_zero (Startup.handle_line cfg h call_member line).
Proof.
  unfold Startup.handle_line. apply exit_zero_try_catch.
  - apply exit_zero_bind.
    + destruct (JSON_parse h line);
        apply exit_zero_no_exit; [apply no_exit_ret | apply no_exit_throw].
    + intros request. apply exit_zero_bind.
      * apply exit_zero_in_server, exit_zero_handleRequest.
      * intros [r|]; apply exit_zero_no_exit;
          [apply no_exit_modify | apply no_exit_ret].
  - intros err. apply exit_zero_no_exit, no_exit_bind;
      [apply no_exit_modify | intros; apply no_exit_throw].
Qed.

Lemma exit_zero_handle_lines lines :
  exit_zero (Startup.handle_lines cfg h call_member lines).
Proof.
  induction lines as [|line rest IH]; cbn [Startup.handle_lines].
  - apply exit_zero_no_exit, no_exit_ret.
  - apply exit_zero_bind; [|intros; exact IH].
    destruct (is_empty (trim line));
      [apply exit_zero_no_exit, no_exit_ret | apply exit_zero_handle_line].
Qed.

(** X17: the stdin handler never lets an exception escape.  Whatever the
    chunk contains and whatever the upstream answers, handling it either
    returns or ends the process with [process.exit(0)] (on
    [notifications/exit]); it never throws, so the promise of the [async]
    handler is never rejected. *)
Theorem on_data_never_throws (data : jsstring) (p : Startup.process) :
  match fst (Startup.on_data cfg h call_member data p) with
  | Ok _ => True
  | Throw _ => False
  | Exit code => code = 0%Z
  end.
Proof.
  unfold Startup.on_data, Startup.handle_chunk, try_catch.
  pose proof (exit_zero_handle_lines (split Startup.newline (trim data)) p)
    as Hz.
  destruct (Startup.handle_lines cfg h call_member _ p) as [[u|e|c] p1];
    cbn [fst] in *; [exact I| |exact Hz].
  destruct p1 as [[b1 w1] out dg].
  unfold bind, Startup.report, modify, Startup.in_server.
  cbn [Startup.server]. rewrite log_run. exact I.
Qed.

Lemma handle_lines_app before rest p p1 :
  Startup.handle_lines cfg h call_member before p = (Ok tt, p1) ->
  Startup.handle_lines cfg h call_member (before ++ rest) p
  = Startup.handle_lines cfg h call_member rest p1.
Proof.
  revert p. induction before as [|line before IH]; intros p H.
  - inversion H. reflexivity.
  - cbn [List.app Startup.handle_lines] in *. unfold bind in *.
    destruct ((if is_empty (trim line) then ret tt
               else Startup.handle_line cfg h call_member line) p)
      as [[[]|e|c] p0]; try discriminate H.
    apply IH. exact H.
Qed.

(** X18: a line that is not valid JSON.  When a chunk holds such a line
    (not blank), the lines before it are handled as usual; for the line
    itself no response is written, although the source means to send one:
    the [catch] block reads [request], which is not in scope there, and
    throws [request is not defined]; that error ends the loop, so the
    lines after it in the chunk are dropped unread, whatever they are; the
    handler reports both errors, logs one entry [data_processing_error]
    and returns. *)
Theorem handle_chunk_invalid_line
    (before : list jsstring) (bad : jsstring) (after : list jsstring)
    (message : jsstring) (p p1 : Startup.process) :
  trim bad <> [] ->
  JSON_parse h bad = inr message ->
  Startup.handle_lines cfg h call_member before p = (Ok tt, p1) ->
  let undefined_request := Some (JStr (js "request is not defined")) in
  Startup.handle_chunk cfg h call_member (before ++ bad :: after) p =
    (Ok tt,
     {| Startup.server :=
          {| initialized := initialized (Startup.server p1);
             globals :=
               snd (logRequest (Some (JStr (js "data_processing_error")))
                      (obj [("error", undefined_request)]) None
                      undefined_request
                      (globals (Startup.server p1))) |};
        Startup.stdout := Startup.stdout p1;
        Startup.diagnostics :=
          Startup.ErrorProcessingData undefined_request
          :: Startup.ErrorProcessingRequest (Some (JStr message))
          :: Startup.diagnostics p1 |}).
Proof.
  intros Hb Hp Hbefore undefined_request.
  unfold Startup.handle_chunk, try_catch.
  rewrite (handle_lines_app before (bad :: after) p p1 Hbefore).
  cbn [Startup.handle_lines].
  assert (Hne : is_empty (trim bad) = false)
    by (destruct (trim bad); [congruence | reflexivity]).
  rewrite Hne. unfold bind at 1.
  assert (Hline : Startup.handle_line cfg h call_member bad p1
                  = (Throw (Err (js "request is not defined")),
                     {| Startup.server := Startup.server p1;
                        Startup.stdout := Startup.stdout p1;
                        Startup.diagnostics :=
                          Startup.ErrorProcessingRequest (Some (JStr message))
                          :: Startup.diagnostics p1 |})).
  { unfold Startup.handle_line, try_catch. unfold bind at 1.
    rewrite Hp. reflexivity. }
  rewrite Hline.
  unfold bind, Startup.report, modify, Startup.in_server.
  cbn [Startup.server Startup.stdout Startup.diagnostics Startup.message_of].
  destruct (Startup.server p1) as [b1 w1]. rewrite log_run. reflexivity.
Qed.

End StdinFacts.

Section StartFacts.

Variable cfg : config.
Variable h : host.
Variable logConfig : Startup.log_config.

(** What the prefetch leaves behind: at most one request, nothing on
    stdout, nothing in the log. *)
Lemma prefetch_completes (p : Startup.process) :
  exists p',
    Startup.prefetch cfg h p = (Ok tt, p') /\
    Startup.stdout p' = Startup.stdout p /\
    initialized (Startup.server p') = initialized (Startup.server p) /\
    log_history (globals (Startup.server p'))
      = log_history (globals (Startup.server p)) /\
    (requests (globals (Startup.server p'))
       = requests (globals (Startup.server p)) \/
     requests (globals (Startup.server p'))
       = oauth_request cfg :: requests (globals (Startup.server p))).
Proof.
  destruct p as [[b w] out dg].
  pose proof (keeps_log_getAccessToken cfg h w) as Hk.
  pose proof (no_exit_getAccessToken cfg h w) as Hne.
  pose proof (getAccessToken_ok cfg h w) as Hok.
  pose proof (getAccessToken_throw cfg h w) as Hth.
  unfold Startup.prefetch, try_catch. unfold bind at 1.
  unfold Startup.in_server at 1, lift.
  cbn [Startup.server Startup.stdout Startup.diagnostics globals initialized].
  destruct (getAccessToken cfg h w) as [[t|e|c] w1]; cbn [fst snd] in *;
    [| |contradiction].
  - destruct (Hok t w1 eq_refl) as [_ [Hr _]].
    destruct t as [[| | |s| |]|];
      try (eexists; split; [reflexivity|];
           cbn [Startup.server Startup.stdout globals initialized];
           repeat split; first [reflexivity | exact Hk | exact Hr]).
    unfold bind at 1, Startup.report at 1, modify at 1.
    cbn [Startup.server Startup.stdout Startup.diagnostics globals].
    destruct (tokenExpiresAt w1) as [e|];
      [destruct (valid_time (Some e))|];
      (eexists; split; [reflexivity|];
       cbn [Startup.server Startup.stdout globals initialized];
       repeat split; first [reflexivity | exact Hk | exact Hr]).
  - destruct (Hth e w1 eq_refl) as [_ [_ [_ [Hr _]]]].
    eexists; split; [reflexivity|].
    cbn [Startup.server Startup.stdout globals initialized].
    repeat split; first [reflexivity | exact Hk | right; exact Hr].
Qed.


End StartFacts.

Lemma handle_chunk_invalid_line_witness :
  let cfg := Fixture.config_of false false false in
  let ping := Fixture.request_of 1 "ping" None in
  let h := {| JSON_parse :=
                Fixture.table_parse ((js "PING", ping) :: Fixture.responses);
              upstream := Fixture.answering Fixture.all_fine;
              ToNumber_other := fun _ => None |} in
  let p := Startup.new_process (initial_world 1000) in
  let chunk (rest : jsstring) :=
    js "PING" ++ [Startup.newline] ++ js "oops" ++ rest in
  let after := snd (Startup.on_data cfg h Fixture.no_member_calls
                      (chunk ([Startup.newline] ++ js "PING")) p) in
  Startup.on_data cfg h Fixture.no_member_calls
    (chunk ([Startup.newline] ++ js "PING")) p
  = Startup.on_data cfg h Fixture.no_member_calls (chunk []) p /\
  Startup.stdout after = [Response (JNum 1) (Some PongResult)] /\
  List.map log_method (log_history (globals (Startup.server after)))
  = [Some (JStr (js "data_processing_error"));
     Some (JStr (js "ping")); Some (JStr (js "ping"))].
Proof.
  intros cfg ping h p chunk after.
  assert (Hbefore : exists p1,
            Startup.handle_lines cfg h Fixture.no_member_calls [js "PING"] p
            = (Ok tt, p1)) by (eexists; reflexivity).
  destruct Hbefore as [p1 Hbefore].
  assert (Hlong : Startup.on_data cfg h Fixture.no_member_calls
                    (chunk ([Startup.newline] ++ js "PING")) p
                  = Startup.handle_chunk cfg h Fixture.no_member_calls
                      ([js "PING"] ++ js "oops" :: [js "PING"]) p)
    by reflexivity.
  assert (Hshort : Startup.on_data cfg h Fixture.no_member_calls (chunk []) p
                   = Startup.handle_chunk cfg h Fixture.no_member_calls
                       ([js "PING"] ++ js "oops" :: []) p)
    by reflexivity.
  split.
  - rewrite Hlong, Hshort.
    rewrite (handle_chunk_invalid_line cfg h Fixture.no_member_calls
               [js "PING"] (js "oops") [js "PING"] (js "Unexpected token")
               p p1 ltac:(vm_compute; discriminate) eq_refl Hbefore).
    rewrite (handle_chunk_invalid_line cfg h Fixture.no_member_calls
               [js "PING"] (js "oops") [] (js "Unexpected token")
               p p1 ltac:(vm_compute; discriminate) eq_refl Hbefore).
    reflexivity.
  - split; reflexivity.
Defined.

(** ** The log configuration *)

(** [/] and the backslash *)
Definition is_separator (c : N) : bool := is_char "/" c || N.eqb c 92.

Lemma repo_char_not_separator (name : jsstring) :
  List.forallb repo_char name = true ->
  List.existsb is_separator name = false.
Proof.
  induction name as [|c name IH]; [reflexivity|].
  cbn [List.forallb List.existsb]. intros H.
  apply andb_true_iff in H as [Hc Hn]. rewrite (IH Hn), orb_false_r.
  destruct (is_separator c) eqn:E; [|reflexivity].
  unfold is_separator, is_char, in_range in E. cbn in E.
  apply orb_true_iff in E as [E|E].
  - apply andb_true_iff in E as [E1 E2]. apply N.leb_le in E1, E2.
    assert (Hc47 : c = 47%N) by lia. subst c. discriminate Hc.
  - apply N.eqb_eq in E. subst c. discriminate Hc.
Qed.

(** X26: where the log goes.  [MCP_LOG_DIR] and [MCP_LOG_FILE] are used
    when they are set and not empty.  Without [MCP_LOG_DIR] the directory
    is [./.setting.] followed by [REPO_NAME] ([./.setting] for an empty
    [repo]): whatever the repository is called, the name of that directory
    contains neither [/] nor a backslash, so the default log directory is
    a direct child of the working directory.  Without [MCP_LOG_FILE] the
    file is [mcp-gitee-pr.log], and the full path is [path.join] of the
    two. *)
Theorem getLogConfig_default (env : Startup.environment)
    (path_join : jsstring -> jsstring -> jsstring) (cfg : config) :
  let c := Startup.getLogConfig env path_join cfg in
  Startup.fullPath c = path_join (Startup.dir c) (Startup.file c) /\
  (forall d, env "MCP_LOG_DIR" = Some d -> d <> [] -> Startup.dir c = d) /\
  (forall f, env "MCP_LOG_FILE" = Some f -> f <> [] -> Startup.file c = f) /\
  (env "MCP_LOG_FILE" = None \/ env "MCP_LOG_FILE" = Some [] ->
   Startup.file c = js "mcp-gitee-pr.log") /\
  (env "MCP_LOG_DIR" = None \/ env "MCP_LOG_DIR" = Some [] ->
   exists name,
     Startup.dir c = js "./" ++ name /\
     List.existsb is_separator name = false /\
     (REPO cfg <> [] -> name = js ".setting." ++ REPO_NAME cfg) /\
     (REPO cfg = [] -> name = js ".setting")).
Proof.
  intros c. subst c. unfold Startup.getLogConfig, Startup.env_or.
  cbn [Startup.fullPath Startup.dir Startup.file].
  split; [reflexivity|]. split; [|split; [|split]].
  - intros d -> Hd. destruct d; [congruence | reflexivity].
  - intros f -> Hf. destruct f; [congruence | reflexivity].
  - intros [->| ->]; reflexivity.
  - intros Hdir.
    assert (Hd : match env "MCP_LOG_DIR" with
                 | Some v => if is_empty v
                             then if is_empty (REPO_NAME cfg)
                                  then js "./.setting"
                                  else js "./.setting." ++ REPO_NAME cfg
                             else v
                 | None => if is_empty (REPO_NAME cfg)
                           then js "./.setting"
                           else js "./.setting." ++ REPO_NAME cfg
                 end
                 = if is_empty (REPO_NAME cfg) then js "./.setting"
                   else js "./.setting." ++ REPO_NAME cfg)
      by (destruct Hdir as [->| ->]; reflexivity).
    rewrite Hd. clear Hd Hdir.
    pose proof (REPO_NAME_chars cfg) as Hsafe.
    pose proof (REPO_NAME_nil cfg) as Hnil.
    destruct (REPO_NAME cfg) as [|ch name] eqn:En.
    + exists (js ".setting"). split; [reflexivity|]. split; [reflexivity|].
      split; [|reflexivity].
      intros Hr. elim Hr. apply Hnil. reflexivity.
    + exists (js ".setting." ++ ch :: name). split; [reflexivity|].
      split.
      * rewrite List.existsb_app, (repo_char_not_separator _ Hsafe).
        reflexivity.
      * split; [reflexivity|]. intros Hr. apply Hnil in Hr. discriminate Hr.
Qed.

(* ================================================================== *)
(** * What the [pr] tool sends *)
(* ================================================================== *)

(** Everything a computation sends upstream satisfies [allowed]. *)
Definition sends_only {A : Type} (allowed : http_request -> bool)
                      (m : M world A) : Prop :=
  forall w, exists sent,
    requests (snd (m w)) = sent ++ requests w /\
    List.forallb allowed sent = true.

Section SendsOnly.

Variable allowed : http_request -> bool.

Lemma sends_only_silent {A : Type} (m : M world A) :
  (forall w, requests (snd (m w)) = requests w) -> sends_only allowed m.
Proof. intros H w. exists []. split; [apply H | reflexivity]. Qed.

Lemma sends_only_bind {A B : Type} (m : M world A) (k : A -> M world B) :
  sends_only allowed m -> (forall a, sends_only allowed (k a)) ->
  sends_only allowed (bind m k).
Proof.
  intros Hm Hk w. unfold bind. destruct (Hm w) as [s1 [Hr1 Ha1]].
  destruct (m w) as [[a|e|c] w1]; cbn [snd] in *;
    try (exists s1; split; assumption).
  destruct (Hk a w1) as [s2 [Hr2 Ha2]].
  exists (s2 ++ s1). rewrite Hr2, Hr1, List.app_assoc.
  split; [reflexivity|]. rewrite List.forallb_app, Ha2, Ha1. reflexivity.
Qed.

Lemma sends_only_try_catch {A : Type} (m : M world A)
                           (handler : thrown -> M world A) :
  sends_only allowed m -> (forall e, sends_only allowed (handler e)) ->
  sends_only allowed (try_catch m handler).
Proof.
  intros Hm Hh w. unfold try_catch. destruct (Hm w) as [s1 [Hr1 Ha1]].
  destruct (m w) as [[a|e|c] w1]; cbn [snd] in *;
    try (exists s1; split; assumption).
  destruct (Hh e w1) as [s2 [Hr2 Ha2]].
  exists (s2 ++ s1). rewrite Hr2, Hr1, List.app_assoc.
  split; [reflexivity|]. rewrite List.forallb_app, Ha2, Ha1. reflexivity.
Qed.

End SendsOnly.

(** The requests the configuration lets [pr] send: the OAuth exchange, the
    creation, and the review, test and merge of the steps that are switched
    on. *)
Definition allowed_by (cfg : config) (rq : http_request) : bool :=
  match req_endpoint rq with
  | OAuthToken | Pulls => true
  | PullReview _ => AUTO_REVIEW cfg
  | PullTest _ => AUTO_TEST cfg
  | PullMerge _ => AUTO_MERGE cfg
  end.

Section PrSends.

Variable cfg : config.
Variable h : host.

Lemma sends_only_makeGiteeRequest allowed method path body :
  allowed (oauth_request cfg) = true ->
  (forall token, allowed (api_request method path token body) = true) ->
  sends_only allowed (makeGiteeRequest cfg h method path body None).
Proof.
  intros Ho Ha w.
  pose proof (makeGiteeRequest_cases cfg h method path body w) as Hc.
  destruct (makeGiteeRequest cfg h method path body None w) as [o w'].
  destruct (Hc o w' eq_refl) as [_ Hm]. cbn [snd].
  destruct o as [r|e|c]; [| |contradiction].
  - destruct Hm as [_ [Hr|Hr]]; rewrite Hr;
      [eexists [_] | eexists [_; _]];
      (split; [reflexivity|]); cbn [List.forallb]; rewrite ?Ha, ?Ho;
      reflexivity.
  - destruct Hm as [rj [_ [Hr|[_ [Hr|Hr]]]]]; rewrite Hr;
      [eexists [_] | eexists [_] | eexists [_; _]];
      (split; [reflexivity|]); cbn [List.forallb]; rewrite ?Ha, ?Ho;
      reflexivity.
Qed.

Lemma sends_only_logRequest allowed method params result error :
  sends_only allowed (logRequest method params result error).
Proof. apply sends_only_silent. reflexivity. Qed.

Lemma sends_only_console allowed msg : sends_only allowed (console msg).
Proof. apply sends_only_silent. reflexivity. Qed.

Lemma sends_only_ret allowed {A : Type} (a : A) :
  sends_only allowed (@ret world A a).
Proof. apply sends_only_silent. reflexivity. Qed.

Lemma sends_only_throw allowed {A : Type} (e : thrown) :
  sends_only allowed (@throw world A e).
Proof. apply sends_only_silent. reflexivity. Qed.

Lemma sends_only_attempt allowed k prNumber params
                         (call : M world api_response) :
  sends_only allowed call ->
  sends_only allowed (attempt k prNumber params call).
Proof.
  intros Hc. unfold attempt. apply sends_only_try_catch.
  - apply sends_only_bind; [apply sends_only_console|]. intros _.
    apply sends_only_bind; [exact Hc|]. intros r.
    apply sends_only_bind; [apply sends_only_console|]. intros _.
    apply sends_only_bind; [apply sends_only_logRequest|]. intros _.
    apply sends_only_ret.
  - intros err.
    apply sends_only_bind; [apply sends_only_console|]. intros _.
    apply sends_only_bind; [apply sends_only_logRequest|]. intros _.
    apply sends_only_ret.
Qed.

(** X20: the [pr] tool sends only what the configuration allows.  The
    requests of one call are put in front of those sent before, and each
    of them is the OAuth exchange, the creation of the pull request, or
    the review, test or merge request of a step whose flag
    ([AUTO_REVIEW], [AUTO_TEST], [AUTO_MERGE]) is on: with a flag off, the
    request of that step is never sent, whatever the arguments and
    whatever the upstream answers. *)
Theorem pr_sends_only_allowed (params : json) (w : world) :
  exists sent,
    requests (snd (pr cfg h params w)) = sent ++ requests w /\
    List.forallb (allowed_by cfg) sent = true.
Proof.
  revert w. change (sends_only (allowed_by cfg) (pr cfg h params)).
  unfold pr. apply sends_only_try_catch.
  - apply sends_only_bind.
    { unfold createGiteePullRequest.
      destruct (invalid_title (get "title" params));
        [apply sends_only_throw|].
      destruct (process_labels (LABELS_ENV cfg)).
      apply sends_only_bind; [apply sends_only_silent; reflexivity|].
      intros _. apply sends_only_makeGiteeRequest; reflexivity. }
    intros result.
    apply sends_only_bind; [apply sends_only_logRequest|]. intros _.
    apply sends_only_bind.
    { unfold auto_review_step.
      destruct (AUTO_REVIEW cfg) eqn:E; cbn [andb]; [|apply sends_only_ret].
      destruct (has_pr_number result); [|apply sends_only_ret].
      apply sends_only_attempt. unfold reviewGiteePullRequest.
      destruct (invalid_pr_number _); [apply sends_only_throw|].
      apply sends_only_makeGiteeRequest; [reflexivity|].
      intros token. exact E. }
    intros rv. apply sends_only_bind.
    { unfold auto_test_step.
      destruct (AUTO_TEST cfg) eqn:E; cbn [andb]; [|apply sends_only_ret].
      destruct (has_pr_number result); [|apply sends_only_ret].
      apply sends_only_attempt. unfold testGiteePullRequest.
      destruct (invalid_pr_number _); [apply sends_only_throw|].
      apply sends_only_makeGiteeRequest; [reflexivity|].
      intros token. exact E. }
    intros tv. apply sends_only_bind.
    { unfold auto_merge_step.
      destruct (AUTO_MERGE cfg) eqn:E; cbn [andb]; [|apply sends_only_ret].
      destruct (has_pr_number result); [|apply sends_only_ret].
      destruct (negb (AUTO_TEST cfg) || is_some tv).
      - apply sends_only_attempt. unfold mergeGiteePullRequest.
        destruct (invalid_pr_number _); [apply sends_only_throw|].
        apply sends_only_makeGiteeRequest; [reflexivity|].
        intros token. exact E.
      - apply sends_only_bind; [apply sends_only_console|].
        intros _. apply sends_only_ret. }
    intros mv. unfold build_response.
    destruct (data result);
      first [apply sends_only_throw | apply sends_only_ret].
  - intros err.
    apply sends_only_bind; [apply sends_only_logRequest|]. intros _.
    apply sends_only_ret.
Qed.

End PrSends.

Section Refusal.

Variable cfg : config.
Variable h : host.

Lemma token_fresh_getAccessToken (w : world) :
  token_fresh w -> getAccessToken cfg h w = (Ok (cachedAccessToken w), w).
Proof.
  intros Hf. unfold getAccessToken. rewrite (token_fresh_start w Hf).
  reflexivity.
Qed.

Lemma or_json_truthy (a : jsval) (b : json) :
  truthy b = true -> truthy (or_json a b) = true.
Proof.
  intros Hb. unfold or_json, or_else.
  destruct (truthy_val a) eqn:E; [|exact Hb].
  destruct a as [j|]; [exact E | discriminate E].
Qed.


End Refusal.


(* ================================================================== *)
(** * The dispatcher answers every failure itself *)
(* ================================================================== *)

(** A computation throws, if at all, an [Error] (with its message), never
    a rejection object. *)
Definition throws_errors {S A : Type} (m : M S A) : Prop :=
  forall s, match fst (m s) with Throw (Rejected _) => False | _ => True end.

Section ThrowsErrors.

Context {S : Type}.

Lemma throws_errors_ret {A : Type} (a : A) : throws_errors (@ret S A a).
Proof. intros s; exact I. Qed.

Lemma throws_errors_throw {A : Type} (message : jsstring) :
  throws_errors (@throw S A (Err message)).
Proof. intros s; exact I. Qed.

Lemma throws_errors_modify (f : S -> S) : throws_errors (modify f).
Proof. intros s; exact I. Qed.

Lemma throws_errors_bind {A B : Type} (m : M S A) (k : A -> M S B) :
  throws_errors m -> (forall a, throws_errors (k a)) ->
  throws_errors (bind m k).
Proof.
  intros Hm Hk s. unfold bind. specialize (Hm s).
  destruct (m s) as [[a|[message|r]|c] s']; cbn [fst] in *; auto. apply Hk.
Qed.

End ThrowsErrors.

Lemma throws_errors_lift {A : Type} (m : M world A) :
  throws_errors m -> throws_errors (lift m).
Proof.
  intros H s. unfold lift. specialize (H (globals s)).
  destruct (m (globals s)) as [[a|[message|r]|c] w]; exact H.
Qed.

Section Total.

Variable cfg : config.
Variable h : host.
Variable call_member : jsstring -> json -> session -> member_call * session.

Lemma throws_errors_pr params : throws_errors (pr cfg h params).
Proof.
  intros w. destruct (pr_returns cfg h params w) as [payload [w' H]].
  rewrite H. exact I.
Qed.

Lemma throws_errors_token params : throws_errors (token cfg h params).
Proof.
  intros w. pose proof (token_outcome cfg h params w) as H.
  destruct (fst (token cfg h params w)) as [r|[m|rj]|c];
    first [exact I | contradiction].
Qed.

Lemma throws_errors_logs params : throws_errors (logs params).
Proof.
  intros w. destruct (logs_plain params w) as [_ H].
  destruct (fst (logs params w)) as [r|[m|rj]|c];
    first [exact I | contradiction].
Qed.

Lemma throws_errors_tools_call params :
  throws_errors (tools_call cfg h call_member params).
Proof.
  unfold tools_call.
  destruct (get "name" (safe params)) as [name|];
    [|apply throws_errors_throw].
  destruct (negb (truthy name)); [apply throws_errors_throw|].
  destruct (actual_method_name cfg name) as [actual|];
    [|apply throws_errors_throw].
  destruct (lookup_member (ToString actual));
    try apply throws_errors_throw.
  - apply throws_errors_bind; [apply throws_errors_lift, throws_errors_pr|].
    intros [r|f]; [destruct (is_literal "pr" (Some actual))|];
      apply throws_errors_ret.
  - apply throws_errors_bind;
      [apply throws_errors_lift, throws_errors_token|].
    intros r. apply throws_errors_ret.
  - apply throws_errors_bind;
      [apply throws_errors_lift, throws_errors_logs|].
    intros r. apply throws_errors_ret.
  - intros s. destruct (initialized s); exact I.
  - intros s. destruct (call_member key _ s) as [[v|message] s1]; exact I.
Qed.

Lemma throws_errors_try_block request :
  throws_errors (try_block cfg h call_member request).
Proof.
  unfold try_block.
  destruct (negb (is_request_object request)); [apply throws_errors_throw|].
  destruct (negb (has_version request)); [apply throws_errors_throw|].
  destruct (negb (truthy_val (get "method" request))
            || negb (is_string (get "method" request)));
    [apply throws_errors_throw|].
  unfold dispatch.
  destruct (is_literal "initialize" (get "method" request)).
  { apply throws_errors_bind;
      [apply throws_errors_modify | intros; apply throws_errors_ret]. }
  destruct (is_literal "tools/list" (get "method" request));
    [apply throws_errors_ret|].
  destruct (stub_of (get "method" request)); [apply throws_errors_ret|].
  destruct (is_literal "tools/call" (get "method" request));
    [apply throws_errors_tools_call|].
  destruct (is_literal "ping" (get "method" request)).
  { apply throws_errors_bind; [|intros; apply throws_errors_ret].
    apply throws_errors_lift, throws_errors_modify. }
  destruct (is_literal "shutdown" (get "method" request)).
  { apply throws_errors_bind;
      [apply throws_errors_modify | intros; apply throws_errors_ret]. }
  destruct (is_literal "notifications/initialized" (get "method" request)).
  { apply throws_errors_bind; [|intros; apply throws_errors_ret].
    apply throws_errors_lift, throws_errors_modify. }
  destruct (is_literal "notifications/exit" (get "method" request)).
  - intros s. exact I.
  - apply throws_errors_throw.
Qed.

(** The three ways [handleRequest] can end. *)
Lemma handleRequest_outcome request s :
  match fst (handleRequest cfg h call_member request s) with
  | Ok _ => True
  | Throw _ => False
  | Exit code => code = 0%Z
  end.
Proof.
  pose proof (throws_errors_try_block request s) as Ht.
  pose proof (exit_zero_try_block cfg h call_member request s) as Hz.
  unfold handleRequest.
  destruct (try_block cfg h call_member request s)
    as [[result|[message|r]|c] [b1 w1]]; cbn [fst] in Ht, Hz.
  - unfold bind at 1. rewrite log_run.
    destruct (is_notification _); [exact I|].
    destruct (is_literal "shutdown" _); exact I.
  - unfold bind at 1. rewrite log_run. unfold bind at 1.
    destruct (is_empty message); [rewrite log_run|cbn [ret]];
      destruct (is_notification _); exact I.
  - contradiction.
  - exact Hz.
Qed.


(** A line that is blank or valid JSON. *)
Definition well_formed_line (line : jsstring) : Prop :=
  trim line = [] \/ exists v, JSON_parse h line = inl v.

(** One valid line, by the outcome of the dispatcher. *)
Lemma handle_line_valid (line : jsstring) (v : json) (p : Startup.process) :
  JSON_parse h line = inl v ->
  Startup.handle_line cfg h call_member line p =
    match handleRequest cfg h call_member v (Startup.server p) with
    | (Ok (Some r), s1) =>
        (Ok tt, {| Startup.server := s1;
                   Startup.stdout := r :: Startup.stdout p;
                   Startup.diagnostics := Startup.diagnostics p |})
    | (Ok None, s1) =>
        (Ok tt, {| Startup.server := s1;
                   Startup.stdout := Startup.stdout p;
                   Startup.diagnostics := Startup.diagnostics p |})
    | (Throw e, s1) =>
        (Throw (Err (js "request is not defined")),
         {| Startup.server := s1;
            Startup.stdout := Startup.stdout p;
            Startup.diagnostics :=
              Startup.ErrorProcessingRequest (Startup.message_of e)
              :: Startup.diagnostics p |})
    | (Exit c, s1) =>
        (Exit c, {| Startup.server := s1;
                    Startup.stdout := Startup.stdout p;
                    Startup.diagnostics := Startup.diagnostics p |})
    end.
Proof.
  intros Hv.
  unfold Startup.handle_line, try_catch, bind, Startup.in_server.
  rewrite Hv. cbn [ret].
  destruct (handleRequest cfg h call_member v (Startup.server p))
    as [[[r|]|e|c] s1]; reflexivity.
Qed.

(** Handling such lines reports nothing and throws nothing. *)
Lemma handle_lines_quiet (lines : list jsstring) (p : Startup.process) :
  List.Forall well_formed_line lines ->
  Startup.diagnostics
    (snd (Startup.handle_lines cfg h call_member lines p))
  = Startup.diagnostics p /\
  match fst (Startup.handle_lines cfg h call_member lines p) with
  | Ok _ => True
  | Throw _ => False
  | Exit code => code = 0%Z
  end.
Proof.
  intros Hall. revert p.
  induction Hall as [|line lines Hline _ IH]; intros p;
    cbn [Startup.handle_lines]; [split; [reflexivity | exact I]|].
  unfold bind.
  assert (Hstep :
    Startup.diagnostics
      (snd ((if is_empty (trim line) then ret tt
             else Startup.handle_line cfg h call_member line) p))
    = Startup.diagnostics p /\
    match fst ((if is_empty (trim line) then ret tt
                else Startup.handle_line cfg h call_member line) p) with
    | Ok _ => True
    | Throw _ => False
    | Exit code => code = 0%Z
    end).
  { destruct (is_empty (trim line)) eqn:E; [split; [reflexivity | exact I]|].
    destruct Hline as [Hblank|[v Hv]]; [rewrite Hblank in E; discriminate E|].
    rewrite (handle_line_valid line v p Hv).
    pose proof (handleRequest_outcome v (Startup.server p)) as Ho.
    destruct (handleRequest cfg h call_member v (Startup.server p))
      as [[[r|]|e|c] s1]; cbn [fst] in Ho;
      first [contradiction
            | split; [reflexivity | first [exact I | exact Ho]]]. }
  destruct ((if is_empty (trim line) then ret tt
             else Startup.handle_line cfg h call_member line) p)
    as [[[]|e|c] p1]; cbn [fst snd] in *; destruct Hstep as [Hd Ho];
    [|contradiction|split; assumption].
  destruct (IH p1) as [Hd1 Ho1]. rewrite Hd1. split; assumption.
Qed.


End Total.

